(** * etmos: the etymology merge pipeline, embedded and verified

    A shallow embedding of the server-side services of the repository

      - [server/services/etymologyService.ts]  (merge and deduplication engine)
      - [server/services/etymonlineAPI.ts]     (cross-reference index, validators)
      - [server/services/cognateService.ts]    (rule-based cognate generator)
      - [shared/utils/etymologyUtils.ts], [shared/constants/languages.ts]

    followed by the theorems that settle the specification's claims.

    Conventions of the embedding.

    - A JavaScript string is the list of its UTF-16 code units ([list N]);
      [js "..."] decodes a literal.  Every string of the sources lies in the
      Basic Multilingual Plane, so one code unit is one character there.
    - A finite JavaScript number is a rational ([Q]), and the arithmetic on
      it exact.  A confidence that reaches the merge engine from outside is a
      [number]: finite, one of the two infinities, or NaN.  Lengths, indices
      and priority tiers are integers.
    - Objects that the code mutates or compares by identity (the connections
      handed to [deduplicateConnections]) carry the position they have in the
      input array as their reference.
    - The node-cache layers and the network fetches are collaborators: the
      value a cache lookup or a fetch produced is an argument of the function
      that performs it. *)

From stdpp Require Import gmap list.
From Stdlib Require Import QArith Qminmax Lqa Strings.Ascii.
From Stdlib Require Strings.String.
From Stdlib Require Import Sorting.Sorted Sorting.Permutation.
Import String.StringSyntax.
Close Scope Q_scope.
Open Scope N_scope.

Abbreviation jsstring := (list N).

(** ** JavaScript built-ins used by the services *)

Module JS.

(** Literals: UTF-8 bytes of the Rocq string to UTF-16 code units (one-, two-
    and three-byte sequences, that is the whole BMP). *)
Fixpoint utf16_of_utf8 (bs : list N) : jsstring :=
  match bs with
  | [] => []
  | b0 :: r0 =>
    if b0 <? 128 then b0 :: utf16_of_utf8 r0
    else match r0 with
    | [] => [b0]
    | b1 :: r1 =>
      if b0 <? 224
      then ((b0 - 192) * 64 + (b1 - 128)) :: utf16_of_utf8 r1
      else match r1 with
      | [] => [b0; b1]
      | b2 :: r2 =>
        ((b0 - 224) * 4096 + (b1 - 128) * 64 + (b2 - 128)) :: utf16_of_utf8 r2
      end
    end
  end.

Definition js (s : String.string) : jsstring :=
  utf16_of_utf8 (map N_of_ascii (String.list_ascii_of_string s)).
Arguments js s%_string_scope.

Definition between (lo hi c : N) : bool := (lo <=? c) && (c <=? hi).

(** [String.prototype.toLowerCase], code unit by code unit: the simple
    lower-case mappings of Basic Latin, Latin-1 Supplement, Latin Extended-A,
    Greek and Cyrillic, the blocks in which the program's literals live.  Code
    units of other blocks are left unchanged, and the two context-dependent
    mappings of these blocks (final sigma, dotted capital I) are not applied. *)
Definition lowerUnit (c : N) : N :=
  if between 65 90 c then c + 32
  else if between 192 222 c && negb (c =? 215) then c + 32
  else if (between 256 303 c || between 306 311 c || between 330 375 c)
          && N.even c then c + 1
  else if (between 313 328 c || between 377 382 c) && N.odd c then c + 1
  else if c =? 376 then 255
  else if c =? 902 then 940
  else if between 904 906 c then c + 37
  else if c =? 908 then 972
  else if between 910 911 c then c + 63
  else if between 913 939 c && negb (c =? 930) then c + 32
  else if between 1024 1039 c then c + 80
  else if between 1040 1071 c then c + 32
  else c.

Definition toLowerCase (s : jsstring) : jsstring := map lowerUnit s.

(** [String.prototype.toUpperCase] on the same blocks (sharp s, which maps to
    two letters, and the letters whose capital lies in another block are left
    unchanged). *)
Definition upperUnit (c : N) : N :=
  if between 97 122 c then c - 32
  else if between 224 254 c && negb (c =? 247) then c - 32
  else if c =? 255 then 376
  else if (between 256 303 c || between 306 311 c || between 330 375 c)
          && N.odd c then c - 1
  else if (between 313 328 c || between 377 382 c) && N.even c then c - 1
  else if c =? 940 then 902
  else if between 941 943 c then c - 37
  else if c =? 972 then 908
  else if between 973 974 c then c - 63
  else if between 945 971 c && negb (c =? 962) then c - 32
  else if c =? 962 then 931
  else if between 1104 1119 c then c - 80
  else if between 1072 1103 c then c - 32
  else c.

Definition toUpperCase (s : jsstring) : jsstring := map upperUnit s.

(** White space and line terminators: what [trim] strips and [\s] matches. *)
Definition isWhiteSpace (c : N) : bool :=
  between 9 13 c || (c =? 32) || (c =? 160) || (c =? 5760)
  || between 8192 8202 c || (c =? 8232) || (c =? 8233) || (c =? 8239)
  || (c =? 8287) || (c =? 12288) || (c =? 65279).

Fixpoint trimStart (s : jsstring) : jsstring :=
  match s with
  | [] => []
  | c :: r => if isWhiteSpace c then trimStart r else s
  end.

Definition trimEnd (s : jsstring) : jsstring := rev (trimStart (rev s)).
Definition trim (s : jsstring) : jsstring := trimEnd (trimStart s).

(** [s === t] on strings. *)
Definition strEq (s t : jsstring) : bool := bool_decide (s = t).

(** [s.startsWith(p)], [s.endsWith(p)], [s.includes(p)]. *)
Fixpoint startsWith (s p : jsstring) : bool :=
  match p, s with
  | [], _ => true
  | _ :: _, [] => false
  | a :: p', b :: s' => (a =? b) && startsWith s' p'
  end.

Definition endsWith (s p : jsstring) : bool := startsWith (rev s) (rev p).

Fixpoint includes (s p : jsstring) : bool :=
  startsWith s p ||
  match s with
  | [] => false
  | _ :: s' => includes s' p
  end.

(** [s.slice(0, -n)] for a positive [n]. *)
Definition dropLast (n : nat) (s : jsstring) : jsstring :=
  take (length s - n)%nat s.

(** [array.includes(x)] on an array of strings. *)
Definition arrayIncludes (l : list jsstring) (x : jsstring) : bool :=
  existsb (strEq x) l.

(** Truthiness of a string and of an optional string ([undefined] and [''] are
    falsy); [a || b] on optional strings. *)
Definition truthyStr (s : jsstring) : bool :=
  match s with [] => false | _ => true end.

Definition truthy (o : option jsstring) : bool :=
  match o with Some s => truthyStr s | None => false end.

Definition orElse (a b : option jsstring) : option jsstring :=
  if truthy a then a else b.

Definition orStr (a : option jsstring) (b : jsstring) : jsstring :=
  match a with
  | Some s => if truthyStr s then s else b
  | None => b
  end.

(** Comparisons of numbers. *)
Definition Qltb (a b : Q) : bool := negb (Qle_bool b a).
Definition Qgtb (a b : Q) : bool := Qltb b a.
Definition Qeqb (a b : Q) : bool := Qeq_bool a b.

(** A value for which [typeof] answers ['number'], where the program does
    not compute it itself: a finite number, for which a rational stands, one
    of the two infinities, or [NaN].  [NaN] and zero are falsy, and every
    comparison with [NaN] is false. *)
Inductive number : Type :=
| Num (q : Q)
| Infinity
| NegInfinity
| NaN.

(** [if (n)], [n || 0], [a < b], [a > b], [a === b]. *)
Definition truthyNumber (n : number) : bool :=
  match n with
  | Num q => negb (Qeqb q 0)
  | Infinity | NegInfinity => true
  | NaN => false
  end.
Definition orZero (n : number) : number :=
  if truthyNumber n then n else Num 0.
Definition numberLt (a b : number) : bool :=
  match a, b with
  | Num x, Num y => Qltb x y
  | NegInfinity, Num _ | NegInfinity, Infinity | Num _, Infinity => true
  | _, _ => false
  end.
Definition numberGt (a b : number) : bool := numberLt b a.
Definition numberEq (a b : number) : bool :=
  match a, b with
  | Num x, Num y => Qeqb x y
  | Infinity, Infinity | NegInfinity, NegInfinity => true
  | _, _ => false
  end.

(** [a + b], [a - b] and [Math.min(a, b)]. *)
Definition numberAdd (a b : number) : number :=
  match a, b with
  | NaN, _ | _, NaN => NaN
  | Num x, Num y => Num (x + y)
  | Infinity, NegInfinity | NegInfinity, Infinity => NaN
  | Infinity, _ | _, Infinity => Infinity
  | NegInfinity, _ | _, NegInfinity => NegInfinity
  end.
Definition numberSub (a b : number) : number :=
  numberAdd a
    match b with
    | Num y => Num (- y)
    | Infinity => NegInfinity
    | NegInfinity => Infinity
    | NaN => NaN
    end.
Definition mathMin (a b : number) : number :=
  match a, b with
  | NaN, _ | _, NaN => NaN
  | Num x, Num y => Num (Qmin x y)
  | NegInfinity, _ | _, NegInfinity => NegInfinity
  | Infinity, n | n, Infinity => n
  end.

(** What [sort] reads from the value its comparator returned: [NaN] counts
    as [+0], and of every other value the sign decides. *)
Definition sortValue (v : number) : Q :=
  match v with
  | Num q => q
  | Infinity => 1
  | NegInfinity => -1
  | NaN => 0
  end.

(** [s < t] on strings: the order of the code units. *)
Fixpoint strLt (s t : jsstring) : bool :=
  match s, t with
  | _, [] => false
  | [], _ :: _ => true
  | a :: s', b :: t' => (a <? b) || ((a =? b) && strLt s' t')
  end.

(** [Array.prototype.sort(comparefn)]: the sort is stable, and for a
    consistent comparator the result is the one ordered arrangement that keeps
    equal elements in their original order.  [insertSorted] puts [x], which
    stood in front of the elements of [l], behind exactly those elements that
    the comparator orders before it. *)
Section Sort.
Context {A : Type} (comparefn : A -> A -> Q).

Fixpoint insertSorted (x : A) (l : list A) : list A :=
  match l with
  | [] => [x]
  | y :: l' =>
    if Qle_bool (comparefn x y) 0 then x :: l else y :: insertSorted x l'
  end.

Definition arraySort (l : list A) : list A :=
  fold_right (fun x acc => insertSorted x acc) [] l.
End Sort.

(** *** Regular expressions

    A backtracking matcher with the semantics of ECMAScript patterns without
    the [u] flag, for the patterns of the services that need backtracking
    (lazy quantifiers, optional groups, alternatives in front of a common
    tail).  Greedy and lazy iteration, ordered alternation, numbered
    capturing groups, and the assertions [^] and [$]. *)
Inductive regex : Type :=
| Eps
| Chr (p : N -> bool)
| Seq (a b : regex)
| Alt (a b : regex)
| Star (greedy : bool) (a : regex)
| Group (i : nat) (a : regex)
| Bol
| Eol.

Record mstate := MState {
  pos : nat;                       (* index of the next code unit *)
  rest : jsstring;                 (* the input from [pos] on *)
  caps : list (nat * jsstring)     (* captures, the latest first *)
}.

(** The iteration of a starred pattern: [matchBody] matches the body once.
    An iteration that consumes nothing is rejected, as RepeatMatcher does, so
    more rounds than there are code units left cannot succeed; [n] counts
    them down.  A greedy star tries one more round first, a lazy one the
    continuation [k]. *)
Section Iterate.
Variable greedy : bool.
Variable matchBody : mstate -> (mstate -> option mstate) -> option mstate.
Variable k : mstate -> option mstate.

Fixpoint iterate (n : nat) (st : mstate) {struct n} : option mstate :=
  match n with
  | O => k st
  | S n' =>
    let again (_ : unit) :=
      matchBody st (fun st' =>
        if (length (rest st') <? length (rest st))%nat
        then iterate n' st' else None) in
    if greedy then
      match again tt with
      | Some e => Some e
      | None => k st
      end
    else
      match k st with
      | Some e => Some e
      | None => again tt
      end
  end.
End Iterate.

(** [run r st k]: match [r] at [st], then continue with [k]; [None] makes the
    matcher backtrack. *)
Fixpoint run (r : regex) (st : mstate) (k : mstate -> option mstate)
  {struct r} : option mstate :=
  match r with
  | Eps => k st
  | Chr p =>
    match rest st with
    | c :: s' => if p c then k (MState (S (pos st)) s' (caps st)) else None
    | [] => None
    end
  | Seq a b => run a st (fun st' => run b st' k)
  | Alt a b =>
    match run a st k with
    | Some e => Some e
    | None => run b st k
    end
  | Star g a => iterate g (run a) k (S (length (rest st))) st
  | Group i a =>
    run a st (fun st' =>
      k (MState (pos st') (rest st')
           ((i, take (pos st' - pos st)%nat (rest st)) :: caps st')))
  | Bol => if (pos st =? 0)%nat then k st else None
  | Eol => match rest st with [] => k st | _ :: _ => None end
  end.

(** A match result: [index], [match[0]] and the groups. *)
Record rmatch := RMatch {
  index : nat;
  matched : jsstring;
  lastIndex : nat;
  groups : list (nat * jsstring)
}.

(** [match[i]]: [undefined] when group [i] took no part in the match. *)
Fixpoint group (i : nat) (gs : list (nat * jsstring)) : option jsstring :=
  match gs with
  | [] => None
  | (j, v) :: gs' => if (i =? j)%nat then Some v else group i gs'
  end.

(** The leftmost match at or behind index [p], where [s] is the input from
    [p] on. *)
Fixpoint searchFrom (r : regex) (p : nat) (s : jsstring) : option rmatch :=
  match run r (MState p s []) Some with
  | Some e => Some (RMatch p (take (pos e - p)%nat s) (pos e) (caps e))
  | None =>
    match s with
    | [] => None
    | _ :: s' => searchFrom r (S p) s'
    end
  end.

(** [s.match(r)] / [r.exec(s)] for a pattern without the [g] flag. *)
Definition exec (r : regex) (s : jsstring) : option rmatch := searchFrom r 0 s.

(** The loop [while ((match = r.exec(s)) !== null)] of a pattern with the [g]
    flag: every match starts where the previous one ended.  The patterns it
    is used with consume at least one code unit, so [length s] rounds are
    enough. *)
Fixpoint execAllFrom (fuel : nat) (r : regex) (p : nat) (s : jsstring)
  : list rmatch :=
  match fuel with
  | O => []
  | S fuel' =>
    match searchFrom r p (drop p s) with
    | Some m => m :: execAllFrom fuel' r (lastIndex m) s
    | None => []
    end
  end.

Definition execAll (r : regex) (s : jsstring) : list rmatch :=
  execAllFrom (length s) r 0 s.

(** Pattern syntax. *)
Definition isUpper (c : N) : bool := between 65 90 c.
Definition isLower (c : N) : bool := between 97 122 c.
Definition isLetter (c : N) : bool := isUpper c || isLower c.
Definition isDigit (c : N) : bool := between 48 57 c.

(** A literal character under the [i] flag: an ASCII letter stands for both
    of its cases (a non-ASCII code unit never canonicalizes to an ASCII one). *)
Definition chrI (c : N) : regex :=
  if isLetter c then Chr (fun x => isLetter x && (lowerUnit x =? lowerUnit c))
  else Chr (N.eqb c).

Definition lit (s : jsstring) : regex :=
  fold_right (fun c r => Seq (Chr (N.eqb c)) r) Eps s.
Definition litI (s : jsstring) : regex :=
  fold_right (fun c r => Seq (chrI c) r) Eps s.
Definition plus (g : bool) (a : regex) : regex := Seq a (Star g a).
Definition opt (a : regex) : regex := Alt a Eps.
Fixpoint alts (l : list regex) : regex :=
  match l with
  | [] => Chr (fun _ => false)
  | [a] => a
  | a :: l' => Alt a (alts l')
  end.
Fixpoint seqs (l : list regex) : regex :=
  match l with
  | [] => Eps
  | [a] => a
  | a :: l' => Seq a (seqs l')
  end.

(** [s.replace(r, template)] for a pattern without the [g] flag, and with it.
    A template is a list of literal pieces and group references [$i]. *)
Inductive tplItem : Type :=
| TLit (s : jsstring)
| TGroup (i : nat).

Definition expand (tpl : list tplItem) (m : rmatch) : jsstring :=
  flat_map (fun it =>
    match it with
    | TLit s => s
    | TGroup i => default [] (group i (groups m))
    end) tpl.

Definition replace (r : regex) (tpl : list tplItem) (s : jsstring) : jsstring :=
  match exec r s with
  | None => s
  | Some m => take (index m) s ++ expand tpl m ++ drop (lastIndex m) s
  end.

Fixpoint replaceAllFrom (fuel : nat) (r : regex) (tpl : list tplItem)
  (p : nat) (s : jsstring) : jsstring :=
  match fuel with
  | O => drop p s
  | S fuel' =>
    match searchFrom r p (drop p s) with
    | Some m =>
      take (index m - p)%nat (drop p s) ++ expand tpl m
        ++ replaceAllFrom fuel' r tpl (lastIndex m) s
    | None => drop p s
    end
  end.

Definition replaceAll (r : regex) (tpl : list tplItem) (s : jsstring)
  : jsstring :=
  replaceAllFrom (length s) r tpl 0 s.

(** An object literal, given as the list of its entries.  [prop] looks a key
    up among the literal's own keys.  That is [obj[k]] for every key but the
    names of the members a literal inherits from [Object.prototype]; the
    tables of the cognate service, of the Wiktionary parser and of the tiers
    are read with [prop], that is for keys other than these names. *)
Fixpoint prop {A : Type} (k : jsstring) (obj : list (jsstring * A)) : option A :=
  match obj with
  | [] => None
  | (k', v) :: obj' => if strEq k k' then Some v else prop k obj'
  end.

(** [obj[k]] in full: an own entry, a member inherited from
    [Object.prototype] (a function, or the prototype itself for [__proto__]),
    or [undefined]. *)
Definition objectPrototypeMembers : list jsstring :=
  [js "constructor"; js "__defineGetter__"; js "__defineSetter__";
   js "hasOwnProperty"; js "__lookupGetter__"; js "__lookupSetter__";
   js "isPrototypeOf"; js "propertyIsEnumerable"; js "toString";
   js "valueOf"; js "__proto__"; js "toLocaleString"].

Inductive member (A : Type) : Type :=
| Own (v : A)
| Inherited (name : jsstring)
| NoMember.
Arguments Own {A} v.
Arguments Inherited {A} name.
Arguments NoMember {A}.

Definition lookup {A : Type} (k : jsstring) (obj : list (jsstring * A))
  : member A :=
  match prop k obj with
  | Some v => Own v
  | None =>
    if arrayIncludes objectPrototypeMembers k then Inherited k else NoMember
  end.

(** The string an inherited member turns into in a concatenation or a
    template literal, as Node prints it. *)
Definition inheritedToString (name : jsstring) : jsstring :=
  if strEq name (js "__proto__") then js "[object Object]"
  else js "function "
       ++ (if strEq name (js "constructor") then js "Object" else name)
       ++ js "() { [native code] }".

(** [[...s]]: the string split into code points (a surrogate pair stays one
    element). *)
Fixpoint spread (s : jsstring) : list jsstring :=
  match s with
  | [] => []
  | c :: s' =>
    match s' with
    | d :: s'' =>
      if between 55296 56319 c && between 56320 57343 d
      then [c; d] :: spread s''
      else [c] :: spread s'
    | [] => [[c]]
    end
  end.

(** [new Set(l).size]. *)
Fixpoint distinct (l : list jsstring) : list jsstring :=
  match l with
  | [] => []
  | x :: l' => if arrayIncludes l' x then distinct l' else x :: distinct l'
  end.

(** Replacing, in an array of objects tagged with their references, the first
    element whose reference is [e]: [i = a.indexOf(existing); if (i >= 0)
    a[i] = x]. *)
Fixpoint replaceRef {A : Type} (e : nat) (x : nat * A) (a : list (nat * A))
  : list (nat * A) :=
  match a with
  | [] => []
  | y :: a' => if (fst y =? e)%nat then x :: a' else y :: replaceRef e x a'
  end.

Definition quoted (s : jsstring) : jsstring := [34] ++ s ++ [34].

(** What a call throws: an [Error(message)] of the program, or the
    [TypeError] of the engine for a call of something that is no function. *)
Inductive thrown : Type :=
| Error (message : jsstring)
| TypeError.

(** How a call ends: with a value, or with something thrown (for an [async]
    function, the promise rejected with it). *)
Inductive completion (A : Type) : Type :=
| Returned (value : A)
| Threw (error : thrown).
Arguments Returned {A} value.
Arguments Threw {A} error.

(** A [for] loop that appends to an array what [body] yields for each
    element; a throw of the body ends the loop and the function. *)
Fixpoint forEach {A B : Type} (body : A -> completion (list B)) (l : list A)
  : completion (list B) :=
  match l with
  | [] => Returned []
  | x :: l' =>
    match body x with
    | Returned ys =>
      match forEach body l' with
      | Returned zs => Returned (ys ++ zs)
      | Threw e => Threw e
      end
    | Threw e => Threw e
    end
  end.

End JS.

(** ** [shared/constants/languages.ts] and [shared/utils/etymologyUtils.ts] *)

Module EtymologyUtils.
Import JS.

Definition LANGUAGE_NAMES : list (jsstring * jsstring) := [
  (js "en", js "English"); (js "de", js "German"); (js "nl", js "Dutch");
  (js "da", js "Danish"); (js "sv", js "Swedish"); (js "no", js "Norwegian");
  (js "is", js "Icelandic"); (js "got", js "Gothic");
  (js "es", js "Spanish"); (js "fr", js "French"); (js "it", js "Italian");
  (js "pt", js "Portuguese"); (js "ro", js "Romanian");
  (js "ca", js "Catalan"); (js "la", js "Latin"); (js "ru", js "Russian");
  (js "pl", js "Polish"); (js "cs", js "Czech"); (js "sk", js "Slovak");
  (js "bg", js "Bulgarian"); (js "hr", js "Croatian");
  (js "sr", js "Serbian"); (js "uk", js "Ukrainian"); (js "ga", js "Irish");
  (js "gd", js "Scottish Gaelic"); (js "cy", js "Welsh");
  (js "br", js "Breton"); (js "kw", js "Cornish"); (js "gr", js "Greek");
  (js "grc", js "Ancient Greek"); (js "hi", js "Hindi");
  (js "bn", js "Bengali"); (js "fa", js "Persian"); (js "ku", js "Kurdish");
  (js "hy", js "Armenian"); (js "sq", js "Albanian");
  (js "lt", js "Lithuanian"); (js "lv", js "Latvian");
  (js "fi", js "Finnish"); (js "et", js "Estonian");
  (js "hu", js "Hungarian"); (js "ar", js "Arabic"); (js "he", js "Hebrew");
  (js "am", js "Amharic"); (js "zh", js "Chinese"); (js "bo", js "Tibetan");
  (js "my", js "Burmese"); (js "ja", js "Japanese"); (js "ko", js "Korean");
  (js "tr", js "Turkish"); (js "az", js "Azerbaijani");
  (js "kk", js "Kazakh"); (js "ky", js "Kyrgyz"); (js "uz", js "Uzbek");
  (js "ka", js "Georgian"); (js "sw", js "Swahili"); (js "oj", js "Ojibwe");
  (js "pie", js "Proto-Indo-European");
  (js "ine-pro", js "Proto-Indo-European"); (js "pgm", js "Proto-Germanic");
  (js "gem-pro", js "Proto-Germanic");
  (js "gmw-pro", js "Proto-West-Germanic"); (js "itc", js "Proto-Italic");
  (js "cel", js "Proto-Celtic"); (js "goh", js "Old High German");
  (js "gmh", js "Middle High German"); (js "gml", js "Middle Low German");
  (js "odt", js "Old Dutch"); (js "dum", js "Middle Dutch");
  (js "ofs", js "Old Frisian"); (js "ang", js "Old English");
  (js "enm", js "Middle English"); (js "non", js "Old Norse");
  (js "la-cla", js "Classical Latin"); (js "la-vul", js "Vulgar Latin");
  (js "la-ecc", js "Ecclesiastical Latin");
  (js "la-med", js "Medieval Latin"); (js "ml", js "Medieval Latin");
  (js "ML", js "Medieval Latin"); (js "ml.", js "Medieval Latin");
  (js "ML.", js "Medieval Latin"); (js "fro", js "Old French");
  (js "frm", js "Middle French"); (js "pro", js "Old Occitan");
  (js "osp", js "Old Spanish"); (js "roa-opt", js "Old Portuguese");
  (js "sla", js "Slavic"); (js "cu", js "Church Slavonic");
  (js "orv", js "Old East Slavic"); (js "zlw-ocs", js "Old Czech");
  (js "zlw-opl", js "Old Polish"); (js "sla-pro", js "Proto-Slavic");
  (js "mga", js "Middle Irish"); (js "sga", js "Old Irish");
  (js "owl", js "Old Welsh"); (js "cnx", js "Middle Cornish");
  (js "cel-bry-pro", js "Proto-Brythonic"); (js "cel-gau", js "Gaulish");
  (js "gmy", js "Mycenaean Greek"); (js "grk-pro", js "Proto-Greek");
  (js "sa", js "Sanskrit"); (js "pal", js "Middle Persian");
  (js "ae", js "Avestan"); (js "peo", js "Old Persian");
  (js "iir-pro", js "Proto-Indo-Iranian");
  (js "inc-pro", js "Proto-Indo-Aryan"); (js "ira-pro", js "Proto-Iranian");
  (js "ine-bsl-pro", js "Proto-Balto-Slavic");
  (js "bat-pro", js "Proto-Baltic"); (js "urj-pro", js "Proto-Uralic");
  (js "fiu-fin-pro", js "Proto-Finnic"); (js "sem-pro", js "Proto-Semitic");
  (js "ccs-pro", js "Proto-Kartvelian"); (js "unknown", js "Unknown");
  (js "und", js "Unknown"); (js "proto", js "Proto Language")
].

(** [LANGUAGE_NAMES[languageCode] || languageCode.toUpperCase()].  The
    callers put the result into a template literal; for a code that names an
    inherited member the result is that member, and the text is the string it
    turns into. *)
Definition getLanguageName (languageCode : jsstring) : jsstring :=
  match lookup languageCode LANGUAGE_NAMES with
  | Own name => if truthyStr name then name else toUpperCase languageCode
  | Inherited member => inheritedToString member
  | NoMember => toUpperCase languageCode
  end.

(** The loop shared by [getRomanceRoot] and [getGermanicRoot]: the first
    ending of the table that the word carries, with more than two code units
    left in front of it, is cut off. *)
Fixpoint stripFirstEnding (endings : list jsstring) (word : jsstring) : jsstring :=
  match endings with
  | [] => word
  | ending :: endings' =>
    if endsWith word ending && (length ending + 2 <? length word)%nat
    then dropLast (length ending) word
    else stripFirstEnding endings' word
  end.

Definition getRomanceRoot (word : jsstring) : jsstring :=
  stripFirstEnding
    [js "ción"; js "sión"; js "tion"; js "sion"; js "zione"; js "sione";
     js "ção"; js "são";
     js "idad"; js "ité"; js "ità"; js "idade"; js "tate"; js "dad";
     js "oso"; js "osa"; js "eux"; js "euse"; js "oso"; js "osa";
     js "ico"; js "ica"; js "ique"; js "ico"; js "ica";
     js "al"; js "ale"; js "ar"; js "er"; js "ir"; js "are"; js "ere";
     js "ire"] word.

Definition getGermanicRoot (word : jsstring) : jsstring :=
  stripFirstEnding
    [js "ing"; js "ed"; js "er"; js "est"; js "ly"; js "ness"; js "ment";
     js "en"; js "an"; js "ung"; js "heit"; js "keit"; js "lich"; js "isch"]
    word.

(** The loop of [areRootsRelated] over the common indices of the two roots. *)
Fixpoint countDifferences (maxDiff differences : nat) (root1 root2 : jsstring)
  : bool :=
  match root1, root2 with
  | a :: root1', b :: root2' =>
    if negb (a =? b) then
      if (maxDiff <? S differences)%nat then false
      else countDifferences maxDiff (S differences) root1' root2'
    else countDifferences maxDiff differences root1' root2'
  | _, _ => (differences <=? maxDiff)%nat
  end.

Definition areRootsRelated (root1 root2 : jsstring) : bool :=
  if strEq root1 root2 then true
  else if (2 <? Z.abs (Z.of_nat (length root1) - Z.of_nat (length root2)))%Z
  then false
  else
    let maxDiff := (Nat.min (length root1) (length root2) / 3)%nat in
    countDifferences maxDiff 0 root1 root2.

(** [isCrossLanguageDerivative], which [etymologyService.ts] and
    [cognateService.ts] both carry with the same body. *)
Definition romanceLanguages : list jsstring :=
  [js "es"; js "fr"; js "it"; js "pt"; js "ca"; js "ro"].
Definition germanicLanguages : list jsstring :=
  [js "en"; js "de"; js "nl"; js "da"; js "sv"; js "no"].

Definition suffixes (l : list jsstring) : regex :=
  alts (map (fun e => Seq (lit e) Eol) l).

(** [{ en: /tion$/, romance: /ción$|tion$|zione$/ }], ... *)
Definition latinPatterns : list (regex * regex) :=
  [ (suffixes [js "tion"], suffixes [js "ción"; js "tion"; js "zione"]);
    (suffixes [js "sion"], suffixes [js "sión"; js "sion"; js "sione"]);
    (suffixes [js "ity"], suffixes [js "idad"; js "ité"; js "ità"]);
    (suffixes [js "ous"], suffixes [js "oso"; js "eux"; js "oso"]);
    (suffixes [js "ic"], suffixes [js "ico"; js "ique"; js "ico"]);
    (suffixes [js "al"], suffixes [js "al"; js "al"; js "ale"]) ].

Definition isCrossLanguageDerivative
  (source target sourceLang targetLang : jsstring) : bool :=
  let isSourceRomance := arrayIncludes romanceLanguages sourceLang in
  let isTargetRomance := arrayIncludes romanceLanguages targetLang in
  if isSourceRomance && isTargetRomance
     && strEq (getRomanceRoot source) (getRomanceRoot target)
     && (3 <=? length (getRomanceRoot source))%nat
  then true
  else if (strEq sourceLang (js "en") || strEq sourceLang (js "de"))
          && isTargetRomance
          && existsb (fun pattern =>
               match exec (fst pattern) source, exec (snd pattern) target with
               | Some _, Some _ =>
                 areRootsRelated (replace (fst pattern) [] source)
                                 (replace (snd pattern) [] target)
               | _, _ => false
               end) latinPatterns
  then true
  else
    let isSourceGermanic := arrayIncludes germanicLanguages sourceLang in
    let isTargetGermanic := arrayIncludes germanicLanguages targetLang in
    isSourceGermanic && isTargetGermanic
    && strEq (getGermanicRoot source) (getGermanicRoot target)
    && (3 <=? length (getGermanicRoot source))%nat.

End EtymologyUtils.

(** ** [server/services/cognateService.ts] *)

Module CognateService.
Import JS.

Record SoundChangeRule := {
  from : regex;
  to : list tplItem;
  example : jsstring;
  lang : option jsstring;
  family : option jsstring
}.

Record Cognate := {
  word : jsstring;
  language : jsstring;
  confidence : Q;
  relationship : jsstring;
  semanticField : option jsstring;
  concept : option jsstring;
  soundChange : option jsstring;
  notes : option jsstring
}.

Abbreviation LanguageMap := (list (jsstring * list jsstring)).
Abbreviation Concept := (list (jsstring * LanguageMap)).
Abbreviation CognateGroups := (list (jsstring * Concept)).

Definition isVowel (c : N) : bool := arrayIncludes [[97]; [101]; [105]; [111]; [117]] [c].

Definition rule (f : regex) (t : list tplItem) (ex : String.string)
  (l fam : option jsstring) : SoundChangeRule :=
  {| from := f; to := t; example := js ex; lang := l; family := fam |}.
Arguments rule f t ex%_string_scope l fam.

Definition soundChangeRules : list (jsstring * list SoundChangeRule) := [
  (js "germanic_to_romance", [
    (* /^h([aeiou])/ -> '$1' *)
    rule (seqs [Bol; lit (js "h"); Group 1 (Chr isVowel)]) [TGroup 1]
         "haus → casa" None None;
    (* /k([aeiou])/ -> 'c$1' *)
    rule (seqs [lit (js "k"); Group 1 (Chr isVowel)]) [TLit (js "c"); TGroup 1]
         "kin → cognate" None None;
    (* /w([aeiou])/ -> 'v$1' *)
    rule (seqs [lit (js "w"); Group 1 (Chr isVowel)]) [TLit (js "v"); TGroup 1]
         "water → aqua" None None;
    (* /^f/ -> 'p' *)
    rule (seqs [Bol; lit (js "f")]) [TLit (js "p")] "father → pater" None None;
    (* /th/ -> 't' *)
    rule (lit (js "th")) [TLit (js "t")] "three → tres" None None
  ]);
  (js "latin_variations", [
    rule (lit (js "ct")) [TLit (js "tt")] "factum → fatto" (Some (js "it")) None;
    rule (lit (js "ct")) [TLit (js "ch")] "factum → hecho" (Some (js "es")) None;
    rule (lit (js "ct")) [TLit (js "it")] "factum → fait" (Some (js "fr")) None;
    rule (seqs [Bol; lit (js "p")]) [TLit []] "pater → père" (Some (js "fr")) None;
    rule (seqs [Bol; lit (js "f")]) [TLit (js "h")] "farina → harina"
         (Some (js "es")) None
  ]);
  (js "indo_european", [
    rule (seqs [Bol; lit (js "p")]) [TLit (js "f")] "pater → father"
         None (Some (js "germanic"));
    rule (seqs [Bol; lit (js "d")]) [TLit (js "t")] "decem → ten"
         None (Some (js "germanic"));
    rule (seqs [Bol; lit (js "g")]) [TLit (js "k")] "genus → kin"
         None (Some (js "germanic"))
  ])
].

Definition cognateGroups : CognateGroups := [
  (js "family_relations", [
    (js "mother", [
      (js "en", [js "mother"]);
      (js "de", [js "mutter"]);
      (js "es", [js "madre"]);
      (js "fr", [js "mère"]);
      (js "it", [js "madre"]);
      (js "la", [js "mater"]);
      (js "ru", [js "мать"]);
      (js "gr", [js "μητέρα"])
    ]);
    (js "father", [
      (js "en", [js "father"]);
      (js "de", [js "vater"]);
      (js "es", [js "padre"]);
      (js "fr", [js "père"]);
      (js "it", [js "padre"]);
      (js "la", [js "pater"]);
      (js "ru", [js "отец"]);
      (js "gr", [js "πατέρας"])
    ]);
    (js "brother", [
      (js "en", [js "brother"]);
      (js "de", [js "bruder"]);
      (js "es", [js "hermano"]);
      (js "fr", [js "frère"]);
      (js "it", [js "fratello"]);
      (js "la", [js "frater"]);
      (js "ru", [js "брат"]);
      (js "gr", [js "αδελφός"])
    ])
  ]);
  (js "numbers", [
    (js "one", [
      (js "en", [js "one"]);
      (js "de", [js "ein"; js "eins"]);
      (js "es", [js "uno"]);
      (js "fr", [js "un"]);
      (js "it", [js "uno"]);
      (js "la", [js "unus"]);
      (js "ru", [js "один"]);
      (js "gr", [js "ένα"])
    ]);
    (js "two", [
      (js "en", [js "two"]);
      (js "de", [js "zwei"]);
      (js "es", [js "dos"]);
      (js "fr", [js "deux"]);
      (js "it", [js "due"]);
      (js "la", [js "duo"]);
      (js "ru", [js "два"]);
      (js "gr", [js "δύο"])
    ]);
    (js "three", [
      (js "en", [js "three"]);
      (js "de", [js "drei"]);
      (js "es", [js "tres"]);
      (js "fr", [js "trois"]);
      (js "it", [js "tre"]);
      (js "la", [js "tres"]);
      (js "ru", [js "три"]);
      (js "gr", [js "τρία"])
    ])
  ]);
  (js "body_parts", [
    (js "heart", [
      (js "en", [js "heart"]);
      (js "de", [js "herz"]);
      (js "es", [js "corazón"]);
      (js "fr", [js "cœur"]);
      (js "it", [js "cuore"]);
      (js "la", [js "cor"]);
      (js "ru", [js "сердце"]);
      (js "gr", [js "καρδιά"])
    ]);
    (js "head", [
      (js "en", [js "head"]);
      (js "de", [js "kopf"; js "haupt"]);
      (js "es", [js "cabeza"]);
      (js "fr", [js "tête"]);
      (js "it", [js "testa"]);
      (js "la", [js "caput"]);
      (js "ru", [js "голова"]);
      (js "gr", [js "κεφάλι"])
    ])
  ]);
  (js "basic_concepts", [
    (js "water", [
      (js "en", [js "water"]);
      (js "de", [js "wasser"]);
      (js "es", [js "agua"]);
      (js "fr", [js "eau"]);
      (js "it", [js "acqua"]);
      (js "la", [js "aqua"]);
      (js "ru", [js "вода"]);
      (js "gr", [js "νερό"])
    ]);
    (js "fire", [
      (js "en", [js "fire"]);
      (js "de", [js "feuer"]);
      (js "es", [js "fuego"]);
      (js "fr", [js "feu"]);
      (js "it", [js "fuoco"]);
      (js "la", [js "ignis"]);
      (js "ru", [js "огонь"]);
      (js "gr", [js "φωτιά"])
    ]);
    (js "house", [
      (js "en", [js "house"]);
      (js "de", [js "haus"]);
      (js "es", [js "casa"]);
      (js "fr", [js "maison"]);
      (js "it", [js "casa"]);
      (js "la", [js "domus"]);
      (js "ru", [js "дом"]);
      (js "gr", [js "σπίτι"])
    ])
  ])
].

Definition getLanguageName (code : jsstring) : jsstring :=
  EtymologyUtils.getLanguageName code.

Definition isCrossLanguageDerivative
  (source target sourceLang targetLang : jsstring) : bool :=
  EtymologyUtils.isCrossLanguageDerivative source target sourceLang targetLang.

Definition derivationalSuffixes : list jsstring :=
  [js "ing"; js "ed"; js "s"; js "es"; js "ies"; js "er"; js "est"; js "ly";
   js "ie"; js "y";
   js "ness"; js "ment"; js "tion"; js "sion"; js "ful"; js "less"; js "able";
   js "ible";
   js "ist"; js "ian"; js "ism"; js "ity"; js "hood"; js "ship"; js "ward";
   js "wise"; js "like";
   js "ify"; js "ize"; js "ise"; js "ate"; js "age"; js "dom"; js "ory";
   js "ous"; js "ive"; js "ant"; js "ent";
   js "al"; js "ic"; js "ous"; js "eous"; js "ious"; js "ary"; js "ery";
   js "ory"; js "ure"; js "ade"].

Definition derivationalPrefixes : list jsstring :=
  [js "re"; js "un"; js "pre"; js "dis"; js "mis"; js "over"; js "under";
   js "out"; js "up"; js "in"; js "im"; js "il"; js "ir";
   js "non"; js "anti"; js "de"; js "ex"; js "sub"; js "super"; js "inter";
   js "trans"; js "semi"; js "multi"; js "co"].

(** One round of the suffix loops: is [b] the word [a] with [suffix], also
    through the spelling changes of [-ies], [-ed] and [-ing]? *)
Definition inflects (a b suffix : jsstring) : bool :=
  strEq b (a ++ suffix)
  || (strEq suffix (js "ies") && endsWith a (js "y")
      && strEq b (dropLast 1 a ++ js "ies"))
  || (strEq suffix (js "ed") && endsWith a (js "e") && strEq b (a ++ js "d"))
  || (strEq suffix (js "ing") && endsWith a (js "e")
      && strEq b (dropLast 1 a ++ js "ing")).

Definition isDerivative (sourceText targetText sourceLang targetLang : jsstring)
  : bool :=
  let source := trim (toLowerCase sourceText) in
  let target := trim (toLowerCase targetText) in
  if strEq source target then true
  else if negb (strEq sourceLang targetLang)
  then isCrossLanguageDerivative source target sourceLang targetLang
  else if existsb (inflects source target) derivationalSuffixes then true
  else if existsb (inflects target source) derivationalSuffixes then true
  else existsb (fun prefix =>
         strEq target (prefix ++ source) || strEq source (prefix ++ target))
       derivationalPrefixes.

Definition findDirectCognates
  (word sourceLanguage : jsstring) (targetLanguages : list jsstring)
  : list Cognate :=
  flat_map (fun field : jsstring * Concept =>
    let (fieldName, concepts) := field in
    flat_map (fun entry : jsstring * LanguageMap =>
      let (conceptName, languageMap) := entry in
      let sourceWords := default [] (prop sourceLanguage languageMap) in
      let wordMatches :=
        existsb (fun w => strEq (toLowerCase w) (toLowerCase word)) sourceWords in
      if wordMatches then
        flat_map (fun targetLang =>
          match prop targetLang languageMap with
          | Some cognateWords =>
            if negb (strEq targetLang sourceLanguage) then
              flat_map (fun cognateWord =>
                if negb (isDerivative word cognateWord sourceLanguage targetLang)
                then [ {| word := cognateWord;
                          language := targetLang;
                          confidence := 0.95;
                          relationship := js "cognate";
                          semanticField := Some fieldName;
                          concept := Some conceptName;
                          soundChange := None;
                          notes := Some (js "Direct cognate through "
                                          ++ conceptName ++ js " concept") |} ]
                else []) cognateWords
            else []
          | None => []
          end) targetLanguages
      else []) concepts) cognateGroups.

Definition getLanguageFamily (languageCode : jsstring) : list jsstring :=
  let families : list (jsstring * list jsstring) := [
    (js "en", [js "germanic"; js "indo_european"]);
    (js "de", [js "germanic"; js "indo_european"]);
    (js "nl", [js "germanic"; js "indo_european"]);
    (js "da", [js "germanic"; js "indo_european"]);
    (js "sv", [js "germanic"; js "indo_european"]);
    (js "no", [js "germanic"; js "indo_european"]);
    (js "es", [js "romance"; js "indo_european"]);
    (js "fr", [js "romance"; js "indo_european"]);
    (js "it", [js "romance"; js "indo_european"]);
    (js "pt", [js "romance"; js "indo_european"]);
    (js "ro", [js "romance"; js "indo_european"]);
    (js "ca", [js "romance"; js "indo_european"]);
    (js "la", [js "latin"; js "indo_european"]);
    (js "gr", [js "hellenic"; js "indo_european"]);
    (js "ru", [js "slavic"; js "indo_european"]);
    (js "pl", [js "slavic"; js "indo_european"]);
    (js "cs", [js "slavic"; js "indo_european"]);
    (js "ar", [js "semitic"]);
    (js "he", [js "semitic"]);
    (js "hi", [js "indo_aryan"; js "indo_european"]);
    (js "sa", [js "indo_aryan"; js "indo_european"])
  ] in
  default [js "unknown"] (prop languageCode families).

(** The innermost loop of [applySoundChangeRules]: the rules of one table
    applied to the word for one target language. *)
Definition applyRules (rules : list SoundChangeRule) (word targetLang : jsstring)
  : list Cognate :=
  flat_map (fun rule =>
    if truthy (lang rule) && negb (strEq (default [] (lang rule)) targetLang)
    then []
    else
      match exec (from rule) word with
      | Some _ =>
        let transformedWord := replace (from rule) (to rule) word in
        if negb (strEq transformedWord word) && (1 <? length transformedWord)%nat
        then [ {| word := transformedWord;
                  language := targetLang;
                  confidence := 0.75;
                  relationship := js "cognate";
                  semanticField := None;
                  concept := None;
                  soundChange := Some (example rule);
                  notes := Some (js "Potential cognate via sound change: "
                                  ++ example rule) |} ]
        else []
      | None => []
      end) rules.

Definition applySoundChangeRules
  (word sourceLanguage : jsstring) (targetLanguages : list jsstring)
  : list Cognate :=
  let languageFamilies := getLanguageFamily sourceLanguage in
  flat_map (fun targetLang =>
    if strEq targetLang sourceLanguage then []
    else
      let targetFamilies := getLanguageFamily targetLang in
      flat_map (fun family =>
        flat_map (fun targetFamily =>
          let ruleKey := family ++ js "_to_" ++ targetFamily in
          let rules :=
            match prop ruleKey soundChangeRules with
            | Some rs => rs
            | None => default [] (prop family soundChangeRules)
            end in
          applyRules rules word targetLang) targetFamilies) languageFamilies)
    targetLanguages.

(** [deduplicateCognates]: [cognates] come tagged with their references, and
    [seen] maps a key to the reference and value it holds. *)
Definition dedupKey (cognate : Cognate) : jsstring :=
  toLowerCase (word cognate) ++ js "_" ++ language cognate.

Definition deduplicateStep
  (st : gmap jsstring (nat * Cognate) * list (nat * Cognate))
  (cognate : nat * Cognate)
  : gmap jsstring (nat * Cognate) * list (nat * Cognate) :=
  let (seen, unique) := st in
  let key := dedupKey (snd cognate) in
  match seen !! key with
  | None => (<[key := cognate]> seen, unique ++ [cognate])
  | Some existing =>
    if Qgtb (confidence (snd cognate)) (confidence (snd existing))
       && existsb (fun u => (fst u =? fst existing)%nat) unique
    then (<[key := cognate]> seen, replaceRef (fst existing) cognate unique)
    else (seen, unique)
  end.

Definition deduplicateCognates (cognates : list Cognate) : list Cognate :=
  map snd (snd (fold_left deduplicateStep (imap pair cognates) (∅, []))).

(** [findCognates]; [cached] is what [cache.get(cacheKey)] returned. *)
Definition findCognates (cached : option (list Cognate))
  (word sourceLanguage : jsstring) (targetLanguages : list jsstring)
  : list Cognate :=
  match cached with
  | Some cognates => cognates
  | None =>
    let normalizedWord := trim (toLowerCase word) in
    let directCognates :=
      findDirectCognates normalizedWord sourceLanguage targetLanguages in
    let soundChangeCognates :=
      applySoundChangeRules normalizedWord sourceLanguage targetLanguages in
    let uniqueCognates :=
      deduplicateCognates (directCognates ++ soundChangeCognates) in
    arraySort (fun a b => confidence b - confidence a)%Q uniqueCognates
  end.

End CognateService.

(** ** [server/services/etymonlineAPI.ts] *)

Module EtymonlineAPI.
Import JS.

Record EtymonlineWord := {
  text : jsstring;
  language : jsstring;
  partOfSpeech : jsstring;
  definition : jsstring
}.

Record EtymonlineRelationship := {
  type : jsstring;
  confidence : Q;
  notes : jsstring;
  origin : option jsstring;
  sharedRoot : option jsstring;
  etymologyContext : option jsstring;
  isFromCrossReference : bool;
  isFromShortenedDatabase : bool
}.

Record EtymologyConnection := {
  word : EtymonlineWord;
  relationship : EtymonlineRelationship
}.

(** An element of [crossReferences[i].cognateWords]. *)
Record CrossReferenceCognate := {
  cr_word : jsstring;
  cr_language : jsstring;
  cr_etymologicalForm : jsstring;
  cr_relationshipType : jsstring;
  cr_sharedRoot : jsstring;
  cr_confidence : Q;
  cr_notes : jsstring
}.

Record CrossReference := {
  xr_sharedRoot : jsstring;
  cognateWords : list CrossReferenceCognate;
  totalCognates : nat
}.

Record EtymologyData := {
  connections : list EtymologyConnection;
  crossReferences : option (list CrossReference)
}.

Record WordEntry := {
  we_word : jsstring;
  we_language : jsstring;
  etymologicalForm : jsstring;
  etymologicalLanguage : jsstring;
  relationshipType : jsstring;
  we_confidence : Q;
  we_notes : jsstring;
  we_sharedRoot : jsstring
}.

Record ShortenedForm := {
  sf_word : jsstring;
  sf_confidence : Q;
  sf_notes : jsstring
}.

(** The fields of the [EtymonlineAPI] instance. *)
Record Index := {
  etymologyDatabase : gmap jsstring (list WordEntry);
  processedWords : gset jsstring;
  shortenedFormsDatabase : option (gmap jsstring (list ShortenedForm))
}.

Definition emptyIndex : Index :=
  {| etymologyDatabase := ∅; processedWords := ∅;
     shortenedFormsDatabase := None |}.

Definition areSemanticallySuspicious (word sourceWord : jsstring) : bool :=
  let wordLower := toLowerCase word in
  let sourceLower := toLowerCase sourceWord in
  let basicElements := [js "fire"; js "water"; js "earth"; js "air"; js "wind"] in
  let colors :=
    [js "red"; js "blue"; js "green"; js "yellow"; js "black"; js "white"] in
  let numbers := [js "one"; js "two"; js "three"; js "four"; js "five"] in
  let wordIsElement := arrayIncludes basicElements wordLower in
  let sourceIsElement := arrayIncludes basicElements sourceLower in
  let wordIsColor := arrayIncludes colors wordLower in
  let sourceIsColor := arrayIncludes colors sourceLower in
  let wordIsNumber := arrayIncludes numbers wordLower in
  let sourceIsNumber := arrayIncludes numbers sourceLower in
  if (wordIsElement && sourceIsColor) || (wordIsColor && sourceIsElement)
  then true
  else if (wordIsElement && sourceIsNumber) || (wordIsNumber && sourceIsElement)
  then true
  else
    let suspiciousPairs :=
      [ (js "water", js "fire"); (js "fire", js "water");
        (js "water", js "punjab"); (js "punjab", js "water");
        (js "test", js "forest"); (js "forest", js "test") ] in
    if startsWith wordLower (js "*") || startsWith sourceLower (js "*")
    then false
    else
      existsb (fun pair =>
        (strEq wordLower (fst pair) && strEq sourceLower (snd pair))
        || (strEq wordLower (snd pair) && strEq sourceLower (fst pair)))
        suspiciousPairs.

(** [[a-zA-Z₀-₉ʰₑʷβɟḱĝʷʲʼ-]] *)
Definition isRootChar (c : N) : bool :=
  isLower c || isUpper c || between 8320 8329 c
  || existsb (N.eqb c) (js "ʰₑʷβɟḱĝʷʲʼ-").

(** [/\*([a-zA-Z₀-₉ʰₑʷβɟḱĝʷʲʼ-]+)/] *)
Definition pieRootPattern : regex :=
  seqs [lit (js "*"); Group 1 (plus true (Chr isRootChar))].

(** [/^(Proto-Indo-European|PIE)\s+/i] *)
Definition piePrefixPattern : regex :=
  seqs [Bol; Group 1 (alts [litI (js "Proto-Indo-European"); litI (js "PIE")]);
        plus true (Chr isWhiteSpace)].

(** [/^(Proto-[A-Za-z-]+|Old [A-Za-z]+|Middle [A-Za-z]+|Ancient [A-Za-z]+|[A-Za-z]+)\s+/i] *)
Definition languagePrefixPattern : regex :=
  seqs [Bol;
        Group 1 (alts [
          Seq (litI (js "Proto-")) (plus true (Chr (fun c => isLetter c || (c =? 45))));
          Seq (litI (js "Old ")) (plus true (Chr isLetter));
          Seq (litI (js "Middle ")) (plus true (Chr isLetter));
          Seq (litI (js "Ancient ")) (plus true (Chr isLetter));
          plus true (Chr isLetter) ]);
        plus true (Chr isWhiteSpace)].

(** [[.,;:!?]] and [/[.,;:!?]+$/] *)
Definition isPunctuation (c : N) : bool := existsb (N.eqb c) (js ".,;:!?").

Definition trailingPunctuation : regex :=
  seqs [plus true (Chr isPunctuation); Eol].

Definition normalizeEtymologyKey (etymologyString : jsstring) : jsstring :=
  if negb (truthyStr etymologyString) then []
  else
    let normalized := trim etymologyString in
    match exec pieRootPattern normalized with
    | Some pieRootMatch =>
      js "*" ++ toLowerCase (default [] (group 1 (groups pieRootMatch)))
    | None =>
      let normalized :=
        toLowerCase
          (trim (replace languagePrefixPattern []
                   (replace piePrefixPattern [] normalized))) in
      if startsWith normalized (js "*") then normalized
      else replace trailingPunctuation [] normalized
    end.

(** [list.push(x)] at [map.get(key)], the list having been created empty
    when the key was new. *)
Definition ensureKey {A : Type} (key : jsstring) (m : gmap jsstring (list A))
  : gmap jsstring (list A) :=
  match m !! key with
  | Some _ => m
  | None => <[key := []]> m
  end.

Definition pushUnless {A : Type} (present : A -> bool) (key : jsstring) (x : A)
  (m : gmap jsstring (list A)) : gmap jsstring (list A) :=
  let l := default [] (m !! key) in
  if existsb present l then m else <[key := l ++ [x]]> m.

(** One round of the loop of [updateEtymologyDatabase]. *)
Definition recordConnection (sourceWord : jsstring) (st : Index)
  (connection : EtymologyConnection) : Index :=
  let etimWord := word connection in
  let relationship := relationship connection in
  let shortened := default ∅ (shortenedFormsDatabase st) in
  let shortened :=
    if strEq (type relationship) (js "shortened_from") then
      pushUnless (fun form => strEq (sf_word form) sourceWord)
        (toLowerCase (text etimWord))
        {| sf_word := sourceWord;
           sf_confidence := confidence relationship;
           sf_notes := notes relationship |}
        (ensureKey (toLowerCase (text etimWord)) shortened)
    else shortened in
  let sharedRoot :=
    orStr (orElse (sharedRoot relationship) (origin relationship))
          (text etimWord) in
  if negb (truthyStr (text etimWord)) || negb (truthyStr sharedRoot) then
    {| etymologyDatabase := etymologyDatabase st;
       processedWords := processedWords st;
       shortenedFormsDatabase := Some shortened |}
  else
    let etymologyKey := normalizeEtymologyKey sharedRoot in
    let wordEntry :=
      {| we_word := sourceWord;
         we_language := js "en";
         etymologicalForm := text etimWord;
         etymologicalLanguage := language etimWord;
         relationshipType := type relationship;
         we_confidence := confidence relationship;
         we_notes := notes relationship;
         we_sharedRoot := sharedRoot |} in
    {| etymologyDatabase :=
         pushUnless (fun entry => strEq (we_word entry) sourceWord)
           etymologyKey wordEntry
           (ensureKey etymologyKey (etymologyDatabase st));
       processedWords := processedWords st;
       shortenedFormsDatabase := Some shortened |}.

Definition updateEtymologyDatabase (st : Index) (sourceWord : jsstring)
  (etymologyData : EtymologyData) : Index :=
  fold_left (recordConnection sourceWord) (connections etymologyData)
    {| etymologyDatabase := etymologyDatabase st;
       processedWords := {[ sourceWord ]} ∪ processedWords st;
       shortenedFormsDatabase :=
         Some (default ∅ (shortenedFormsDatabase st)) |}.

Definition isValidCrossReferenceConnection
  (sourceWord targetWord sharedRoot : jsstring) : bool :=
  if negb (truthyStr sourceWord) || negb (truthyStr targetWord)
     || negb (truthyStr sharedRoot) then false
  else if strEq (toLowerCase sourceWord) (toLowerCase targetWord) then false
  else if areSemanticallySuspicious sourceWord targetWord then false
  else
    let cleanRoot := normalizeEtymologyKey sharedRoot in
    if (length cleanRoot <? 3)%nat then false
    else
      let genericRoots :=
        [js "*er"; js "*ed"; js "*in"; js "*on"; js "*an"; js "*el";
         js "the"; js "and"; js "from"] in
      negb (arrayIncludes genericRoots (toLowerCase cleanRoot)).

(** The cross-reference part of [enhanceWithCrossReferences], for one
    connection of the parsed data: the [crossReferences] entry and the
    connections it adds. *)
Definition potentialCognates (relatedWords : list WordEntry)
  (sourceWord sharedRoot : jsstring) : list CrossReferenceCognate :=
  map (fun entry =>
      {| cr_word := we_word entry;
         cr_language := we_language entry;
         cr_etymologicalForm := etymologicalForm entry;
         cr_relationshipType := js "cognate_cross_reference";
         cr_sharedRoot := sharedRoot;
         cr_confidence := Qmin 0.75 (we_confidence entry);
         cr_notes := js "Shares etymology " ++ sharedRoot ++ js " with "
                     ++ sourceWord |})
    (List.filter (fun entry => negb (strEq (we_word entry) sourceWord)) relatedWords).

Definition validCognates (potential : list CrossReferenceCognate)
  (sourceWord : jsstring) : list CrossReferenceCognate :=
  List.filter (fun cognate =>
      if areSemanticallySuspicious (cr_word cognate) sourceWord then false
      else if Qltb (cr_confidence cognate) 0.65 then false
      else true) potential.

Definition topCognates (valid : list CrossReferenceCognate)
  : list CrossReferenceCognate :=
  take 2
    (arraySort (fun a b => cr_confidence b - cr_confidence a)%Q
       (List.filter (fun cognate => Qgtb (cr_confidence cognate) 0.75) valid)).

Definition bidirectionalConnection (cognate : CrossReferenceCognate)
  (sourceWord sharedRoot : jsstring) : EtymologyConnection :=
  {| word :=
       {| text := cr_word cognate;
          language := cr_language cognate;
          partOfSpeech := js "cognate";
          definition := js "Related to " ++ quoted sourceWord
                        ++ js " through shared root " ++ quoted sharedRoot |};
     relationship :=
       {| type := js "etymological_cognate";
          confidence := Qmin (cr_confidence cognate * 0.9) 0.85;
          notes := cr_notes cognate;
          origin := Some sharedRoot;
          sharedRoot := Some sharedRoot;
          etymologyContext := None;
          isFromCrossReference := true;
          isFromShortenedDatabase := false |} |}.

Definition crossReferenceOf (st : Index) (sourceWord : jsstring)
  (connection : EtymologyConnection)
  : list CrossReference * list EtymologyConnection :=
  let relationship := relationship connection in
  match orElse (sharedRoot relationship) (origin relationship) with
  | None => ([], [])
  | Some sharedRoot =>
    if negb (truthyStr sharedRoot) then ([], [])
    else
      let etymologyKey := normalizeEtymologyKey sharedRoot in
      match etymologyDatabase st !! etymologyKey with
      | None => ([], [])
      | Some relatedWords =>
        if (1 <? length relatedWords)%nat then
          let valid :=
            validCognates (potentialCognates relatedWords sourceWord sharedRoot)
              sourceWord in
          if (0 <? length valid)%nat then
            ( [ {| xr_sharedRoot := sharedRoot;
                   cognateWords := valid;
                   totalCognates := length valid |} ],
              map (fun cognate =>
                     bidirectionalConnection cognate sourceWord sharedRoot)
                (List.filter (fun cognate =>
                     isValidCrossReferenceConnection sourceWord
                       (cr_word cognate) sharedRoot)
                   (topCognates valid)) )
          else ([], [])
        else ([], [])
      end
  end.

(** The second part: the reverse edges of the shortened-forms sub-index. *)
Definition reverseConnections (st : Index) (sourceWord : jsstring)
  : list EtymologyConnection :=
  match shortenedFormsDatabase st with
  | None => []
  | Some db =>
    match db !! toLowerCase sourceWord with
    | None => []
    | Some shortenedForms =>
      map (fun shortenedForm =>
          {| word :=
               {| text := sf_word shortenedForm;
                  language := js "en";
                  partOfSpeech := js "shortened_form";
                  definition := js "Shortened form of " ++ quoted sourceWord |};
             relationship :=
               {| type := js "shortened_to";
                  confidence := Qmin (sf_confidence shortenedForm) 0.9;
                  notes := quoted (sf_word shortenedForm)
                           ++ js " is a shortened form of " ++ quoted sourceWord;
                  origin := Some (js "Shortened form: " ++ sf_word shortenedForm);
                  sharedRoot := Some sourceWord;
                  etymologyContext := None;
                  isFromCrossReference := false;
                  isFromShortenedDatabase := true |} |})
        (List.filter (fun shortenedForm =>
             Qgtb (sf_confidence shortenedForm) 0.8
             && negb (areSemanticallySuspicious (sf_word shortenedForm)
                        sourceWord))
           shortenedForms)
    end
  end.

Definition enhanceWithCrossReferences (st : Index)
  (etymologyData : EtymologyData) (sourceWord : jsstring) : EtymologyData :=
  let perConnection :=
    map (crossReferenceOf st sourceWord) (connections etymologyData) in
  let addedConnections :=
    flat_map snd perConnection ++ reverseConnections st sourceWord in
  {| connections := connections etymologyData ++ addedConnections;
     crossReferences := Some (flat_map fst perConnection) |}.

End EtymonlineAPI.

(** ** [server/services/etymologyService.ts] *)

Module EtymologyService.
Import JS.

(** [Word] and the connection shapes.  The [id] of a word is an opaque random
    token ([randomUUID]) that no function of the service reads; the records
    do not carry it. *)
Record Word := {
  text : jsstring;
  language : jsstring;
  definition : option jsstring;
  phonetic : option jsstring;
  etymologies : option (list jsstring);
  partOfSpeech : option jsstring
}.

Record Relationship := {
  type : jsstring;
  confidence : number;
  notes : option jsstring;
  origin : option jsstring;
  sharedRoot : option jsstring;
  priority : option jsstring;
  source : option jsstring
}.

Record NormalizedConnection := {
  word : Word;
  relationship : Relationship
}.

(** What the extractors hand over ([connection: any]): every field may be
    missing.  The fields are read behind a test of their type or through
    [||] only, but for [language], on which [toLowerCase] is called as it
    comes: a language is a string, nothing (a missing or falsy value), or a
    truthy value that is no string, such as the member [constructor] that the
    language table of the etymonline extractor inherits.  A [confidence] is
    what [typeof] calls a number, [NaN] included. *)
Module Raw.
Inductive Language : Type :=
| NoLanguage
| LanguageCode (code : jsstring)
| NotAString.
Record Word := {
  text : option jsstring;
  language : Language;
  partOfSpeech : option jsstring;
  definition : option jsstring
}.
Record Relationship := {
  type : option jsstring;
  confidence : option number;
  origin : option jsstring;
  notes : option jsstring;
  sharedRoot : option jsstring
}.
Record Connection := {
  word : option Word;
  relationship : option Relationship
}.
End Raw.

(** The [Connection] and [EtymologyData] of [server/types]: the result. *)
Module Out.
Record Connection := {
  word : Word;
  type : jsstring;
  confidence : number;
  source : jsstring;
  notes : option jsstring
}.
End Out.

Record EtymologyData := {
  sourceWord : Word;
  connections : list Out.Connection
}.

(** The settled values of the three fetches, as far as the service reads
    them. *)
Record WiktionaryData := {
  w_connections : option (list (option Raw.Connection));
  definitions : option (list jsstring);
  pronunciations : option (list jsstring);
  w_etymologies : option (list jsstring);
  w_partOfSpeech : option jsstring
}.

Record Meaning := {
  m_partOfSpeech : jsstring;
  m_definitions : option (list jsstring)
}.

Record DictionaryApiData := {
  d_origin : option jsstring;
  d_phonetic : option jsstring;
  meanings : option (list Meaning)
}.

Record EtymonlineData := {
  e_connections : option (list (option Raw.Connection))
}.

Definition orUndefined (o : option jsstring) : option jsstring :=
  if truthy o then o else None.

Definition getLanguageDisplay (code : jsstring) : jsstring :=
  EtymologyUtils.getLanguageName code.

Definition letterSpaceHyphen (c : N) : bool :=
  isLetter c || isWhiteSpace c || (c =? 45).
Definition starHyphenLetter (c : N) : bool :=
  (c =? 42) || (c =? 45) || isLetter c.
Definition hyphenAlnum (c : N) : bool :=
  (c =? 45) || isLetter c || isDigit c.
Definition spaces : regex := plus true (Chr isWhiteSpace).

Definition rootPatterns : list regex := [
  (* /(?:from|borrowed from|via)\s+([A-Z][A-Za-z\s-]+?\s+[\*\-A-Za-z]+)/i *)
  seqs [alts [litI (js "from"); litI (js "borrowed from"); litI (js "via")];
        spaces;
        Group 1 (seqs [Chr isLetter; plus false (Chr letterSpaceHyphen);
                       spaces; plus true (Chr starHyphenLetter)])];
  (* /(?:cognate with|related to)\s+([A-Z][A-Za-z\s-]+?\s+[\*\-A-Za-z]+)/i *)
  seqs [alts [litI (js "cognate with"); litI (js "related to")];
        spaces;
        Group 1 (seqs [Chr isLetter; plus false (Chr letterSpaceHyphen);
                       spaces; plus true (Chr starHyphenLetter)])];
  (* /(Proto-[A-Za-z-]+\s+\*[-A-Za-z0-9]+)/i *)
  Group 1 (seqs [litI (js "Proto-");
                 plus true (Chr (fun c => isLetter c || (c =? 45)));
                 spaces; lit (js "*"); plus true (Chr hyphenAlnum)]);
  (* /(PIE\s+\*[-A-Za-z0-9]+)/i *)
  Group 1 (seqs [litI (js "PIE"); spaces; lit (js "*");
                 plus true (Chr hyphenAlnum)]);
  (* /(\*[-A-Za-z0-9]+)/ *)
  Group 1 (seqs [lit (js "*"); plus true (Chr hyphenAlnum)]);
  (* /(Old\s+[A-Z][a-z]+(?:\s+[A-Z][a-z]+)?\s+[A-Za-z]+)/ *)
  Group 1 (seqs [lit (js "Old"); spaces; Chr isUpper; plus true (Chr isLower);
                 opt (seqs [spaces; Chr isUpper; plus true (Chr isLower)]);
                 spaces; plus true (Chr isLetter)]);
  (* /(Latin\s+[A-Za-z]+)/ *)
  Group 1 (seqs [lit (js "Latin"); spaces; plus true (Chr isLetter)]);
  (* /(Greek\s+[A-Za-z]+)/ *)
  Group 1 (seqs [lit (js "Greek"); spaces; plus true (Chr isLetter)]);
  (* /(Sanskrit\s+[A-Za-z]+)/ *)
  Group 1 (seqs [lit (js "Sanskrit"); spaces; plus true (Chr isLetter)]);
  (* /(Germanic\s+\*?[-A-Za-z0-9]+)/i *)
  Group 1 (seqs [litI (js "Germanic"); spaces; opt (lit (js "*"));
                 plus true (Chr hyphenAlnum)])
].

(** [/^[^A-Za-z\*]+/] and [/[.,;:]+$/] *)
Definition leadingJunk : regex :=
  seqs [Bol; plus true (Chr (fun c => negb (isLetter c || (c =? 42))))].
Definition trailingPunctuation : regex :=
  seqs [plus true (Chr (fun c => existsb (N.eqb c) (js ".,;:"))); Eol].

(** The inner loop of [extractSharedRoot] over the patterns, for one text. *)
Fixpoint firstRoot (patterns : list regex) (text : jsstring) : option jsstring :=
  match patterns with
  | [] => None
  | pattern :: patterns' =>
    match exec pattern text with
    | Some m =>
      let value :=
        replace trailingPunctuation []
          (replace leadingJunk []
             (trim (orStr (group 1 (groups m)) (matched m)))) in
      if (0 <? length value)%nat then Some value else firstRoot patterns' text
    | None => firstRoot patterns' text
    end
  end.

Fixpoint extractSharedRoot (texts : list jsstring) : option jsstring :=
  match texts with
  | [] => None
  | text :: texts' =>
    if (length (trim text) =? 0)%nat then extractSharedRoot texts'
    else
      match firstRoot rootPatterns text with
      | Some value => Some value
      | None => extractSharedRoot texts'
      end
  end.

Definition optList (o : option jsstring) : list jsstring :=
  match o with
  | Some s => if truthyStr s then [s] else []
  | None => []
  end.

Definition inferSharedRoot (sourceWord targetWord : Word)
  (relationship : Relationship) : jsstring :=
  let candidates :=
    optList (sharedRoot relationship) ++ optList (origin relationship)
    ++ optList (notes relationship)
    ++ [text sourceWord ++ js " " ++ text targetWord] in
  match extractSharedRoot candidates with
  | Some extracted => extracted
  | None =>
    if strEq (type relationship) (js "derivative")
       || strEq (type relationship) (js "compound")
    then text sourceWord
    else if startsWith (text targetWord) (js "*") then text targetWord
    else if strEq (type relationship) (js "cognate")
            && negb (strEq (language targetWord) (language sourceWord))
    then getLanguageDisplay (language targetWord) ++ js " " ++ text targetWord
    else text targetWord
  end.

Definition ensureRootInNotes (notes : option jsstring) (sharedRoot : jsstring)
  : option jsstring :=
  if negb (truthyStr sharedRoot) then orUndefined notes
  else
    let trimmedRoot := trim sharedRoot in
    if (length trimmedRoot =? 0)%nat then orUndefined notes
    else
      match notes with
      | Some n =>
        if includes (toLowerCase n) (toLowerCase trimmedRoot) then Some n
        else if negb (truthyStr n)
        then Some (js "Shared etymological element: " ++ trimmedRoot)
        else Some (n ++ js " (shared root: " ++ trimmedRoot ++ js ")")
      | None => Some (js "Shared etymological element: " ++ trimmedRoot)
      end.

(** [(connection.word.language || sourceWord.language || 'und')
    .toLowerCase()]: a truthy value that is no string has no [toLowerCase]. *)
Definition targetLanguage (sourceWord : Word) (rawLanguage : Raw.Language)
  : completion jsstring :=
  match rawLanguage with
  | Raw.NotAString => Threw TypeError
  | Raw.LanguageCode code =>
    Returned (toLowerCase (orStr (orElse (Some code) (Some (language sourceWord)))
                                 (js "und")))
  | Raw.NoLanguage =>
    Returned (toLowerCase (orStr (Some (language sourceWord)) (js "und")))
  end.

Definition normalizeConnection (sourceWord : Word)
  (connection : option Raw.Connection)
  : completion (option NormalizedConnection) :=
  match connection with
  | None => Returned None
  | Some connection =>
    match Raw.word connection with
    | None => Returned None
    | Some rawWord =>
      let targetText := trim (default [] (Raw.text rawWord)) in
      if negb (truthyStr targetText) then Returned None
      else
      match targetLanguage sourceWord (Raw.language rawWord) with
      | Threw e => Threw e
      | Returned targetLanguage =>
        let targetWord :=
          {| text := targetText;
             language := targetLanguage;
             definition :=
               Some (orStr (Raw.definition rawWord)
                       (js "Related to " ++ quoted (text sourceWord)));
             phonetic := None;
             etymologies := None;
             partOfSpeech :=
               Some (orStr (Raw.partOfSpeech rawWord) (js "unknown")) |} in
        let rel := Raw.relationship connection in
        let relationship :=
          {| type := orStr (rel ≫= Raw.type) (js "related");
             confidence := default (Num 0.5) (rel ≫= Raw.confidence);
             origin := orUndefined (rel ≫= Raw.origin);
             notes := orUndefined (rel ≫= Raw.notes);
             sharedRoot := orUndefined (rel ≫= Raw.sharedRoot);
             priority := None;
             source := None |} in
        let root := inferSharedRoot sourceWord targetWord relationship in
        Returned
          (Some {| word := targetWord;
                   relationship :=
                     {| type := type relationship;
                        confidence := confidence relationship;
                        origin := Some (orStr (origin relationship) root);
                        notes := ensureRootInNotes (notes relationship) root;
                        sharedRoot := Some root;
                        priority := None;
                        source := None |} |})
      end
    end
  end.

Definition getLanguageCodeFromName (name : jsstring) : jsstring :=
  let normalized := toLowerCase name in
  let mapping : list (jsstring * jsstring) := [
    (js "proto-indo-european", js "ine-pro");
    (js "proto-germanic", js "gem-pro");
    (js "proto", js "proto");
    (js "old english", js "en");
    (js "middle english", js "en");
    (js "old french", js "fr");
    (js "middle french", js "fr");
    (js "latin", js "la");
    (js "greek", js "gr");
    (js "ancient greek", js "gr");
    (js "sanskrit", js "sa");
    (js "old norse", js "non");
    (js "old high german", js "de");
    (js "middle high german", js "de");
    (js "german", js "de");
    (js "dutch", js "nl");
    (js "spanish", js "es");
    (js "italian", js "it");
    (js "portuguese", js "pt");
    (js "english", js "en");
    (js "french", js "fr");
    (js "celtic", js "cel");
    (js "arabic", js "ar")
  ] in
  match List.find (fun entry => startsWith normalized (fst entry)) mapping with
  | Some entry => snd entry
  | None => if includes normalized (js "proto") then js "proto" else js "und"
  end.

Record OriginSegment := {
  seg_type : jsstring;
  languageName : jsstring;
  languageCode : jsstring;
  seg_word : jsstring;
  seg_sharedRoot : jsstring
}.

Definition isQuote (c : N) : bool := (c =? 34) || (c =? 39).

(** The tail the two origin patterns share:
    [\s+([A-Z][A-Za-z\s-]+?)\s+(?:the\s+)?(?:word\s+)?["']?([\*\-A-Za-z]+)["']?] *)
Definition originTail : regex :=
  seqs [spaces;
        Group 1 (Seq (Chr isLetter) (plus false (Chr letterSpaceHyphen)));
        spaces;
        opt (Seq (litI (js "the")) spaces);
        opt (Seq (litI (js "word")) spaces);
        opt (Chr isQuote);
        Group 2 (plus true (Chr starHyphenLetter));
        opt (Chr isQuote)].

Definition originPatterns : list (jsstring * regex) := [
  (* /(?:from|borrowed from|via) ... /gi *)
  (js "ancestor",
   Seq (alts [litI (js "from"); litI (js "borrowed from"); litI (js "via")])
       originTail);
  (* /related to ... /gi *)
  (js "cognate", Seq (litI (js "related to")) originTail)
].

Definition parseOriginText (originText : jsstring) : list OriginSegment :=
  let normalized := trim (replaceAll spaces [TLit (js " ")] originText) in
  if negb (truthyStr normalized) then []
  else
    flat_map (fun pattern : jsstring * regex =>
      flat_map (fun m =>
        let languageName := trim (default [] (group 1 (groups m))) in
        let rootWord :=
          replace trailingPunctuation []
            (trim (default [] (group 2 (groups m)))) in
        if negb (truthyStr languageName) || negb (truthyStr rootWord) then []
        else
          [ {| seg_type := fst pattern;
               languageName := languageName;
               languageCode := getLanguageCodeFromName languageName;
               seg_word := rootWord;
               seg_sharedRoot := languageName ++ js " " ++ rootWord |} ])
        (execAll (snd pattern) normalized)) originPatterns.

Definition connectionsFromOrigin (originText : jsstring) (sourceWord : Word)
  : list NormalizedConnection :=
  map (fun segment =>
    let sharedRoot := seg_sharedRoot segment in
    {| word :=
         {| text := seg_word segment;
            language := languageCode segment;
            partOfSpeech := Some (js "root");
            definition :=
              Some (languageName segment ++ js " form related to "
                    ++ quoted (text sourceWord));
            phonetic := None;
            etymologies := None |};
       relationship :=
         {| type := seg_type segment;
            confidence := Num 0.6;
            origin := Some sharedRoot;
            notes := Some (js "Derived from " ++ sharedRoot);
            sharedRoot := Some sharedRoot;
            priority := None;
            source := None |} |}) (parseOriginText originText).

Definition isCrossLanguageDerivative
  (source target sourceLang targetLang : jsstring) : bool :=
  EtymologyUtils.isCrossLanguageDerivative source target sourceLang targetLang.

Definition basicInflections : list jsstring :=
  [js "ing"; js "ed"; js "s"; js "es"; js "ies"; js "er"; js "est"].
Definition clearDerivatives : list jsstring := [js "ly"; js "ness"; js "ment"].
Definition basicPrefixes : list jsstring := [js "un"; js "dis"; js "non"].

(** One round of the loops over [basicInflections]: is [b] the word [a] with
    [suffix], also through the spelling changes of [-ies], [-ed], [-ing]? *)
Definition inflects (a b suffix : jsstring) : bool :=
  strEq b (a ++ suffix)
  || (strEq suffix (js "ies") && endsWith a (js "y")
      && strEq b (dropLast 1 a ++ js "ies"))
  || (strEq suffix (js "ed") && endsWith a (js "e") && strEq b (a ++ js "d"))
  || (strEq suffix (js "ing") && endsWith a (js "e")
      && strEq b (dropLast 1 a ++ js "ing")).

Definition isTrivialDerivative
  (sourceText targetText sourceLang targetLang : jsstring) : bool :=
  let source := trim (toLowerCase sourceText) in
  let target := trim (toLowerCase targetText) in
  if strEq source target then true
  else if negb (strEq sourceLang targetLang)
  then isCrossLanguageDerivative source target sourceLang targetLang
  else if existsb (inflects source target) basicInflections then true
  else if existsb (fun suffix => strEq target (source ++ suffix)) clearDerivatives
  then true
  else if existsb (inflects target source) basicInflections then true
  else if existsb (fun suffix => strEq source (target ++ suffix)) clearDerivatives
  then true
  else existsb (fun prefix =>
         strEq target (prefix ++ source) || strEq source (prefix ++ target))
       basicPrefixes.

Definition areLanguageCompatible (lang1 lang2 connectionType : jsstring) : bool :=
  if includes lang1 (js "pro") || includes lang2 (js "pro")
     || strEq lang1 (js "ine-pro") || strEq lang2 (js "ine-pro")
  then true
  else if strEq connectionType (js "etymology")
          || strEq connectionType (js "pie_root")
  then true
  else
    let indoEuropean :=
      [js "en"; js "de"; js "nl"; js "sv"; js "da"; js "no"; js "fr"; js "es";
       js "it"; js "pt"; js "ro"; js "la"; js "grc"; js "gr"; js "ru"; js "pl";
       js "cs"; js "ga"; js "cy"; js "sa"] in
    let semitic := [js "ar"; js "he"; js "am"] in
    let sino := [js "zh"; js "ja"; js "ko"] in
    let lang1IE := arrayIncludes indoEuropean lang1 in
    let lang2IE := arrayIncludes indoEuropean lang2 in
    let lang1Sem := arrayIncludes semitic lang1 in
    let lang2Sem := arrayIncludes semitic lang2 in
    let lang1Sino := arrayIncludes sino lang1 in
    let lang2Sino := arrayIncludes sino lang2 in
    if (lang1IE && lang2IE) || (lang1Sem && lang2Sem) || (lang1Sino && lang2Sino)
    then true
    else strEq connectionType (js "borrowing") || strEq connectionType (js "loan").

(** [new Set([...a].filter(char => b.includes(char))).size / Math.max(a.length,
    b.length)].  The quotient of two zero lengths, NaN in JavaScript, is 0
    here; the one caller that can reach it, [isSuspiciousCognate], conjoins
    the comparison with a test on the lengths that is false then. *)
Definition similarity (a b : jsstring) : Q :=
  (inject_Z (Z.of_nat (length (distinct
      (List.filter (fun char => includes b char) (spread a)))))
   / inject_Z (Z.of_nat (Nat.max (length a) (length b))))%Q.

Definition lengthGap (a b : jsstring) : Z :=
  Z.abs (Z.of_nat (length a) - Z.of_nat (length b)).

Definition isValidCognateConnection
  (sourceWord cognateWord sourceLang cognateLang : jsstring) : bool :=
  if negb (truthyStr sourceWord) || negb (truthyStr cognateWord)
     || negb (truthyStr sourceLang) || negb (truthyStr cognateLang) then false
  else if strEq sourceLang cognateLang then false
  else
    let sourceLower := toLowerCase sourceWord in
    let cognateLower := toLowerCase cognateWord in
    if (4 <? lengthGap sourceLower cognateLower)%Z then false
    else if Qltb (similarity sourceLower cognateLower) 0.25 then false
    else areLanguageCompatible sourceLang cognateLang (js "cognate").

Definition areSemanticallyUnrelated (word1 word2 : jsstring) : bool :=
  let word1Lower := toLowerCase word1 in
  let word2Lower := toLowerCase word2 in
  if startsWith word1 (js "*") || startsWith word2 (js "*") then false
  else if includes word1Lower (js "proto") || includes word2Lower (js "proto")
  then false
  else
    let basicElements :=
      [js "fire"; js "water"; js "earth"; js "air"; js "wind"] in
    let colors :=
      [js "red"; js "blue"; js "green"; js "yellow"; js "black"; js "white";
       js "brown"; js "purple"; js "orange"; js "pink"] in
    let numbers :=
      [js "one"; js "two"; js "three"; js "four"; js "five"; js "six";
       js "seven"; js "eight"; js "nine"; js "ten"] in
    let word1IsElement := arrayIncludes basicElements word1Lower in
    let word2IsElement := arrayIncludes basicElements word2Lower in
    let word1IsColor := arrayIncludes colors word1Lower in
    let word2IsColor := arrayIncludes colors word2Lower in
    let word1IsNumber := arrayIncludes numbers word1Lower in
    let word2IsNumber := arrayIncludes numbers word2Lower in
    if (word1IsElement && word2IsColor) || (word1IsColor && word2IsElement)
    then true
    else if (word1IsElement && word2IsNumber) || (word1IsNumber && word2IsElement)
    then true
    else if (word1IsColor && word2IsNumber) || (word1IsNumber && word2IsColor)
    then true
    else
      let problematicPairs :=
        [ (js "water", js "fire"); (js "fire", js "water");
          (js "water", js "punjab"); (js "punjab", js "water") ] in
      if startsWith word1 (js "*") || startsWith word2 (js "*") then false
      else if includes (toLowerCase word1) (js "proto")
              || includes (toLowerCase word2) (js "proto") then false
      else
        existsb (fun pair =>
          (strEq word1Lower (fst pair) && strEq word2Lower (snd pair))
          || (strEq word1Lower (snd pair) && strEq word2Lower (fst pair)))
          problematicPairs.

(** [word.toLowerCase().replace(/[^a-z]/g, '')] *)
Definition clean (word : jsstring) : jsstring :=
  List.filter isLower (toLowerCase word).

Definition isSuspiciousCognate (word1 word2 lang1 lang2 : jsstring) : bool :=
  let word1Clean := clean word1 in
  let word2Clean := clean word2 in
  negb (strEq lang1 lang2)
  && Qltb (similarity word1Clean word2Clean) 0.2
  && (3 <? lengthGap word1Clean word2Clean)%Z.

Definition isValidEtymologicalConnection (connection : NormalizedConnection)
  (sourceWord : Word) : bool :=
  let minConfidence : Q :=
    if startsWith (text (word connection)) (js "*") then 0.4%Q else 0.5%Q in
  if numberLt (confidence (relationship connection)) (Num minConfidence)
  then false
  else if startsWith (text (word connection)) (js "*")
          || strEq (language (word connection)) (js "ine-pro")
          || includes (language (word connection)) (js "pro")
  then true
  else if areSemanticallyUnrelated (text sourceWord) (text (word connection))
  then false
  else if negb (areLanguageCompatible (language sourceWord)
                  (language (word connection)) (type (relationship connection)))
  then false
  else negb (isSuspiciousCognate (text sourceWord) (text (word connection))
               (language sourceWord) (language (word connection))).

(** [getPriorityScore].  The sum is a number when both tables answer with
    a number or with nothing.  A tag that names an inherited member makes
    its table answer with that member, and [+] then joins the two operands as
    strings: the score is a string.  [>] and [===] compare two numbers, or
    two strings by their code units; between a number and such a string both
    are false. *)
Inductive score : Type :=
| Points (n : Z)
| Joined (s : jsstring).

(** [table[key] || 0], and the string of an operand ([0] to [9]). *)
Definition priorityOperand (m : member Z) : Z + jsstring :=
  match m with
  | Own v => inl v
  | Inherited name => inr (inheritedToString name)
  | NoMember => inl 0%Z
  end.

Definition operandString (operand : Z + jsstring) : jsstring :=
  match operand with
  | inl n => [Z.to_N (48 + n)]
  | inr s => s
  end.

Definition getPriorityScore (source relationshipType : option jsstring)
  : score :=
  let sourcePriority : list (jsstring * Z) :=
    [ (js "etymonline.com", 3); (js "wiktionary", 2); (js "dictionary-api", 1) ]%Z in
  let typePriority : list (jsstring * Z) :=
    [ (js "etymology", 3); (js "cognate", 2); (js "ancestor", 2);
      (js "borrowing", 1); (js "related", 0) ]%Z in
  match priorityOperand (lookup (default [] source) sourcePriority),
        priorityOperand (lookup (default [] relationshipType) typePriority) with
  | inl a, inl b => Points (a + b)
  | a, b => Joined (operandString a ++ operandString b)
  end.

Definition scoreGt (a b : score) : bool :=
  match a, b with
  | Points x, Points y => (y <? x)%Z
  | Joined s, Joined t => strLt t s
  | _, _ => false
  end.

Definition scoreEq (a b : score) : bool :=
  match a, b with
  | Points x, Points y => (x =? y)%Z
  | Joined s, Joined t => strEq s t
  | _, _ => false
  end.

Definition setLanguage (connection : NormalizedConnection) (lang : jsstring)
  : NormalizedConnection :=
  {| word :=
       {| text := text (word connection);
          language := lang;
          definition := definition (word connection);
          phonetic := phonetic (word connection);
          etymologies := etymologies (word connection);
          partOfSpeech := partOfSpeech (word connection) |};
     relationship := relationship connection |}.

(** [deduplicateConnections].  A connection travels with its reference;
    [seen] maps a key to the connection it holds, [result] is the array under
    construction.  [dedupStep] is the body of the loop. *)
Abbreviation Seen := (gmap jsstring (nat * NormalizedConnection)).

Definition comparisonText (connection : NormalizedConnection) : jsstring :=
  toLowerCase (text (word connection)).

Definition comparisonLang (connection : NormalizedConnection) : jsstring :=
  if startsWith (comparisonText connection) (js "*") then js "ine-pro"
  else toLowerCase (orStr (Some (language (word connection))) (js "und")).

Definition dedupKey (connection : NormalizedConnection) : jsstring :=
  comparisonText connection ++ js "_" ++ comparisonLang connection.

Definition dedupStep (sourceWord : option Word)
  (st : Seen * list (nat * NormalizedConnection))
  (item : nat * NormalizedConnection)
  : Seen * list (nat * NormalizedConnection) :=
  let (seen, result) := st in
  if negb (truthyStr (text (word (snd item)))) then st
  else
    let connection :=
      if startsWith (comparisonText (snd item)) (js "*")
      then setLanguage (snd item) (js "ine-pro")   (* fixed in place *)
      else snd item in
    let selfReference :=
      match sourceWord with
      | Some sourceWord =>
        strEq (comparisonText (snd item)) (toLowerCase (text sourceWord))
        && strEq (comparisonLang (snd item))
                 (toLowerCase (orStr (Some (language sourceWord)) []))
      | None => false
      end in
    if selfReference then st
    else if match sourceWord with
            | Some sourceWord =>
              negb (isValidEtymologicalConnection connection sourceWord)
            | None => false
            end
    then st
    else
      let key := dedupKey (snd item) in
      match seen !! key with
      | None =>
        (<[key := (fst item, connection)]> seen,
         result ++ [(fst item, connection)])
      | Some existing =>
        let existingConfidence := confidence (relationship (snd existing)) in
        let newConfidence := confidence (relationship connection) in
        let existingPriority :=
          getPriorityScore (source (relationship (snd existing)))
                           (Some (type (relationship (snd existing)))) in
        let newPriority :=
          getPriorityScore (source (relationship connection))
                           (Some (type (relationship connection))) in
        if scoreGt newPriority existingPriority
           || (scoreEq newPriority existingPriority
               && numberGt newConfidence existingConfidence)
        then (<[key := (fst item, connection)]> seen,
              replaceRef (fst existing) (fst item, connection) result)
        else st
      end.

Definition deduplicateConnections (connections : list NormalizedConnection)
  (sourceWord : option Word) : list NormalizedConnection :=
  map snd (snd (fold_left (dedupStep sourceWord) (imap pair connections) (∅, []))).

(** The comparator of the final sort, as [sort] reads its value.  The tier
    table is read with the priority the entry point has stamped on the
    connection, one of its own three keys. *)
Definition priorityOrder (priority : option jsstring) : Z :=
  default 0%Z
    (prop (default [] priority)
       [ (js "high", 3%Z); (js "medium", 2%Z); (js "low", 1%Z) ]).

Definition byPriorityAndConfidence (a b : NormalizedConnection) : Q :=
  let aPriority := priorityOrder (priority (relationship a)) in
  let bPriority := priorityOrder (priority (relationship b)) in
  if negb (aPriority =? bPriority)%Z then inject_Z (bPriority - aPriority)
  else
    let aConfidence := orZero (confidence (relationship a)) in
    let bConfidence := orZero (confidence (relationship b)) in
    sortValue (numberSub bConfidence aConfidence).

Definition extractDefinition (wiktionaryData : option WiktionaryData)
  (dictionaryData : option DictionaryApiData) : option jsstring :=
  match wiktionaryData ≫= definitions with
  | Some (d :: _) => Some d
  | _ =>
    match dictionaryData ≫= meanings with
    | Some (m :: _) =>
      match m_definitions m with
      | Some (d :: _) => Some d
      | _ => None
      end
    | _ => None
    end
  end.

Definition extractPhonetic (wiktionaryData : option WiktionaryData)
  (dictionaryData : option DictionaryApiData) : option jsstring :=
  if truthy (dictionaryData ≫= d_phonetic) then dictionaryData ≫= d_phonetic
  else
    match wiktionaryData ≫= pronunciations with
    | Some (p :: _) => Some p
    | _ => None
    end.

Definition extractEtymologies (wiktionaryData : option WiktionaryData)
  : option (list jsstring) :=
  wiktionaryData ≫= w_etymologies.

Definition extractPartOfSpeech (wiktionaryData : option WiktionaryData)
  (dictionaryData : option DictionaryApiData) : option jsstring :=
  if truthy (wiktionaryData ≫= w_partOfSpeech)
  then wiktionaryData ≫= w_partOfSpeech
  else
    match dictionaryData ≫= meanings with
    | Some (m :: _) => Some (m_partOfSpeech m)
    | _ => Some (js "unknown")
    end.

Definition buildSourceWord (word language : jsstring)
  (wiktionaryData : option WiktionaryData)
  (dictionaryData : option DictionaryApiData) : Word :=
  {| text := word;
     language := language;
     definition := extractDefinition wiktionaryData dictionaryData;
     phonetic := extractPhonetic wiktionaryData dictionaryData;
     etymologies := extractEtymologies wiktionaryData;
     partOfSpeech := extractPartOfSpeech wiktionaryData dictionaryData |}.

(** What the collaborators answered during one call: the lookup in the
    service's cache, the three settled fetches ([None] for a rejected promise
    or a [null] value), and the lookup in the cognate service's cache. *)
Record Answers := {
  cached : option EtymologyData;
  wiktionaryResult : option WiktionaryData;
  dictionaryResult : option DictionaryApiData;
  etymonlineResult : option EtymonlineData;
  cachedCognates : option (list CognateService.Cognate)
}.





Definition setProvenance (priority source : jsstring) (confidence' : number)
  (connection : NormalizedConnection) : NormalizedConnection :=
  {| word := word connection;
     relationship :=
       {| type := type (relationship connection);
          confidence := confidence';
          notes := notes (relationship connection);
          origin := origin (relationship connection);
          sharedRoot := sharedRoot (relationship connection);
          priority := Some priority;
          source := Some source |} |}.

(** [if (confidence) confidence = Math.min(confidence + 0.1, 0.95)]: zero
    and [NaN] are falsy and stay. *)
Definition boost (confidence : number) : number :=
  if truthyNumber confidence
  then mathMin (numberAdd confidence (Num 0.1)) (Num 0.95)
  else confidence.

(** PRIORITY 1: the etymonline connections, boosted and stamped. *)
Definition etymonlineConnections (sourceWord : Word)
  (etymonlineData : option EtymonlineData)
  : completion (list NormalizedConnection) :=
  match etymonlineData ≫= e_connections with
  | None => Returned []
  | Some connections =>
    forEach (fun connection =>
      match normalizeConnection sourceWord connection with
      | Returned (Some normalizedConnection) =>
        Returned
          [ setProvenance (js "high") (js "etymonline.com")
              (boost (confidence (relationship normalizedConnection)))
              normalizedConnection ]
      | Returned None => Returned []
      | Threw e => Threw e
      end) connections
  end.

(** PRIORITY 2: the wiktionary connections. *)
Definition wiktionaryConnections (sourceWord : Word)
  (wiktionaryData : option WiktionaryData)
  : completion (list NormalizedConnection) :=
  match wiktionaryData ≫= w_connections with
  | None => Returned []
  | Some connections =>
    forEach (fun connection =>
      match normalizeConnection sourceWord connection with
      | Returned (Some normalizedConnection) =>
        Returned
          [ setProvenance (js "medium") (js "wiktionary")
              (confidence (relationship normalizedConnection))
              normalizedConnection ]
      | Returned None => Returned []
      | Threw e => Threw e
      end) connections
  end.

(** PRIORITY 3: the connections read from the dictionary's origin sentence. *)
Definition dictionaryConnections (sourceWord : Word)
  (dictionaryData : option DictionaryApiData) : list NormalizedConnection :=
  match dictionaryData ≫= d_origin with
  | None => []
  | Some origin =>
    if (0 <? length (trim origin))%nat then
      map (fun conn =>
          setProvenance (js "low") (js "dictionary-api")
            (confidence (relationship conn)) conn)
        (connectionsFromOrigin origin sourceWord)
    else []
  end.

(** The cognates that pass the filter, and the connections made of them. *)
Definition validCognates (cognates : list CognateService.Cognate)
  (normalizedWord normalizedLanguage : jsstring)
  : list CognateService.Cognate :=
  List.filter (fun cognate =>
    if Qltb (CognateService.confidence cognate) 0.85 then false
    else if negb (truthy (CognateService.semanticField cognate))
            || negb (truthy (CognateService.concept cognate)) then false
    else isValidCognateConnection normalizedWord (CognateService.word cognate)
           normalizedLanguage (CognateService.language cognate)) cognates.

Definition cognateConnection (normalizedWord : jsstring)
  (cognate : CognateService.Cognate) : NormalizedConnection :=
  {| word :=
       {| text := CognateService.word cognate;
          language := CognateService.language cognate;
          partOfSpeech := Some (js "unknown");
          definition :=
            Some (CognateService.getLanguageName (CognateService.language cognate)
                  ++ js " cognate of " ++ quoted normalizedWord);
          phonetic := None;
          etymologies := None |};
     relationship :=
       {| type := js "cognate";
          confidence := Num (CognateService.confidence cognate);
          notes := CognateService.notes cognate;
          origin :=
            if truthy (CognateService.semanticField cognate)
            then Some (default (js "undefined") (CognateService.concept cognate)
                       ++ js " ("
                       ++ default [] (CognateService.semanticField cognate)
                       ++ js ")")
            else None;
          sharedRoot := orUndefined (CognateService.concept cognate);
          priority := Some (js "medium");
          source := None |} |}.

Definition cognateLanguages : list jsstring :=
  [js "en"; js "es"; js "fr"; js "de"; js "it"; js "pt"; js "la"; js "gr";
   js "ru"; js "pl"; js "nl"; js "da"; js "sv"; js "no"].

Definition cognateConnections (cachedCognates : option (list CognateService.Cognate))
  (normalizedWord normalizedLanguage : jsstring) : list NormalizedConnection :=
  let cognates :=
    CognateService.findCognates cachedCognates normalizedWord normalizedLanguage
      cognateLanguages in
  map (cognateConnection normalizedWord)
    (validCognates cognates normalizedWord normalizedLanguage).

(** The array [connections] when all four sources have been appended; a
    throw in one of the first two loops ends the call. *)
Definition collectConnections (answers : Answers) (sourceWord : Word)
  (normalizedWord normalizedLanguage : jsstring)
  : completion (list NormalizedConnection) :=
  match etymonlineConnections sourceWord (etymonlineResult answers) with
  | Threw e => Threw e
  | Returned fromEtymonline =>
    match wiktionaryConnections sourceWord (wiktionaryResult answers) with
    | Threw e => Threw e
    | Returned fromWiktionary =>
      Returned
        (fromEtymonline ++ fromWiktionary
         ++ dictionaryConnections sourceWord (dictionaryResult answers)
         ++ cognateConnections (cachedCognates answers) normalizedWord
              normalizedLanguage)
    end
  end.

(** The array [filtered]: trivial derivatives of the query word removed. *)
Definition filterTrivial (connections : list NormalizedConnection)
  (sourceWord : Word) : list NormalizedConnection :=
  List.filter (fun connection =>
    negb (isTrivialDerivative (text sourceWord) (text (word connection))
            (language sourceWord) (language (word connection))))
    connections.

(** Filter, deduplicate, sort: the array [deduplicated] at the end. *)
Definition mergeConnections (connections : list NormalizedConnection)
  (sourceWord : Word) : list NormalizedConnection :=
  let filtered := filterTrivial connections sourceWord in
  let deduplicated := deduplicateConnections filtered (Some sourceWord) in
  arraySort byPriorityAndConfidence deduplicated.

Definition publish (conn : NormalizedConnection) : Out.Connection :=
  {| Out.word := word conn;
     Out.type := type (relationship conn);
     Out.confidence := confidence (relationship conn);
     Out.source := orStr (source (relationship conn)) (js "unknown");
     Out.notes := notes (relationship conn) |}.

Definition findEtymologicalConnections (answers : Answers)
  (word language : option jsstring) (bypassCache : bool)
  : completion EtymologyData :=
  let normalizedWord := trim (orStr word []) in
  if negb (truthyStr normalizedWord)
  then Threw (Error (js "Word parameter is required"))
  else
    let language := default (js "en") language in
    let normalizedLanguage := toLowerCase (orStr (Some language) (js "en")) in
    match (if bypassCache then None else cached answers) with
    | Some cached => Returned cached
    | None =>
      let sourceWord :=
        buildSourceWord normalizedWord normalizedLanguage
          (wiktionaryResult answers) (dictionaryResult answers) in
      match
        collectConnections answers sourceWord normalizedWord normalizedLanguage
      with
      | Threw e => Threw e
      | Returned connections =>
        let deduplicated := mergeConnections connections sourceWord in
        Returned {| sourceWord := sourceWord;
                    connections := map publish deduplicated |}
      end
    end.

End EtymologyService.

(** ** Vocabulary of the specification

    The notions the claims are stated with, each defined from the words of
    the specification or as a name for a guard of the code. *)

Module MergeSpec.
Import JS EtymologyService.

(** The loop of [deduplicateConnections] lets a candidate through when it has
    a text, is not the query word itself, and is a valid etymological
    connection once its language has been fixed. *)
Definition fixed (connection : NormalizedConnection) : NormalizedConnection :=
  if startsWith (comparisonText connection) (js "*")
  then setLanguage connection (js "ine-pro")
  else connection.

Definition isSelfReference (sourceWord : Word) (connection : NormalizedConnection)
  : bool :=
  strEq (comparisonText connection) (toLowerCase (text sourceWord))
  && strEq (comparisonLang connection)
           (toLowerCase (orStr (Some (language sourceWord)) [])).

Definition survives (sourceWord : option Word) (connection : NormalizedConnection)
  : bool :=
  truthyStr (text (word connection))
  && match sourceWord with
     | Some sourceWord =>
       negb (isSelfReference sourceWord connection)
       && isValidEtymologicalConnection (fixed connection) sourceWord
     | None => true
     end.

(** The deduplication key of the specification: the pair of the lowercased
    word text and the normalized language (lowercased, and [ine-pro] for a
    text that starts with an asterisk). *)
Definition normalizedLanguage (text language : jsstring) : jsstring :=
  if startsWith (toLowerCase text) (js "*") then js "ine-pro"
  else toLowerCase language.

Definition specKey (w : Word) : jsstring * jsstring :=
  (toLowerCase (text w), normalizedLanguage (text w) (language w)).

(** The key of the code, [text_language], as a function of this pair. *)
Definition keyOfSpecKey (k : jsstring * jsstring) : jsstring :=
  fst k ++ js "_"
  ++ (if startsWith (fst k) (js "*") then js "ine-pro"
      else if truthyStr (snd k) then snd k else js "und").

(** The confidence a candidate reports, if it reports one. *)
Definition rawConfidence (connection : option Raw.Connection) : option number :=
  (connection ≫= Raw.relationship) ≫= Raw.confidence.


(** The candidates the two loops of the entry point normalize. *)
Definition normalizedCandidates (answers : Answers)
  : list (option Raw.Connection) :=
  default [] (etymonlineResult answers ≫= e_connections)
  ++ default [] (wiktionaryResult answers ≫= w_connections).




(** The tags of a candidate are plain when neither its source nor its
    relationship type is the name of a member that the tables of
    [getPriorityScore] inherit. *)
Definition plainTags (connection : NormalizedConnection) : bool :=
  negb (arrayIncludes objectPrototypeMembers
          (default [] (source (relationship connection))))
  && negb (arrayIncludes objectPrototypeMembers (type (relationship connection))).


(** The priority tier of a connection, and the order of the final list: by
    tier first, by confidence on equal tiers, where a confidence counts as
    the comparator of the sort reads it ([confidence || 0]). *)
Definition tier (connection : NormalizedConnection) : Z :=
  priorityOrder (priority (relationship connection)).

Definition notBelow (a b : NormalizedConnection) : Prop :=
  (tier b < tier a)%Z
  \/ (tier a = tier b
      /\ numberLt (orZero (confidence (relationship a)))
                  (orZero (confidence (relationship b))) = false).

(** [beats new existing]: the test on which the loop replaces [existing]. *)
Definition beats (new existing : NormalizedConnection) : bool :=
  let score connection :=
    getPriorityScore (source (relationship connection))
      (Some (type (relationship connection))) in
  scoreGt (score new) (score existing)
  || (scoreEq (score new) (score existing)
      && numberGt (confidence (relationship new))
                  (confidence (relationship existing))).

(** The invariant of the loop of [deduplicateConnections]: [done] are the
    candidates seen so far, [st] the map [seen] and the array [result]. *)
Record Inv (sourceWord : option Word)
  (done : list (nat * NormalizedConnection))
  (st : Seen * list (nat * NormalizedConnection)) : Prop := {
  inv_keys : NoDup (map (fun v => dedupKey (snd v)) (snd st));
  inv_refs : NoDup (map fst (snd st));
  inv_seen : forall k v, fst st !! k = Some v ->
    In v (snd st) /\ dedupKey (snd v) = k;
  inv_result : forall v, In v (snd st) -> fst st !! dedupKey (snd v) = Some v;
  inv_from : forall v, In v (snd st) ->
    exists c, In (fst v, c) done /\ survives sourceWord c = true
              /\ snd v = fixed c;
  inv_best : forall r c, In (r, c) done -> survives sourceWord c = true ->
    exists v, fst st !! dedupKey c = Some v /\ beats c (snd v) = false
}.

End MergeSpec.

(** ** Vocabulary for the patterns of [normalizeEtymologyKey] *)

Module PatternSpec.
Import JS.




(** [f] holds of the [n] code units from [c] on. *)
Fixpoint allFrom (f : N -> bool) (n : nat) (c : N) : bool :=
  match n with
  | O => true
  | S n' => if f c then allFrom f n' (c + 1) else false
  end.


End PatternSpec.

(** ** Sample inputs *)

Module Examples.
Import JS EtymologyService.

(** A candidate as an extractor reports it. *)
Definition candidate (text language type : String.string) (confidence : Q)
  : option Raw.Connection :=
  Some {| Raw.word :=
            Some {| Raw.text := Some (js text);
                    Raw.language := Raw.LanguageCode (js language);
                    Raw.partOfSpeech := None;
                    Raw.definition := None |};
          Raw.relationship :=
            Some {| Raw.type := Some (js type);
                    Raw.confidence := Some (Num confidence);
                    Raw.origin := None;
                    Raw.notes := None;
                    Raw.sharedRoot := None |} |}.
Arguments candidate (text language type)%_string_scope confidence%_Q.

Definition wiktionary (l : list (option Raw.Connection)) : option WiktionaryData :=
  Some {| w_connections := Some l; definitions := None; pronunciations := None;
          w_etymologies := None; w_partOfSpeech := None |}.

Definition etymonline (l : list (option Raw.Connection)) : option EtymonlineData :=
  Some {| e_connections := Some l |}.

Definition dictionary (origin : String.string) : option DictionaryApiData :=
  Some {| d_origin := Some (js origin); d_phonetic := None; meanings := None |}.
Arguments dictionary origin%_string_scope.


(** The query "water": every source answers, and two of them report the
    reconstructed root and Latin "aqua". *)
Definition waterAnswers : Answers :=
  {| cached := None;
     wiktionaryResult :=
       wiktionary [ candidate "aqua" "la" "cognate" 0.8;
                    candidate "Water" "en" "cognate" 0.9;
                    candidate "waters" "en" "derivative" 0.9;
                    candidate "*wed-" "en" "etymology" 0.45 ];
     dictionaryResult :=
       dictionary "Old English wæter, from Proto-Germanic *watar, related to Dutch water.";
     etymonlineResult :=
       etymonline [ candidate "aqua" "la" "related" 0.7;
                    candidate "*wed-" "ine-pro" "etymology" 0.9 ];
     cachedCognates := None |}.

(** The same query when the wiktionary extractor reports a confidence above
    one. *)
Definition overconfidentAnswers : Answers :=
  {| cached := None;
     wiktionaryResult := wiktionary [ candidate "aqua" "la" "cognate" 1.5 ];
     dictionaryResult := None;
     etymonlineResult := None;
     cachedCognates := None |}.

Definition water : Word :=
  buildSourceWord (js "water") (js "en") None None.

(** The connections a loop of the entry point collected. *)
Definition collected (loop : completion (list NormalizedConnection))
  : list NormalizedConnection :=
  match loop with
  | Returned connections => connections
  | Threw _ => []
  end.

(** Two candidates that collide on the key of "aqua". *)
Definition aquaCandidates : list NormalizedConnection :=
  collected (etymonlineConnections water
               (etymonline [candidate "aqua" "la" "related" 0.7]))
  ++ collected (wiktionaryConnections water
                  (wiktionary [candidate "aqua" "la" "cognate" 0.8])).




(** A candidate with a reconstructed root that its extractor filed under
    Latin. *)
Definition protoCandidates : list NormalizedConnection :=
  collected (wiktionaryConnections water
               (wiktionary [candidate "*akwa" "la" "etymology" 0.9])).

(** A candidate whose confidence is [NaN], the answers of the sources when
    the wiktionary extractor reports it, and a candidate whose language is no
    string. *)
Definition nanCandidate : option Raw.Connection :=
  Some {| Raw.word :=
            Some {| Raw.text := Some (js "aqua");
                    Raw.language := Raw.LanguageCode (js "la");
                    Raw.partOfSpeech := None;
                    Raw.definition := None |};
          Raw.relationship :=
            Some {| Raw.type := Some (js "cognate");
                    Raw.confidence := Some NaN;
                    Raw.origin := None;
                    Raw.notes := None;
                    Raw.sharedRoot := None |} |}.

Definition nanAnswers : Answers :=
  {| cached := None;
     wiktionaryResult := wiktionary [ nanCandidate ];
     dictionaryResult := None;
     etymonlineResult := None;
     cachedCognates := None |}.



(** The data of a page that names the root [*wed-], and the cross-reference
    index after three such pages were ingested, for "wet", "otter" and
    "water". *)
Definition fromRoot (confidence : Q) : EtymonlineAPI.EtymologyData :=
  {| EtymonlineAPI.connections :=
       [ {| EtymonlineAPI.word :=
              {| EtymonlineAPI.text := js "*wed-";
                 EtymonlineAPI.language := js "ine-pro";
                 EtymonlineAPI.partOfSpeech := js "unknown";
                 EtymonlineAPI.definition := js "Proto-Indo-European root" |};
            EtymonlineAPI.relationship :=
              {| EtymonlineAPI.type := js "etymology";
                 EtymonlineAPI.confidence := confidence;
                 EtymonlineAPI.notes := js "from PIE root *wed-";
                 EtymonlineAPI.origin := Some (js "PIE *wed-");
                 EtymonlineAPI.sharedRoot := Some (js "PIE *wed-");
                 EtymonlineAPI.etymologyContext := None;
                 EtymonlineAPI.isFromCrossReference := false;
                 EtymonlineAPI.isFromShortenedDatabase := false |} |} ];
     EtymonlineAPI.crossReferences := None |}.

Definition wedIndex : EtymonlineAPI.Index :=
  EtymonlineAPI.updateEtymologyDatabase
    (EtymonlineAPI.updateEtymologyDatabase
       (EtymonlineAPI.updateEtymologyDatabase EtymonlineAPI.emptyIndex
          (js "wet") (fromRoot 0.95))
       (js "otter") (fromRoot 0.95))
    (js "water") (fromRoot 0.95).

(** The data of the page of "ad", which names "advertisement" as the word it
    was shortened from, the index after this page was ingested, and the data
    of a page without connections. *)
Definition shortenedPage : EtymonlineAPI.EtymologyData :=
  {| EtymonlineAPI.connections :=
       [ {| EtymonlineAPI.word :=
              {| EtymonlineAPI.text := js "advertisement";
                 EtymonlineAPI.language := js "en";
                 EtymonlineAPI.partOfSpeech := js "unknown";
                 EtymonlineAPI.definition := js "Full form of ad" |};
            EtymonlineAPI.relationship :=
              {| EtymonlineAPI.type := js "shortened_from";
                 EtymonlineAPI.confidence := 0.95;
                 EtymonlineAPI.notes := js "shortened from advertisement";
                 EtymonlineAPI.origin := None;
                 EtymonlineAPI.sharedRoot := None;
                 EtymonlineAPI.etymologyContext := None;
                 EtymonlineAPI.isFromCrossReference := false;
                 EtymonlineAPI.isFromShortenedDatabase := false |} |} ];
     EtymonlineAPI.crossReferences := None |}.

Definition adIndex : EtymonlineAPI.Index :=
  EtymonlineAPI.updateEtymologyDatabase EtymonlineAPI.emptyIndex
    (js "ad") shortenedPage.

Definition emptyPage : EtymonlineAPI.EtymologyData :=
  {| EtymonlineAPI.connections := [];
     EtymonlineAPI.crossReferences := None |}.

End Examples.


From Stdlib Require Import QArith.Qround.

(** ** [server/services/wiktionaryAPI.ts] *)

Module WiktionaryAPI.
Import JS.

Record LanguageReference := {
  lr_language : jsstring;
  lr_word : jsstring
}.

Record Word := {
  text : jsstring;
  language : jsstring;
  partOfSpeech : jsstring;
  definition : jsstring
}.

Record Relationship := {
  type : jsstring;
  confidence : Q;
  notes : jsstring
}.

Record Connection := {
  word : Word;
  relationship : Relationship
}.

Record EtymologyData := {
  sourceWord : Word;
  connections : list Connection
}.

(** The table of [normalizeLanguageCode]. *)
Definition languageMap : list (jsstring * jsstring) := [
  (js "de", js "de"); (js "ger", js "de"); (js "german", js "de");
  (js "fr", js "fr"); (js "fre", js "fr"); (js "french", js "fr");
  (js "es", js "es"); (js "spa", js "es"); (js "spanish", js "es");
  (js "it", js "it"); (js "ita", js "it"); (js "italian", js "it");
  (js "pt", js "pt"); (js "por", js "pt"); (js "portuguese", js "pt");
  (js "nl", js "nl"); (js "dut", js "nl"); (js "dutch", js "nl");
  (js "la", js "la"); (js "lat", js "la"); (js "latin", js "la");
  (js "grc", js "gr"); (js "greek", js "gr"); (js "el", js "gr");
  (js "en", js "en"); (js "eng", js "en"); (js "english", js "en");
  (js "ru", js "ru"); (js "rus", js "ru"); (js "russian", js "ru");
  (js "pl", js "pl"); (js "pol", js "pl"); (js "polish", js "pl");
  (js "cs", js "cs"); (js "cze", js "cs"); (js "czech", js "cs");
  (js "da", js "da"); (js "danish", js "da"); (js "sv", js "sv");
  (js "swe", js "sv"); (js "swedish", js "sv"); (js "no", js "no");
  (js "nor", js "no"); (js "norwegian", js "no"); (js "is", js "is");
  (js "isl", js "is"); (js "icelandic", js "is"); (js "fi", js "fi");
  (js "fin", js "fi"); (js "finnish", js "fi"); (js "hu", js "hu");
  (js "hun", js "hu"); (js "hungarian", js "hu"); (js "tr", js "tr");
  (js "tur", js "tr"); (js "turkish", js "tr"); (js "ar", js "ar");
  (js "ara", js "ar"); (js "arabic", js "ar"); (js "he", js "he");
  (js "heb", js "he"); (js "hebrew", js "he"); (js "hi", js "hi");
  (js "hin", js "hi"); (js "hindi", js "hi"); (js "sa", js "sa");
  (js "san", js "sa"); (js "sanskrit", js "sa"); (js "zh", js "zh");
  (js "chi", js "zh"); (js "chinese", js "zh"); (js "ja", js "ja");
  (js "jpn", js "ja"); (js "japanese", js "ja"); (js "ko", js "ko");
  (js "kor", js "ko"); (js "korean", js "ko"); (js "enm", js "enm");
  (js "ang", js "ang"); (js "fro", js "fro"); (js "frm", js "frm");
  (js "xno", js "xno"); (js "gmh", js "gmh"); (js "goh", js "goh");
  (js "osx", js "osx"); (js "odt", js "odt"); (js "dum", js "dum");
  (js "non", js "non"); (js "got", js "got"); (js "sla-pro", js "sla-pro");
  (js "ine-pro", js "ine-pro"); (js "gem-pro", js "gem-pro");
  (js "gmw-pro", js "gmw-pro"); (js "itc-pro", js "itc-pro");
  (js "cel-pro", js "cel-pro"); (js "gml", js "gml"); (js "ml", js "ml");
  (js "VL", js "la"); (js "LL", js "la"); (js "roa-opt", js "pt");
  (js "roa-oit", js "it"); (js "pro", js "pro"); (js "ca", js "ca");
  (js "cat", js "ca"); (js "ro", js "ro"); (js "rum", js "ro");
  (js "gl", js "gl"); (js "glg", js "gl"); (js "ga", js "ga");
  (js "gle", js "ga"); (js "gd", js "gd"); (js "gla", js "gd");
  (js "cy", js "cy"); (js "wel", js "cy"); (js "br", js "br");
  (js "bre", js "br"); (js "kw", js "kw"); (js "cor", js "kw");
  (js "uk", js "uk"); (js "ukr", js "uk"); (js "be", js "be");
  (js "bel", js "be"); (js "bg", js "bg"); (js "bul", js "bg");
  (js "mk", js "mk"); (js "mac", js "mk"); (js "sr", js "sr");
  (js "srp", js "sr"); (js "hr", js "hr"); (js "hrv", js "hr");
  (js "bs", js "bs"); (js "bos", js "bs"); (js "sk", js "sk");
  (js "slo", js "sk"); (js "sl", js "sl"); (js "slv", js "sl");
  (js "eu", js "eu"); (js "baq", js "eu"); (js "mt", js "mt");
  (js "mlt", js "mt"); (js "sq", js "sq"); (js "alb", js "sq");
  (js "lv", js "lv"); (js "lav", js "lv"); (js "lt", js "lt");
  (js "lit", js "lt"); (js "et", js "et"); (js "est", js "et")
].

Definition normalizeLanguageCode (code : jsstring) : jsstring :=
  let normalized := trim (toLowerCase code) in
  orStr (prop normalized languageMap) normalized.

(** The table of [getLanguageName]. *)
Definition names : list (jsstring * jsstring) := [
  (js "en", js "English"); (js "es", js "Spanish"); (js "fr", js "French");
  (js "de", js "German"); (js "it", js "Italian");
  (js "pt", js "Portuguese"); (js "nl", js "Dutch"); (js "la", js "Latin");
  (js "gr", js "Greek"); (js "el", js "Greek");
  (js "grc", js "Ancient Greek"); (js "ru", js "Russian");
  (js "pl", js "Polish"); (js "cs", js "Czech"); (js "da", js "Danish");
  (js "sv", js "Swedish"); (js "no", js "Norwegian");
  (js "is", js "Icelandic"); (js "fi", js "Finnish");
  (js "hu", js "Hungarian"); (js "tr", js "Turkish"); (js "ar", js "Arabic");
  (js "he", js "Hebrew"); (js "hi", js "Hindi"); (js "sa", js "Sanskrit");
  (js "zh", js "Chinese"); (js "ja", js "Japanese"); (js "ko", js "Korean");
  (js "enm", js "Middle English"); (js "ang", js "Old English");
  (js "fro", js "Old French"); (js "frm", js "Middle French");
  (js "xno", js "Anglo-Norman"); (js "gmh", js "Middle High German");
  (js "goh", js "Old High German"); (js "osx", js "Old Saxon");
  (js "odt", js "Old Dutch"); (js "dum", js "Middle Dutch");
  (js "non", js "Old Norse"); (js "got", js "Gothic");
  (js "ml", js "Medieval Latin"); (js "ML", js "Medieval Latin");
  (js "ml.", js "Medieval Latin"); (js "ML.", js "Medieval Latin");
  (js "VL", js "Vulgar Latin"); (js "LL", js "Late Latin");
  (js "ine-pro", js "Proto-Indo-European");
  (js "gem-pro", js "Proto-Germanic");
  (js "gmw-pro", js "Proto-West-Germanic");
  (js "itc-pro", js "Proto-Italic"); (js "cel-pro", js "Proto-Celtic");
  (js "sla-pro", js "Proto-Slavic"); (js "roa-opt", js "Old Portuguese");
  (js "roa-oit", js "Old Italian"); (js "pro", js "Old Occitan");
  (js "ca", js "Catalan"); (js "ro", js "Romanian");
  (js "gl", js "Galician"); (js "ga", js "Irish");
  (js "gd", js "Scottish Gaelic"); (js "cy", js "Welsh");
  (js "br", js "Breton"); (js "kw", js "Cornish"); (js "uk", js "Ukrainian");
  (js "be", js "Belarusian"); (js "bg", js "Bulgarian");
  (js "mk", js "Macedonian"); (js "sr", js "Serbian");
  (js "hr", js "Croatian"); (js "bs", js "Bosnian"); (js "sk", js "Slovak");
  (js "sl", js "Slovenian"); (js "eu", js "Basque"); (js "mt", js "Maltese");
  (js "sq", js "Albanian"); (js "lv", js "Latvian");
  (js "lt", js "Lithuanian"); (js "et", js "Estonian");
  (js "gml", js "Middle Low German"); (js "unknown", js "Unknown")
].

(** [/\.$/] *)
Definition finalDot : regex := Seq (lit (js ".")) Eol.

Definition getLanguageName (code : jsstring) : jsstring :=
  let normalized := replace finalDot [] (toLowerCase code) in
  orStr (orElse (prop normalized names) (prop code names))
    match code with
    | first :: rest => upperUnit first :: rest
    | [] => js "Unknown"
    end.

(** [s.split(sep)[0]] for a separator of one code unit. *)
Fixpoint firstSegment (sep : N) (s : jsstring) : jsstring :=
  match s with
  | [] => []
  | c :: s' => if c =? sep then [] else c :: firstSegment sep s'
  end.

(** Character classes: [.] (no line terminator), [.] under the [s] flag, and
    the negated classes of the patterns. *)
Definition notLineTerminator (c : N) : bool :=
  negb ((c =? 10) || (c =? 13) || (c =? 8232) || (c =? 8233)).
Definition anyUnit (c : N) : bool := true.
Definition notBarBrace (c : N) : bool := negb ((c =? 124) || (c =? 125)).
Definition barOrBrace (c : N) : bool := (c =? 124) || (c =? 125).
Definition notCloseBracket (c : N) : bool := negb (c =? 93).
Definition notCloseBrace (c : N) : bool := negb (c =? 125).
Definition notColonBracket (c : N) : bool := negb ((c =? 58) || (c =? 93)).

Definition newline : jsstring := [10].

(** [\{\{name\|([^|}]+)\|([^|}]+)[\|}]] *)
Definition template2 (name : jsstring) : regex :=
  seqs [lit (js "{{" ++ name ++ js "|");
        Group 1 (plus true (Chr notBarBrace)); lit (js "|");
        Group 2 (plus true (Chr notBarBrace)); Chr barOrBrace].

(** [\{\{name\|[^|}]+\|([^|}]+)\|([^|}]+)[\|}]] *)
Definition template3 (name : jsstring) : regex :=
  seqs [lit (js "{{" ++ name ++ js "|");
        plus true (Chr notBarBrace); lit (js "|");
        Group 1 (plus true (Chr notBarBrace)); lit (js "|");
        Group 2 (plus true (Chr notBarBrace)); Chr barOrBrace].

Definition languagePatterns : list regex := [
  template2 (js "cog");
  template2 (js "cognate");
  template3 (js "der");
  template3 (js "inh");
  template3 (js "bor");
  template3 (js "cal");
  template3 (js "lbor");
  template2 (js "m");
  template2 (js "mention");
  template2 (js "l");
  template2 (js "link");
  template2 (js "term");
  template2 (js "t");
  template2 (js "t+");
  (* /\{\{etyl\|([^|}]+)\|[^|}]*\|([^|}]+)[\|}]/g *)
  seqs [lit (js "{{etyl|");
        Group 1 (plus true (Chr notBarBrace)); lit (js "|");
        Star true (Chr notBarBrace); lit (js "|");
        Group 2 (plus true (Chr notBarBrace)); Chr barOrBrace];
  (* /\{\{etyl\|([^|}]+)\}\}\s*\[\[([^\]]+)\]\]/g *)
  seqs [lit (js "{{etyl|");
        Group 1 (plus true (Chr notBarBrace)); lit (js "}}");
        Star true (Chr isWhiteSpace); lit (js "[[");
        Group 2 (plus true (Chr notCloseBracket)); lit (js "]]")];
  template3 (js "af");
  template3 (js "prefix");
  template3 (js "suffix");
  template3 (js "compound")
].

(** [/\|.*$/], [/\[\[([^\]]+)\]\]/g], [/\{\{[^}]+\}\}/g] *)
Definition pipeTail : regex :=
  seqs [lit (js "|"); Star true (Chr notLineTerminator); Eol].
Definition linkPattern : regex :=
  seqs [lit (js "[["); Group 1 (plus true (Chr notCloseBracket)); lit (js "]]")].
Definition templatePattern : regex :=
  seqs [lit (js "{{"); plus true (Chr notCloseBrace); lit (js "}}")].

(** [/\[\[([^:\]]+):([^\]]+)\]\]/g] *)
Definition wikiLinkPattern : regex :=
  seqs [lit (js "[["); Group 1 (plus true (Chr notColonBracket)); lit (js ":");
        Group 2 (plus true (Chr notCloseBracket)); lit (js "]]")].

Definition parseLanguageReferences (text : jsstring) : list LanguageReference :=
  flat_map (fun pattern =>
    flat_map (fun m =>
      let language := normalizeLanguageCode (default [] (group 1 (groups m))) in
      let word :=
        trim (replaceAll templatePattern []
                (replaceAll linkPattern [TGroup 1]
                   (replace pipeTail [] (default [] (group 2 (groups m)))))) in
      if truthyStr language && truthyStr word && (1 <? length word)%nat
         && negb (includes word (js "{{")) && negb (includes word (js "}}"))
      then [ {| lr_language := language; lr_word := word |} ]
      else [])
      (execAll pattern text)) languagePatterns
  ++ flat_map (fun m =>
       let language := normalizeLanguageCode (default [] (group 1 (groups m))) in
       let word := trim (firstSegment 124 (default [] (group 2 (groups m)))) in
       if truthyStr language && truthyStr word && (1 <? length word)%nat
       then [ {| lr_language := language; lr_word := word |} ]
       else [])
       (execAll wikiLinkPattern text).

(** [/cognate with (.+?)(?:\.|,|\n|$)/gi] and its five siblings. *)
Definition upTo (opening : jsstring) : regex :=
  seqs [litI opening; Group 1 (plus false (Chr notLineTerminator));
        alts [lit (js "."); lit (js ","); lit newline; Eol]].

Definition cognatePatterns : list regex := [
  upTo (js "cognate with ");
  upTo (js "compare ");
  upTo (js "related to ");
  upTo (js "from ");
  upTo (js "borrowed from ");
  upTo (js "inherited from ")
].

(** The body of the innermost [forEach] of [extractCognates]. *)
Definition addExtraCognate (sourceLanguage : jsstring) (currentMatch : rmatch)
  (connections : list Connection) (cognate : LanguageReference)
  : list Connection :=
  if negb (strEq (lr_language cognate) sourceLanguage) then
    let exists_ :=
      existsb (fun conn =>
          strEq (text (word conn)) (lr_word cognate)
          && strEq (language (word conn)) (lr_language cognate)) connections in
    if negb exists_ then
      connections ++
      [ {| word :=
             {| text := lr_word cognate;
                language := lr_language cognate;
                partOfSpeech := js "unknown";
                definition :=
                  getLanguageName (lr_language cognate)
                  ++ js " cognate through "
                  ++ firstSegment 32 (matched currentMatch) |};
           relationship :=
             {| type := js "cognate";
                confidence := 0.85;
                notes := js "Cognate relationship: "
                         ++ firstSegment 32 (matched currentMatch) |} |} ]
    else connections
  else connections.

Definition extractCognates (etymologyText sourceLanguage : jsstring)
  : list Connection :=
  let languageRefs := parseLanguageReferences etymologyText in
  let connections :=
    flat_map (fun ref =>
      if negb (strEq (lr_language ref) sourceLanguage)
         && (1 <? length (lr_word ref))%nat
      then
        [ {| word :=
               {| text := lr_word ref;
                  language := lr_language ref;
                  partOfSpeech := js "unknown";
                  definition :=
                    getLanguageName (lr_language ref)
                    ++ js " etymological connection" |};
             relationship :=
               {| type := js "cognate";
                  confidence := 0.80;
                  notes := js "Etymological connection from Wiktionary" |} |} ]
      else []) languageRefs in
  fold_left (fun connections pattern =>
    fold_left (fun connections currentMatch =>
      let cognateText := default [] (group 1 (groups currentMatch)) in
      fold_left (addExtraCognate sourceLanguage currentMatch)
        (parseLanguageReferences cognateText) connections)
      (execAll pattern etymologyText) connections)
    cognatePatterns connections.

(** The end of a section: the lookahead [(?=\n===|\n==|\n\[\[Category|\n$)]
    that closes the section patterns.  Only [match[1]] of these patterns is
    read, and the group in front of a closing lookahead captures the same
    text as the group in front of the lookahead's body, so the body stands
    here as the tail of the pattern. *)
Definition sectionEnd : regex :=
  alts [lit (newline ++ js "==="); lit (newline ++ js "==");
        lit (newline ++ js "[[Category"); Seq (lit newline) Eol].

(** [/===Derived terms===\n(.*?)(?=...)/s] *)
Definition derivedPattern : regex :=
  seqs [lit (js "===Derived terms===" ++ newline);
        Group 1 (Star false (Chr anyUnit)); sectionEnd].

(** [/\[\[|\]\]/g] *)
Definition brackets : regex := Alt (lit (js "[[")) (lit (js "]]")).

(** The terms of the section "Derived terms":
    [term.replace(/\[\[|\]\]/g, '').split('|')[0]] for every link. *)
Definition derivedTerms (wikitext : jsstring) : list jsstring :=
  match exec derivedPattern wikitext with
  | Some derivedMatch =>
    map (fun term => firstSegment 124 (replaceAll brackets [] (matched term)))
      (execAll linkPattern (default [] (group 1 (groups derivedMatch))))
  | None => []
  end.

Definition extractDerivatives (wikitext sourceWord language : jsstring)
  : list Connection :=
  flat_map (fun cleanTerm =>
    if includes cleanTerm (toLowerCase sourceWord)
       || includes (toLowerCase sourceWord) cleanTerm
    then
      [ {| word :=
             {| text := cleanTerm;
                language := language;
                partOfSpeech := js "unknown";
                definition :=
                  getLanguageName language ++ js " word derived from "
                  ++ quoted sourceWord |};
           relationship :=
             {| type := js "derivative";
                confidence := 0.90;
                notes := js "Derivative of " ++ sourceWord |} |} ]
    else []) (derivedTerms wikitext).

Definition extractCompounds (wikitext sourceWord language : jsstring)
  : list Connection :=
  flat_map (fun cleanTerm =>
    if includes cleanTerm (toLowerCase sourceWord)
       && (length sourceWord + 2 <? length cleanTerm)%nat
    then
      [ {| word :=
             {| text := cleanTerm;
                language := language;
                partOfSpeech := js "unknown";
                definition :=
                  getLanguageName language ++ js " compound word containing "
                  ++ quoted sourceWord |};
           relationship :=
             {| type := js "compound";
                confidence := 0.85;
                notes := js "Compound word: " ++ cleanTerm |} |} ]
    else []) (derivedTerms wikitext).

(** [/===Etymology===\s*\n(.*?)(?=...)/s] and the same with two and with four
    equals signs. *)
Definition etymologySection (heading : jsstring) : regex :=
  seqs [lit heading; Star true (Chr isWhiteSpace); lit newline;
        Group 1 (Star false (Chr anyUnit)); sectionEnd].

Definition etymologyPatterns : list regex := [
  etymologySection (js "===Etymology===");
  etymologySection (js "==Etymology==");
  etymologySection (js "====Etymology====")
].

Fixpoint firstSection (patterns : list regex) (wikitext : jsstring) : jsstring :=
  match patterns with
  | [] => []
  | pattern :: patterns' =>
    match exec pattern wikitext with
    | Some m => default [] (group 1 (groups m))
    | None => firstSection patterns' wikitext
    end
  end.

(** [/# (.+?)(?:\n|$)/] and [/===(.+?)===\n.*?# /s] *)
Definition definitionPattern : regex :=
  seqs [lit (js "# "); Group 1 (plus false (Chr notLineTerminator));
        Alt (lit newline) Eol].
Definition posPattern : regex :=
  seqs [lit (js "==="); Group 1 (plus false (Chr anyUnit));
        lit (js "===" ++ newline); Star false (Chr anyUnit); lit (js "# ")].

(** [parseEtymology].  The statements of its [try] block work on strings
    only and none of them throws, so the block runs to its end. *)
Definition parseEtymology (wikitext word language : jsstring) : EtymologyData :=
  if negb (truthyStr wikitext) || (length wikitext <? 10)%nat then
    {| sourceWord :=
         {| text := word; language := language;
            partOfSpeech := js "unknown";
            definition := js "Definition not available" |};
       connections := [] |}
  else
    let etymologyText := firstSection etymologyPatterns wikitext in
    let etymologyText :=
      if negb (truthyStr etymologyText) then wikitext else etymologyText in
    let definition :=
      match exec definitionPattern wikitext with
      | Some definitionMatch =>
        replaceAll linkPattern [TGroup 1]
          (default [] (group 1 (groups definitionMatch)))
      | None => js "Definition not available"
      end in
    let partOfSpeech :=
      match exec posPattern wikitext with
      | Some posMatch =>
        if negb (strEq (default [] (group 1 (groups posMatch))) (js "Etymology"))
        then toLowerCase (default [] (group 1 (groups posMatch)))
        else js "unknown"
      | None => js "unknown"
      end in
    {| sourceWord :=
         {| text := word; language := language;
            partOfSpeech := partOfSpeech; definition := definition |};
       connections :=
         extractCognates etymologyText language
         ++ extractDerivatives wikitext word language
         ++ extractCompounds wikitext word language |}.

(** [fetchWiktionaryData] behind its collaborators: [cached] is what the
    cache lookup returned, [response] the wikitext of an [ok] answer without
    [error] ([None] when the fetch failed or the page has no wikitext). *)
Definition fetchWiktionaryData (cached : option EtymologyData)
  (response : option jsstring) (word language : jsstring)
  : option EtymologyData :=
  match cached with
  | Some data => Some data
  | None =>
    match response with
    | Some wikitext =>
      if truthyStr wikitext then Some (parseEtymology wikitext word language)
      else None
    | None => None
    end
  end.

End WiktionaryAPI.

(** ** Vocabulary for the further properties *)

Module ResultSpec.
Import JS EtymologyService.

(** The tier a connection of the result has by its source tag: the sort key
    that [findEtymologicalConnections] attaches to the source, read back from
    the published [source]. *)
Definition sourceTier (source : jsstring) : Z :=
  if strEq source (js "etymonline.com") then 3
  else if strEq source (js "dictionary-api") then 1
  else 2.

(** Where a collected connection comes from: the priority and the source tag
    that the four blocks of [findEtymologicalConnections] attach. *)
Definition provenance (connection : NormalizedConnection)
  : option jsstring * option jsstring :=
  (priority (relationship connection), source (relationship connection)).

Definition provenances : list (option jsstring * option jsstring) :=
  [ (Some (js "high"), Some (js "etymonline.com"));
    (Some (js "medium"), Some (js "wiktionary"));
    (Some (js "low"), Some (js "dictionary-api"));
    (Some (js "medium"), None) ].

End ResultSpec.

Module TextSpec.
Import JS.

(** [headOk s]: [s] does not start with white space. *)
Definition headOk (s : jsstring) : Prop :=
  match s with
  | [] => True
  | c :: _ => isWhiteSpace c = false
  end.

End TextSpec.

Module CognateSpec.
Import JS CognateService.

(** The invariant of the loop of [deduplicateCognates]: [done] are the
    cognates seen so far, [st] the map [seen] and the array [unique]. *)
Record Inv (done : list (nat * Cognate))
  (st : gmap jsstring (nat * Cognate) * list (nat * Cognate)) : Prop := {
  inv_keys : NoDup (map (fun v => dedupKey (snd v)) (snd st));
  inv_refs : NoDup (map fst (snd st));
  inv_seen : forall k v, fst st !! k = Some v ->
    In v (snd st) /\ dedupKey (snd v) = k;
  inv_unique : forall v, In v (snd st) -> fst st !! dedupKey (snd v) = Some v;
  inv_from : forall v, In v (snd st) -> In v done;
  inv_best : forall v, In v done ->
    exists u, fst st !! dedupKey (snd v) = Some u
              /\ (confidence (snd v) <= confidence (snd u))%Q
}.

End CognateSpec.

Module WiktionarySpec.
Import JS WiktionaryAPI.

(** The shape of a cognate connection. *)
Definition cognateShape (sourceLanguage : jsstring) (c : Connection) : Prop :=
  partOfSpeech (word c) = js "unknown"
  /\ type (relationship c) = js "cognate"
  /\ (confidence (relationship c) = 0.80%Q
      \/ confidence (relationship c) = 0.85%Q)
  /\ language (word c) <> sourceLanguage
  /\ (1 < length (text (word c)))%nat
  /\ trim (text (word c)) = text (word c).

(** A connection that the phrase patterns add repeats no earlier one. *)
Definition fresh (connections : list Connection) : Prop :=
  forall pre c post, connections = pre ++ c :: post ->
    confidence (relationship c) = 0.85%Q ->
    forall d, In d pre ->
      ~ (text (word d) = text (word c) /\ language (word d) = language (word c)).

End WiktionarySpec.

Module MoreExamples.
Import JS.

(** A cognate as the sound-change rules or the concept table report it. *)
Definition cognate (word language : String.string) (confidence : Q)
  : CognateService.Cognate :=
  {| CognateService.word := js word;
     CognateService.language := js language;
     CognateService.confidence := confidence;
     CognateService.relationship := js "cognate";
     CognateService.semanticField := None;
     CognateService.concept := None;
     CognateService.soundChange := None;
     CognateService.notes := None |}.
Arguments cognate (word language)%_string_scope confidence%_Q.

End MoreExamples.

(** ** [server/services/etymonlineAPI.ts]: the queries on the index *)

Module EtymonlineIndex.
Import JS EtymonlineAPI.

(** An element of the array [findEtymologicalCognates] returns. *)
Record CognateGroup := {
  cg_sharedRoot : jsstring;
  etymologyKey : jsstring;
  cognates : list WordEntry;
  sourceConnection : EtymonlineRelationship
}.

(** [findEtymologicalCognates]: [wordData] is what [fetchEtymologyData(word)]
    resolved to and [st] the index it left; [minConfidence] is [None] when
    the caller leaves it out. *)
Definition findEtymologicalCognates (st : Index)
  (wordData : option EtymologyData) (word : jsstring)
  (minConfidence : option Q) : list CognateGroup :=
  let minConfidence := default 0.7%Q minConfidence in
  match wordData with
  | None => []
  | Some wordData =>
    flat_map (fun connection =>
      let relationship := relationship connection in
      if negb (truthy (sharedRoot relationship))
         || Qltb (confidence relationship) minConfidence then []
      else
        let root := default [] (sharedRoot relationship) in
        let etymologyKey := normalizeEtymologyKey root in
        match etymologyDatabase st !! etymologyKey with
        | Some relatedWords =>
          if (1 <? length relatedWords)%nat then
            let cognates :=
              arraySort (fun a b => we_confidence b - we_confidence a)%Q
                (List.filter (fun entry =>
                     negb (strEq (we_word entry) word)
                     && Qle_bool minConfidence (we_confidence entry))
                   relatedWords) in
            if (0 <? length cognates)%nat then
              [ {| cg_sharedRoot := root;
                   etymologyKey := etymologyKey;
                   cognates := cognates;
                   sourceConnection := relationship |} ]
            else []
          else []
        | None => []
        end) (connections wordData)
  end.

Record Stats := {
  totalEtymologicalOrigins : nat;
  totalProcessedWords : nat;
  cognateGroups : nat;
  averageWordsPerOrigin : Q
}.

Definition getEtymologyDatabaseStats (st : Index) : Stats :=
  let totalEtymologies := size (etymologyDatabase st) in
  let totalWords := size (processedWords st) in
  {| totalEtymologicalOrigins := totalEtymologies;
     totalProcessedWords := totalWords;
     cognateGroups :=
       length (List.filter (fun entry : jsstring * list WordEntry =>
                   (1 <? length (snd entry))%nat)
                 (map_to_list (etymologyDatabase st)));
     averageWordsPerOrigin :=
       (inject_Z (Z.of_nat totalWords)
        / inject_Z (Z.of_nat (Nat.max 1 totalEtymologies)))%Q |}.

(** [clearAllCaches], on the fields of the instance. *)
Definition clearAllCaches (st : Index) : Index :=
  {| etymologyDatabase := ∅;
     processedWords := ∅;
     shortenedFormsDatabase :=
       match shortenedFormsDatabase st with
       | Some _ => Some ∅
       | None => None
       end |}.

End EtymonlineIndex.

Module IndexSpec.
Import JS EtymonlineAPI.

(** [listed m key present]: the map holds a list under [key] with an element
    that passes [present]. *)
Definition listed {A : Type} (m : gmap jsstring (list A)) (key : jsstring)
  (present : A -> bool) : Prop :=
  exists l, m !! key = Some l /\ existsb present l = true.

(** The root under which [updateEtymologyDatabase] files a connection. *)
Definition rootOf (connection : EtymologyConnection) : jsstring :=
  orStr (orElse (sharedRoot (relationship connection))
                (origin (relationship connection)))
        (text (word connection)).

(** [indexed sourceWord st connection]: the index holds what one round of
    the loop of [updateEtymologyDatabase] records for [connection]. *)
Definition indexed (sourceWord : jsstring) (st : Index)
  (connection : EtymologyConnection) : Prop :=
  (type (relationship connection) = js "shortened_from" ->
   listed (default ∅ (shortenedFormsDatabase st))
     (toLowerCase (text (word connection)))
     (fun form => strEq (sf_word form) sourceWord))
  /\ (text (word connection) <> [] ->
      listed (etymologyDatabase st) (normalizeEtymologyKey (rootOf connection))
        (fun entry => strEq (we_word entry) sourceWord)).

(** No two entries under one key of the index are for the same word. *)
Definition distinctWords (st : Index) : Prop :=
  forall key entries, etymologyDatabase st !! key = Some entries ->
    NoDup (map we_word entries).

End IndexSpec.

(** ** [server/index.ts]: the selection of the connections to show *)

Module Server.
Import JS EtymologyService.

(** The two filters of [selectConnectionsWithRandomization]. *)
Definition isPieRoot (conn : Out.Connection) : bool :=
  startsWith (text (Out.word conn)) (js "*")
  || strEq (language (Out.word conn)) (js "ine-pro")
  || includes (language (Out.word conn)) (js "pro").

Definition isNotPieRoot (conn : Out.Connection) : bool :=
  negb (startsWith (text (Out.word conn)) (js "*"))
  && negb (strEq (language (Out.word conn)) (js "ine-pro"))
  && negb (includes (language (Out.word conn)) (js "pro")).

(** [[a[i], a[j]] = [a[j], a[i]]] for two indices of the array (the indices
    the shuffle computes from numbers of [0, 1) are indices of the array). *)
Definition swap {A : Type} (a : list A) (i j : nat) : list A :=
  match a !! i, a !! j with
  | Some x, Some y => <[j := x]> (<[i := y]> a)
  | _, _ => a
  end.

(** [a.slice(0, end)]: a negative [end] counts from the end of the array. *)
Definition slice0 {A : Type} (e : Z) (a : list A) : list A :=
  if (e <? 0)%Z then take (Z.to_nat (Z.of_nat (length a) + e)) a
  else take (Z.to_nat e) a.

Section Random.
(** [random k] is the number the call of [Math.random()] returns before
    which [k] calls were made. *)
Variable random : nat -> Q.

(** The loop [for (let i = a.length - 1; i > 0; i--)] of the shuffle, with
    [j = Math.floor(Math.random() * (i + 1))]; the result carries the number
    of calls of [Math.random()] made so far. *)
Fixpoint shuffleFrom {A : Type} (i k : nat) (a : list A) : nat * list A :=
  match i with
  | O => (k, a)
  | S i' =>
    let j := Z.to_nat (Qfloor (random k * inject_Z (Z.of_nat (i + 1)))) in
    shuffleFrom i' (S k) (swap a i j)
  end.

Definition shuffle {A : Type} (k : nat) (a : list A) : nat * list A :=
  shuffleFrom (length a - 1) k a.

Definition selectConnectionsWithRandomization
  (connections : list Out.Connection) (maxCount : Z)
  (prioritizePieRoots : bool) (k : nat) : list Out.Connection :=
  if (Z.of_nat (length connections) <=? maxCount)%Z then connections
  else
    let pieRoots :=
      if prioritizePieRoots then List.filter isPieRoot connections else [] in
    let nonPieConnections :=
      if prioritizePieRoots then List.filter isNotPieRoot connections
      else connections in
    let pie : nat * list Out.Connection :=
      if prioritizePieRoots && (0 <? length pieRoots)%nat then
        let maxPieConnections := 3%Z in
        let pieToInclude :=
          Z.min (Z.min (Z.of_nat (length pieRoots)) maxPieConnections) maxCount in
        if (Z.of_nat (length pieRoots) <=? pieToInclude)%Z then (k, pieRoots)
        else
          let shuffledPieRoots := shuffle k pieRoots in
          (fst shuffledPieRoots, slice0 pieToInclude (snd shuffledPieRoots))
      else (k, []) in
    let selected := snd pie in
    let remainingSlots := (maxCount - Z.of_nat (length selected))%Z in
    if (0 <? remainingSlots)%Z && (0 <? length nonPieConnections)%nat then
      let shuffled := snd (shuffle (fst pie) nonPieConnections) in
      selected ++ slice0 remainingSlots shuffled
    else selected.

End Random.

End Server.

Module ServerExamples.
Import JS EtymologyService Examples.

(** What the service returns for "water" when every source answers. *)
Definition waterConnections : list Out.Connection :=
  match findEtymologicalConnections waterAnswers (Some (js "water")) None false with
  | Returned data => connections data
  | Threw _ => []
  end.

(** A source of numbers of [0, 1). *)
Definition halves (k : nat) : Q := if Nat.even k then 0 else 1 # 2.

End ServerExamples.

Module WiktionaryExamples.
Import JS.

(** A page of wikitext with an etymology section and derived terms. *)
Definition waterPage : jsstring :=
  js "==English==" ++ WiktionaryAPI.newline
  ++ js "===Etymology===" ++ WiktionaryAPI.newline
  ++ js "From {{inh|en|ang|wæter}}, from {{der|en|gem-pro|*watōr}}. "
  ++ js "Cognate with {{cog|de|Wasser}}, {{cog|nl|water}}."
  ++ WiktionaryAPI.newline
  ++ js "===Noun===" ++ WiktionaryAPI.newline
  ++ js "# A [[liquid]] substance." ++ WiktionaryAPI.newline
  ++ js "===Derived terms===" ++ WiktionaryAPI.newline
  ++ js "* [[waterfall]]" ++ WiktionaryAPI.newline
  ++ js "* [[underwater|under water]]" ++ WiktionaryAPI.newline
  ++ js "* [[fire]]" ++ WiktionaryAPI.newline
  ++ js "===See also===" ++ WiktionaryAPI.newline.

(** An etymology in which a phrase pattern finds a template that the scan of
    the whole text does not: the unclosed [{{m|de|] swallows the phrase. *)
Definition nestedEtymology : jsstring :=
  js "{{cog|nl|water}} {{m|de|borrowed from {{m|fr|eau}}".

End WiktionaryExamples.

(** ** Facts about the built-ins *)

Module JSFacts.
Import JS.

Lemma Qltb_lt (a b : Q) : Qltb a b = true <-> (a < b)%Q.
Proof.
  unfold Qltb. rewrite negb_true_iff. split.
  - intros H. apply Qnot_le_lt. intros Hle. apply Qle_bool_iff in Hle. congruence.
  - intros H. destruct (Qle_bool b a) eqn:E; [|reflexivity].
    apply Qle_bool_iff in E. exfalso. apply (Qlt_not_le _ _ H E).
Qed.

Lemma Qltb_ge (a b : Q) : Qltb a b = false <-> (b <= a)%Q.
Proof.
  unfold Qltb. rewrite negb_false_iff. apply Qle_bool_iff.
Qed.

Lemma Qle_bool_false (a b : Q) : Qle_bool a b = false -> (b < a)%Q.
Proof.
  intros H. apply Qnot_le_lt. intros Hle. apply Qle_bool_iff in Hle. congruence.
Qed.

Section SortFacts.
Context {A : Type} (comparefn : A -> A -> Q).

Lemma insertSorted_perm (x : A) (l : list A) :
  Permutation (insertSorted comparefn x l) (x :: l).
Proof.
  induction l as [|y l IH]; simpl; [reflexivity|].
  destruct (Qle_bool (comparefn x y) 0); [reflexivity|].
  rewrite IH. apply perm_swap.
Qed.

Lemma arraySort_perm (l : list A) : Permutation (arraySort comparefn l) l.
Proof.
  induction l as [|x l IH]; simpl; [reflexivity|].
  unfold arraySort in *. simpl. rewrite insertSorted_perm. by constructor.
Qed.

Lemma arraySort_In (l : list A) (x : A) : In x (arraySort comparefn l) <-> In x l.
Proof.
  split; apply Permutation_in; [|symmetry]; apply arraySort_perm.
Qed.

(** The comparator is consistent: total, and transitive. *)
Hypothesis total : forall a b, (comparefn a b <= 0)%Q \/ (comparefn b a <= 0)%Q.
Hypothesis trans : forall a b c,
  (comparefn a b <= 0)%Q -> (comparefn b c <= 0)%Q -> (comparefn a c <= 0)%Q.

Lemma insertSorted_sorted (x : A) (l : list A) :
  StronglySorted (fun a b => (comparefn a b <= 0)%Q) l ->
  StronglySorted (fun a b => (comparefn a b <= 0)%Q) (insertSorted comparefn x l).
Proof.
  induction 1 as [|y l Hs IH Hy]; simpl.
  - repeat constructor.
  - destruct (Qle_bool (comparefn x y) 0) eqn:E.
    + apply Qle_bool_iff in E. constructor; [by constructor|].
      constructor; [exact E|].
      eapply Forall_impl; [exact Hy|]. intros z Hz. simpl in Hz. eauto.
    + constructor; [exact IH|].
      rewrite Forall_forall. intros z Hz.
      rewrite insertSorted_perm in Hz.
      apply elem_of_cons in Hz as [->|Hz].
      * apply Qle_bool_false in E. destruct (total y x) as [H|H]; [exact H|].
        exfalso. apply (Qlt_not_le _ _ E H).
      * rewrite Forall_forall in Hy. by apply Hy.
Qed.

Lemma arraySort_sorted (l : list A) :
  StronglySorted (fun a b => (comparefn a b <= 0)%Q) (arraySort comparefn l).
Proof.
  induction l as [|x l IH]; [constructor|].
  unfold arraySort in *. simpl. by apply insertSorted_sorted.
Qed.

End SortFacts.

(** Stability: elements that the comparator ties keep their order. *)
Lemma arraySort_stable {A : Type} (comparefn : A -> A -> Q) (P : A -> bool) (l : list A) :
  (forall a b, P a = true -> P b = true -> (comparefn a b <= 0)%Q) ->
  List.filter P (arraySort comparefn l) = List.filter P l.
Proof.
  intros HP.
  assert (Hins : forall x l', List.filter P (insertSorted comparefn x l') = List.filter P (x :: l')).
  { intros x l'. induction l' as [|y l' IH]; [reflexivity|].
    simpl. destruct (Qle_bool (comparefn x y) 0) eqn:E; [reflexivity|].
    simpl. rewrite IH. simpl.
    destruct (P x) eqn:Px; [|reflexivity].
    destruct (P y) eqn:Py; [|reflexivity].
    apply Qle_bool_false in E. exfalso.
    apply (Qlt_not_le _ _ E). by apply HP. }
  induction l as [|x l IH]; [reflexivity|].
  unfold arraySort in *. simpl. rewrite Hins. simpl. by rewrite IH.
Qed.

End JSFacts.

(** ** Facts about the matcher *)

Module RegexFacts.
Import JS PatternSpec.




(** A matcher state at the end of a run never has more input left than it
    started with: a continuation that fails on every shorter input makes the
    whole match fail.  [Q] is any property of the rest of the input that
    holds of every suffix. *)
Section Fail.
Variable Q : jsstring -> Prop.
Hypothesis Q_tail : forall c s, Q (c :: s) -> Q s.



End Fail.



End RegexFacts.

(** ** Facts about code units *)

Module UnitFacts.
Import JS PatternSpec EtymonlineAPI.

Lemma allFrom_spec (f : N -> bool) : forall n c,
  allFrom f n c = true -> forall x, c <= x < c + N.of_nat n -> f x = true.
Proof.
  induction n as [|n IH]; intros c H x Hx; [lia|].
  simpl in H. destruct (f c) eqn:E; [|discriminate].
  destruct (N.eq_dec x c) as [->|Hne]; [exact E|].
  apply (IH (c + 1) H). lia.
Qed.

(** A property checked on every code unit below [b]. *)
Lemma below_units (f : N -> bool) (b : N) :
  allFrom f (N.to_nat b) 0 = true -> forall x, x < b -> f x = true.
Proof.
  intros H x Hx. apply (allFrom_spec f _ 0 H). rewrite N2Nat.id. lia.
Qed.

Lemma between_above (lo hi c : N) : hi < c -> between lo hi c = false.
Proof.
  intros H. unfold between. apply andb_false_iff. right. by apply N.leb_gt.
Qed.

Lemma lowerUnit_above (c : N) : 2048 <= c -> lowerUnit c = c.
Proof.
  intros H. unfold lowerUnit.
  rewrite !between_above by lia. simpl.
  repeat match goal with
  | |- context [c =? ?k] =>
    replace (c =? k) with false by (symmetry; apply N.eqb_neq; lia)
  end.
  reflexivity.
Qed.

Lemma lowerUnit_idem (c : N) : lowerUnit (lowerUnit c) = lowerUnit c.
Proof.
  destruct (N.lt_ge_cases c 2048) as [H|H].
  - apply N.eqb_eq.
    apply (below_units (fun x => lowerUnit (lowerUnit x) =? lowerUnit x) 2048);
      [vm_compute; reflexivity|exact H].
  - by rewrite !(lowerUnit_above c H).
Qed.

Lemma toLowerCase_idem (s : jsstring) : toLowerCase (toLowerCase s) = toLowerCase s.
Proof.
  unfold toLowerCase. rewrite map_map. apply map_ext. apply lowerUnit_idem.
Qed.




Lemma root_not_star (c : N) : isRootChar c = true -> c <> 42.
Proof. intros H ->. by vm_compute in H. Qed.



End UnitFacts.

(** ** Facts about [deduplicateConnections] *)

Module DedupFacts.
Import JS EtymologyService MergeSpec JSFacts.

Lemma strEq_true (s t : jsstring) : strEq s t = true <-> s = t.
Proof. unfold strEq. apply bool_decide_eq_true. Qed.

Lemma strEq_false (s t : jsstring) : strEq s t = false <-> s <> t.
Proof. unfold strEq. apply bool_decide_eq_false. Qed.

Lemma comparisonText_fixed (c : NormalizedConnection) :
  comparisonText (fixed c) = comparisonText c.
Proof.
  unfold fixed. by destruct (startsWith (comparisonText c) (js "*")).
Qed.

Lemma dedupKey_fixed (c : NormalizedConnection) : dedupKey (fixed c) = dedupKey c.
Proof.
  unfold dedupKey, comparisonLang. rewrite comparisonText_fixed.
  unfold fixed. by destruct (startsWith (comparisonText c) (js "*")) eqn:E.
Qed.

Lemma relationship_fixed (c : NormalizedConnection) :
  relationship (fixed c) = relationship c.
Proof.
  unfold fixed. by destruct (startsWith (comparisonText c) (js "*")).
Qed.

Lemma text_fixed (c : NormalizedConnection) :
  text (word (fixed c)) = text (word c).
Proof.
  unfold fixed. by destruct (startsWith (comparisonText c) (js "*")).
Qed.





(** The order of the scores and of the confidences. *)
Lemma strLt_irrefl (s : jsstring) : strLt s s = false.
Proof.
  induction s as [|a s IH]; [reflexivity|].
  simpl. by rewrite N.ltb_irrefl, N.eqb_refl, IH.
Qed.

Lemma strLt_trans (s : jsstring) : forall t u,
  strLt s t = true -> strLt t u = true -> strLt s u = true.
Proof.
  induction s as [|a s IH]; intros [|b t] [|c u]; simpl; try done.
  intros H1 H2.
  apply orb_true_iff in H1. apply orb_true_iff in H2. apply orb_true_iff.
  destruct H1 as [H1|H1], H2 as [H2|H2].
  - left. apply N.ltb_lt in H1. apply N.ltb_lt in H2. apply N.ltb_lt. lia.
  - apply andb_true_iff in H2 as [H2 _]. apply N.eqb_eq in H2. subst c.
    by left.
  - apply andb_true_iff in H1 as [H1 _]. apply N.eqb_eq in H1. subst b.
    by left.
  - apply andb_true_iff in H1 as [H1 H1']. apply andb_true_iff in H2 as [H2 H2'].
    apply N.eqb_eq in H1. apply N.eqb_eq in H2. subst b c. right.
    rewrite N.eqb_refl. simpl. by apply (IH t u).
Qed.

Lemma scoreEq_eq (a b : score) : scoreEq a b = true -> a = b.
Proof.
  destruct a as [x|s], b as [y|t]; simpl; try done.
  - intros H. apply Z.eqb_eq in H. by subst.
  - intros H. apply strEq_true in H. by subst.
Qed.

Lemma scoreGt_irrefl (a : score) : scoreGt a a = false.
Proof. destruct a as [x|s]; simpl; [apply Z.ltb_irrefl|apply strLt_irrefl]. Qed.

Lemma scoreGt_trans (a b c : score) :
  scoreGt a b = true -> scoreGt b c = true -> scoreGt a c = true.
Proof.
  destruct a as [x|s], b as [y|t], c as [z|u]; simpl; try done.
  - intros H1 H2. apply Z.ltb_lt in H1. apply Z.ltb_lt in H2. apply Z.ltb_lt. lia.
  - intros H1 H2. by apply (strLt_trans u t s).
Qed.

Lemma numberGt_irrefl (a : number) : numberGt a a = false.
Proof.
  destruct a as [x| | |]; try reflexivity. unfold numberGt, numberLt.
  apply Qltb_ge, Qle_refl.
Qed.

Lemma numberGt_trans (a b c : number) :
  numberGt a b = true -> numberGt b c = true -> numberGt a c = true.
Proof.
  destruct a as [x| | |], b as [y| | |], c as [z| | |];
    unfold numberGt, numberLt; try done.
  intros H1 H2. apply Qltb_lt in H1. apply Qltb_lt in H2. apply Qltb_lt.
  by apply Qlt_trans with y.
Qed.

(** The test of the loop is a strict order on the candidates of a key. *)
Lemma beats_irrefl (c : NormalizedConnection) : beats c c = false.
Proof.
  unfold beats. rewrite scoreGt_irrefl, numberGt_irrefl.
  by destruct (scoreEq _ _).
Qed.

Lemma beats_trans (a b c : NormalizedConnection) :
  beats a b = true -> beats b c = true -> beats a c = true.
Proof.
  unfold beats. intros H1 H2.
  apply orb_true_iff in H1. apply orb_true_iff in H2. apply orb_true_iff.
  destruct H1 as [H1|H1], H2 as [H2|H2].
  - left. by eapply scoreGt_trans.
  - apply andb_true_iff in H2 as [H2 _]. apply scoreEq_eq in H2.
    rewrite <- H2. by left.
  - apply andb_true_iff in H1 as [H1 _]. apply scoreEq_eq in H1.
    rewrite H1. by left.
  - apply andb_true_iff in H1 as [H1 H1']. apply andb_true_iff in H2 as [H2 H2'].
    right. apply andb_true_iff. split.
    + apply scoreEq_eq in H1. by rewrite H1.
    + by eapply numberGt_trans.
Qed.

(** A candidate that did not beat the one held does not beat its successor
    either. *)
Lemma not_beats_replaced (a new existing : NormalizedConnection) :
  beats a existing = false -> beats new existing = true -> beats a new = false.
Proof.
  intros H1 H2. destruct (beats a new) eqn:E; [|reflexivity].
  by rewrite (beats_trans a new existing E H2) in H1.
Qed.

Lemma beats_fixed_l (a b : NormalizedConnection) : beats (fixed a) b = beats a b.
Proof. unfold beats. by rewrite relationship_fixed. Qed.

Lemma beats_fixed_r (a b : NormalizedConnection) : beats a (fixed b) = beats a b.
Proof. unfold beats. by rewrite relationship_fixed. Qed.


Lemma plainTags_fixed (c : NormalizedConnection) : plainTags (fixed c) = plainTags c.
Proof. unfold plainTags. by rewrite relationship_fixed. Qed.

(** The body of the loop, by cases. *)
Lemma dedupStep_eq (sourceWord : option Word)
  (seen : Seen) (result : list (nat * NormalizedConnection))
  (item : nat * NormalizedConnection) :
  dedupStep sourceWord (seen, result) item =
  if survives sourceWord (snd item) then
    match seen !! dedupKey (snd item) with
    | None =>
      (<[dedupKey (snd item) := (fst item, fixed (snd item))]> seen,
       result ++ [(fst item, fixed (snd item))])
    | Some existing =>
      if beats (fixed (snd item)) (snd existing)
      then (<[dedupKey (snd item) := (fst item, fixed (snd item))]> seen,
            replaceRef (fst existing) (fst item, fixed (snd item)) result)
      else (seen, result)
    end
  else (seen, result).
Proof.
  unfold dedupStep, survives, isSelfReference.
  change (if startsWith (comparisonText (snd item)) (js "*")
          then setLanguage (snd item) (js "ine-pro") else snd item)
    with (fixed (snd item)).
  destruct (truthyStr (text (word (snd item)))); cbn [negb andb];
    [|reflexivity].
  destruct sourceWord as [sw|].
  - destruct (strEq (comparisonText (snd item)) (toLowerCase (text sw))
              && strEq (comparisonLang (snd item))
                   (toLowerCase (orStr (Some (language sw)) [])));
      cbn [negb andb]; [reflexivity|].
    destruct (isValidEtymologicalConnection (fixed (snd item)) sw);
      cbn [negb andb]; [|reflexivity].
    destruct (seen !! dedupKey (snd item)) as [existing|]; reflexivity.
  - destruct (seen !! dedupKey (snd item)) as [existing|]; reflexivity.
Qed.

(** [replaceRef] on an array whose references are distinct. *)
Lemma replaceRef_split {A : Type} (e : nat) (x y : nat * A) (a : list (nat * A)) :
  In y a -> fst y = e -> NoDup (map fst a) ->
  exists a1 a2, a = a1 ++ y :: a2 /\ replaceRef e x a = a1 ++ x :: a2.
Proof.
  intros Hin He. induction a as [|z a IH]; [destruct Hin|].
  intros Hnd. simpl in Hnd. apply NoDup_cons in Hnd as [Hz Hnd]. simpl.
  destruct (fst z =? e)%nat eqn:E.
  - apply Nat.eqb_eq in E. destruct Hin as [->|Hin].
    + by exists [], a.
    + exfalso. apply Hz. rewrite E, <- He.
      apply list_elem_of_In, in_map, Hin.
  - apply Nat.eqb_neq in E. destruct Hin as [->|Hin]; [congruence|].
    destruct (IH Hin Hnd) as (a1 & a2 & -> & ->).
    by exists (z :: a1), a2.
Qed.

Section Loop.
Variable sourceWord : option Word.

Lemma Inv_init : Inv sourceWord [] (∅, []).
Proof.
  split; simpl; try constructor; try done.
Qed.

Lemma Inv_step done st item :
  Inv sourceWord done st -> ~ In (fst item) (map fst done) ->
  Inv sourceWord (done ++ [item]) (dedupStep sourceWord st item).
Proof.
  destruct st as [seen result]. destruct item as [r c].
  intros [Hk Hr Hs Hres Hfrom Hbest] Hfresh.
  rewrite dedupStep_eq. cbn [fst snd] in *.
  assert (Hnew : ~ In r (map fst result)).
  { intros Hin. apply in_map_iff in Hin as (v & Hv & Hin).
    destruct (Hfrom v Hin) as (c0 & Hc0 & _). apply Hfresh.
    rewrite <- Hv. change (fst v) with (fst (fst v, c0)). by apply in_map. }
  destruct (survives sourceWord c) eqn:Hsurv.
  2:{ split; simpl; try done.
      - intros v Hv. destruct (Hfrom v Hv) as (c0 & ? & ? & ?).
        exists c0. split; [|done]. apply in_or_app. by left.
      - intros r' c' Hin Hs'. apply in_app_or in Hin as [Hin|[Heq|[]]].
        + by apply (Hbest r').
        + congruence. }
  destruct (seen !! dedupKey c) as [existing|] eqn:Hlook.
  - destruct (Hs _ _ Hlook) as [Hex Hexk].
    destruct (beats (fixed c) (snd existing)) eqn:Hb.
    + destruct (replaceRef_split (fst existing) (r, fixed c) existing result
                  Hex eq_refl Hr) as (a1 & a2 & Hsplit & ->).
      subst result.
      rewrite map_app in Hk, Hr, Hnew. simpl in Hk, Hr, Hnew.
      split; simpl.
      * rewrite map_app. simpl. by rewrite dedupKey_fixed, <- Hexk.
      * rewrite map_app. simpl.
        apply NoDup_app in Hr as (H1 & H2 & H3).
        apply NoDup_cons in H3 as [H3 H4].
        apply NoDup_app. split; [exact H1|]. split.
        -- intros x Hx Hx'. apply elem_of_cons in Hx' as [->|Hx'].
           ++ apply Hnew. apply in_or_app. left. by apply list_elem_of_In.
           ++ apply (H2 x Hx). by right.
        -- apply NoDup_cons. split; [|exact H4].
           intros Hx. apply Hnew. apply in_or_app. right. right.
           by apply list_elem_of_In.
      * intros k v Hv. destruct (decide (dedupKey c = k)) as [<-|Hne].
        -- rewrite lookup_insert_eq in Hv. injection Hv as <-.
           split; [|apply dedupKey_fixed]. apply in_or_app. right. by left.
        -- rewrite lookup_insert_ne in Hv by done.
           destruct (Hs _ _ Hv) as [Hin Hkv]. split; [|exact Hkv].
           apply in_app_or in Hin as [Hin|[Hin|Hin]].
           ++ apply in_or_app. by left.
           ++ subst v. congruence.
           ++ apply in_or_app. right. by right.
      * intros v Hv.
        assert (Hcases : v = (r, fixed c) \/ (In v (a1 ++ existing :: a2) /\ v <> existing)).
        { apply in_app_or in Hv as [Hv|[Hv|Hv]].
          - right. split; [apply in_or_app; by left|]. intros ->.
            apply NoDup_app in Hr as (_ & H2 & _).
            apply (H2 (fst existing)); [by apply list_elem_of_In, in_map|by left].
          - by left.
          - right. split; [apply in_or_app; right; by right|]. intros ->.
            apply NoDup_app in Hr as (_ & _ & H3).
            apply NoDup_cons in H3 as [H3 _]. apply H3.
            by apply list_elem_of_In, in_map. }
        destruct Hcases as [->|[Hin Hne]].
        -- simpl. rewrite dedupKey_fixed. apply lookup_insert_eq.
        -- rewrite lookup_insert_ne; [by apply Hres|].
           intros Heq. apply Hne.
           specialize (Hres v Hin). rewrite <- Heq in Hres. congruence.
      * intros v Hv. apply in_app_or in Hv as [Hv|[<-|Hv]].
        -- destruct (Hfrom v) as (c0 & ? & ? & ?); [apply in_or_app; by left|].
           exists c0. split; [apply in_or_app; by left|done].
        -- exists c. simpl. split; [apply in_or_app; right; by left|done].
        -- destruct (Hfrom v) as (c0 & ? & ? & ?);
             [apply in_or_app; right; by right|].
           exists c0. split; [apply in_or_app; by left|done].
      * intros r' c' Hin Hs'. apply in_app_or in Hin as [Hin|[Heq|[]]].
        -- destruct (Hbest r' c' Hin Hs') as (v & Hv & Hrank).
           destruct (decide (dedupKey c = dedupKey c')) as [Heq|Hne].
           ++ exists (r, fixed c). rewrite <- Heq, lookup_insert_eq.
              split; [done|]. simpl.
              rewrite <- Heq, Hlook in Hv. injection Hv as <-.
              by apply not_beats_replaced with (snd existing).
           ++ exists v. by rewrite lookup_insert_ne.
        -- injection Heq as <- <-. exists (r, fixed c).
           rewrite lookup_insert_eq. split; [done|]. simpl.
           rewrite beats_fixed_r. apply beats_irrefl.
    + split; simpl; try done.
      * intros v Hv. destruct (Hfrom v Hv) as (c0 & ? & ? & ?).
        exists c0. split; [apply in_or_app; by left|done].
      * intros r' c' Hin Hs'. apply in_app_or in Hin as [Hin|[Heq|[]]].
        -- by apply (Hbest r').
        -- injection Heq as <- <-. exists existing. split; [done|].
           by rewrite beats_fixed_l in Hb.
  - assert (Hfreshkey : ~ In (dedupKey c) (map (fun v => dedupKey (snd v)) result)).
    { intros Hin. apply in_map_iff in Hin as (v & Hv & Hin).
      specialize (Hres v Hin). rewrite Hv in Hres. congruence. }
    split; simpl.
    * rewrite map_app. simpl. apply NoDup_app. split; [exact Hk|]. split.
      -- intros x Hx Hx'. apply list_elem_of_singleton in Hx'. subst x.
         rewrite dedupKey_fixed in Hx. by apply Hfreshkey, list_elem_of_In.
      -- apply NoDup_singleton.
    * rewrite map_app. simpl. apply NoDup_app. split; [exact Hr|]. split.
      -- intros x Hx Hx'. apply list_elem_of_singleton in Hx'. subst x.
         by apply Hnew, list_elem_of_In.
      -- apply NoDup_singleton.
    * intros k v Hv. destruct (decide (dedupKey c = k)) as [<-|Hne].
      -- rewrite lookup_insert_eq in Hv. injection Hv as <-.
         split; [|apply dedupKey_fixed]. apply in_or_app. right. by left.
      -- rewrite lookup_insert_ne in Hv by done.
         destruct (Hs _ _ Hv) as [Hin Hkv]. split; [|exact Hkv].
         apply in_or_app. by left.
    * intros v Hv. apply in_app_or in Hv as [Hv|[<-|[]]].
      -- rewrite lookup_insert_ne; [by apply Hres|].
         intros Heq. apply Hfreshkey. rewrite Heq.
         by apply (in_map (fun v => dedupKey (snd v))).
      -- simpl. rewrite dedupKey_fixed. apply lookup_insert_eq.
    * intros v Hv. apply in_app_or in Hv as [Hv|[<-|[]]].
      -- destruct (Hfrom v Hv) as (c0 & ? & ? & ?).
         exists c0. split; [apply in_or_app; by left|done].
      -- exists c. simpl. split; [apply in_or_app; right; by left|done].
    * intros r' c' Hin Hs'. apply in_app_or in Hin as [Hin|[Heq|[]]].
      -- destruct (Hbest r' c' Hin Hs') as (v & Hv & Hrank).
         exists v. split; [|done]. rewrite lookup_insert_ne; [done|].
         intros Heq. rewrite Heq in Hlook. congruence.
      -- injection Heq as <- <-. exists (r, fixed c).
         rewrite lookup_insert_eq. split; [done|]. simpl.
         rewrite beats_fixed_r. apply beats_irrefl.
Qed.

Lemma Inv_fold items : forall done st,
  Inv sourceWord done st -> NoDup (map fst (done ++ items)) ->
  Inv sourceWord (done ++ items) (fold_left (dedupStep sourceWord) items st).
Proof.
  induction items as [|item items IH]; intros done st HI Hnd; simpl.
  - by rewrite app_nil_r.
  - replace (done ++ item :: items) with ((done ++ [item]) ++ items)
      by (by rewrite <- app_assoc).
    apply IH.
    + apply Inv_step; [done|].
      rewrite map_app in Hnd. apply NoDup_app in Hnd as (_ & H & _).
      intros Hin. apply (H (fst item)); [by apply list_elem_of_In|]. by left.
    + by rewrite <- app_assoc.
Qed.

Lemma imap_pair_fst {A : Type} (l : list A) : forall k,
  map fst (imap (fun i x => ((k + i)%nat, x)) l) = seq k (length l).
Proof.
  induction l as [|x l IH]; intros k; [reflexivity|].
  simpl. rewrite Nat.add_0_r. f_equal.
  rewrite <- (IH (S k)). f_equal. apply imap_ext. intros i y _. simpl.
  f_equal. lia.
Qed.

Lemma imap_pair_NoDup {A : Type} (l : list A) : NoDup (map fst (imap pair l)).
Proof.
  pose proof (imap_pair_fst l 0) as H. simpl in H.
  change (fun i x => (i, x)) with (@pair nat A) in H.
  rewrite H. apply NoDup_ListNoDup, List.seq_NoDup.
Qed.

Lemma imap_pair_In {A : Type} (l : list A) (r : nat) (x : A) :
  In (r, x) (imap pair l) -> In x l.
Proof.
  intros H. apply list_elem_of_In, elem_of_lookup_imap in H as (i & y & Heq & Hy).
  injection Heq as -> ->. apply list_elem_of_In.
  by apply list_elem_of_lookup_2 in Hy.
Qed.

Lemma In_imap_pair {A : Type} (l : list A) (x : A) :
  In x l -> exists r, In (r, x) (imap pair l).
Proof.
  intros H. apply list_elem_of_In, list_elem_of_lookup in H as [i Hi].
  exists i. apply list_elem_of_In, elem_of_lookup_imap. by exists i, x.
Qed.

(** What the loop leaves, for every candidate array. *)
Lemma deduplicate_Inv (connections : list NormalizedConnection) :
  Inv sourceWord (imap pair connections)
    (fold_left (dedupStep sourceWord) (imap pair connections) (∅, [])).
Proof.
  apply (Inv_fold (imap pair connections) [] (∅, []) Inv_init).
  apply imap_pair_NoDup.
Qed.

Lemma deduplicate_from (connections : list NormalizedConnection)
  (c : NormalizedConnection) :
  In c (deduplicateConnections connections sourceWord) ->
  exists c0, In c0 connections /\ survives sourceWord c0 = true /\ c = fixed c0.
Proof.
  unfold deduplicateConnections. intros H.
  apply in_map_iff in H as (v & <- & Hv).
  destruct (inv_from _ _ _ (deduplicate_Inv connections) v Hv) as (c0 & H1 & H2 & H3).
  exists c0. split; [by apply imap_pair_In in H1|done].
Qed.

Lemma deduplicate_keys (connections : list NormalizedConnection) :
  NoDup (map dedupKey (deduplicateConnections connections sourceWord)).
Proof.
  unfold deduplicateConnections. rewrite map_map.
  apply (inv_keys _ _ _ (deduplicate_Inv connections)).
Qed.


(** Every surviving candidate is represented in the result under its key. *)
Lemma deduplicate_covers (connections : list NormalizedConnection)
  (d : NormalizedConnection) :
  In d connections -> survives sourceWord d = true ->
  exists c, In c (deduplicateConnections connections sourceWord)
            /\ dedupKey c = dedupKey d /\ beats d c = false.
Proof.
  intros Hd Hs. pose proof (deduplicate_Inv connections) as HI.
  destruct (In_imap_pair _ _ Hd) as [r Hr].
  destruct (inv_best _ _ _ HI r d Hr Hs) as (v & Hv & Hrank).
  destruct (inv_seen _ _ _ HI _ _ Hv) as [Hin Hk].
  exists (snd v). split; [|done].
  unfold deduplicateConnections. by apply in_map.
Qed.

End Loop.
End DedupFacts.

(** ** Facts about the cognate generator *)

Module CognateFacts.
Import JS CognateService JSFacts.

Lemma replaceRef_In {A : Type} (e : nat) (x v : nat * A) (a : list (nat * A)) :
  In v (replaceRef e x a) -> v = x \/ In v a.
Proof.
  induction a as [|y a IH]; simpl; [tauto|].
  destruct (fst y =? e)%nat; simpl; intros [H|H]; auto.
  destruct (IH H); auto.
Qed.

Lemma deduplicateStep_from (st : gmap jsstring (nat * Cognate) * list (nat * Cognate))
  (item : nat * Cognate) (P : nat * Cognate -> Prop) :
  (forall v, In v (snd st) -> P v) -> P item ->
  forall v, In v (snd (deduplicateStep st item)) -> P v.
Proof.
  destruct st as [seen unique]. intros Hst Hitem v. unfold deduplicateStep.
  destruct (seen !! dedupKey (snd item)) as [existing|]; simpl.
  - destruct (Qgtb _ _ && existsb _ unique); simpl; [|apply Hst].
    intros Hv. apply replaceRef_In in Hv as [->|Hv]; auto.
  - intros Hv. apply in_app_or in Hv as [Hv|[<-|[]]]; auto.
Qed.

Lemma deduplicate_fold_from (items : list (nat * Cognate)) (P : nat * Cognate -> Prop) :
  forall st, (forall v, In v (snd st) -> P v) -> (forall v, In v items -> P v) ->
  forall v, In v (snd (fold_left deduplicateStep items st)) -> P v.
Proof.
  induction items as [|item items IH]; intros st Hst Hitems; simpl; [exact Hst|].
  apply IH.
  - apply deduplicateStep_from; [exact Hst|]. apply Hitems. by left.
  - intros v Hv. apply Hitems. by right.
Qed.

Lemma deduplicateCognates_In (cognates : list Cognate) (c : Cognate) :
  In c (deduplicateCognates cognates) -> In c cognates.
Proof.
  unfold deduplicateCognates. intros H. apply in_map_iff in H as (v & <- & Hv).
  revert v Hv. apply deduplicate_fold_from; simpl; [tauto|].
  intros [r x] Hv. by apply DedupFacts.imap_pair_In in Hv.
Qed.

(** A computed result consists of direct cognates and sound-change
    cognates. *)
Lemma findCognates_In (word sourceLanguage : jsstring)
  (targetLanguages : list jsstring) (c : Cognate) :
  In c (findCognates None word sourceLanguage targetLanguages) ->
  In c (findDirectCognates (trim (toLowerCase word)) sourceLanguage targetLanguages)
  \/ In c (applySoundChangeRules (trim (toLowerCase word)) sourceLanguage
            targetLanguages).
Proof.
  unfold findCognates. intros H. apply arraySort_In in H.
  apply deduplicateCognates_In in H. by apply in_app_or in H.
Qed.

Lemma applyRules_shape (rules : list SoundChangeRule) (word targetLang : jsstring)
  (c : Cognate) :
  In c (applyRules rules word targetLang) ->
  confidence c = 0.75%Q /\ semanticField c = None /\ concept c = None.
Proof.
  unfold applyRules. intros H. apply in_flat_map in H as (rule & _ & H).
  destruct (truthy (lang rule) && _); [destruct H|].
  destruct (exec (from rule) word); [|destruct H].
  destruct (negb _ && _); [|destruct H].
  by destruct H as [<-|[]].
Qed.

Lemma applySoundChangeRules_shape (word sourceLanguage : jsstring)
  (targetLanguages : list jsstring) (c : Cognate) :
  In c (applySoundChangeRules word sourceLanguage targetLanguages) ->
  confidence c = 0.75%Q /\ semanticField c = None /\ concept c = None.
Proof.
  unfold applySoundChangeRules. intros H.
  apply in_flat_map in H as (targetLang & _ & H).
  destruct (strEq targetLang sourceLanguage); [destruct H|].
  apply in_flat_map in H as (family & _ & H).
  apply in_flat_map in H as (targetFamily & _ & H).
  by apply applyRules_shape in H.
Qed.

Lemma findDirectCognates_shape (word sourceLanguage : jsstring)
  (targetLanguages : list jsstring) (c : Cognate) :
  In c (findDirectCognates word sourceLanguage targetLanguages) ->
  confidence c = 0.95%Q
  /\ exists fieldName conceptName,
       semanticField c = Some fieldName /\ concept c = Some conceptName.
Proof.
  unfold findDirectCognates. intros H.
  apply in_flat_map in H as ([fieldName concepts] & _ & H).
  apply in_flat_map in H as ([conceptName languageMap] & _ & H).
  destruct (existsb _ _); [|destruct H].
  apply in_flat_map in H as (targetLang & _ & H).
  destruct (prop targetLang languageMap) as [cognateWords|]; [|destruct H].
  destruct (negb (strEq targetLang sourceLanguage)); [|destruct H].
  apply in_flat_map in H as (cognateWord & _ & H).
  destruct (negb _); [|destruct H].
  destruct H as [<-|[]]. simpl. eauto.
Qed.

End CognateFacts.

(** ** Facts about the merge pipeline *)

Module MergeFacts.
Import JS EtymologyService MergeSpec JSFacts DedupFacts.

Lemma isTrivialDerivative_same (sourceText targetText sourceLang targetLang : jsstring) :
  isTrivialDerivative sourceText targetText sourceLang targetLang = false ->
  toLowerCase targetText <> toLowerCase sourceText.
Proof.
  unfold isTrivialDerivative. intros H Heq. rewrite Heq in H.
  assert (E : strEq (trim (toLowerCase sourceText)) (trim (toLowerCase sourceText)) = true)
    by by apply strEq_true.
  by rewrite E in H.
Qed.

Lemma filterTrivial_In (connections : list NormalizedConnection) (sw : Word)
  (c : NormalizedConnection) :
  In c (filterTrivial connections sw) ->
  In c connections
  /\ toLowerCase (text (word c)) <> toLowerCase (text sw).
Proof.
  unfold filterTrivial. intros H. apply filter_In in H as [H1 H2].
  split; [exact H1|]. apply negb_true_iff in H2.
  by apply isTrivialDerivative_same in H2.
Qed.

(** Where an element of the merged list comes from. *)
Lemma mergeConnections_from (connections : list NormalizedConnection) (sw : Word)
  (c : NormalizedConnection) :
  In c (mergeConnections connections sw) ->
  exists c0, In c0 connections
    /\ toLowerCase (text (word c0)) <> toLowerCase (text sw)
    /\ survives (Some sw) c0 = true /\ c = fixed c0.
Proof.
  unfold mergeConnections. intros H. apply arraySort_In in H.
  apply deduplicate_from in H as (c0 & H0 & Hs & ->).
  apply filterTrivial_In in H0 as [H0 Hne]. by exists c0.
Qed.

(** The comparator of the final sort is the order [notBelow]. *)
Lemma inject_Z_nonpos (z : Z) : (inject_Z z <= 0)%Q <-> (z <= 0)%Z.
Proof. unfold Qle. simpl. lia. Qed.

Lemma orZero_number (n : number) : orZero n <> NaN.
Proof.
  unfold orZero. destruct n as [q| | |]; simpl; try done.
  by destruct (negb (Qeqb q 0)).
Qed.

Lemma sortValue_nonpos (x y : number) :
  x <> NaN -> y <> NaN ->
  (sortValue (numberSub y x) <= 0)%Q <-> numberLt x y = false.
Proof.
  intros Hx Hy. destruct x as [x| | |], y as [y| | |]; try done; simpl;
    try (split; [done|intros _; by compute]);
    try (split; [by compute|done]).
  rewrite Qltb_ge. split; intros H; lra.
Qed.

Lemma numberLt_asym (x y : number) :
  numberLt x y = false \/ numberLt y x = false.
Proof.
  destruct x as [x| | |], y as [y| | |]; simpl; try (by left); try (by right).
  rewrite !Qltb_ge. destruct (Qlt_le_dec x y) as [H|H]; [right|left]; lra.
Qed.

Lemma numberLt_negtrans (x y z : number) :
  y <> NaN ->
  numberLt x y = false -> numberLt y z = false -> numberLt x z = false.
Proof.
  intros Hy. destruct x as [x| | |], y as [y| | |], z as [z| | |]; simpl;
    try done.
  rewrite !Qltb_ge. intros H1 H2. lra.
Qed.

Lemma byPriorityAndConfidence_notBelow (a b : NormalizedConnection) :
  (byPriorityAndConfidence a b <= 0)%Q <-> notBelow a b.
Proof.
  unfold byPriorityAndConfidence, notBelow. fold (tier a) (tier b).
  destruct (tier a =? tier b)%Z eqn:E; cbn [negb].
  - apply Z.eqb_eq in E.
    rewrite sortValue_nonpos by apply orZero_number.
    split; [intros H; by right|].
    intros [H|[_ H]]; [lia|done].
  - apply Z.eqb_neq in E. rewrite inject_Z_nonpos. split; [intros H; left; lia|].
    intros [H|[H _]]; [lia|done].
Qed.

Lemma notBelow_total (a b : NormalizedConnection) : notBelow a b \/ notBelow b a.
Proof.
  unfold notBelow.
  destruct (Z.lt_trichotomy (tier a) (tier b)) as [H|[H|H]]; [right; by left| |left; by left].
  destruct (numberLt_asym (orZero (confidence (relationship a)))
              (orZero (confidence (relationship b)))) as [Hq|Hq].
  - left. right. by split.
  - right. right. by split.
Qed.

Lemma notBelow_trans (a b c : NormalizedConnection) :
  notBelow a b -> notBelow b c -> notBelow a c.
Proof.
  unfold notBelow. intros [H1|[H1 H1']] [H2|[H2 H2']].
  - left. lia.
  - left. lia.
  - left. lia.
  - right. split; [lia|].
    apply numberLt_negtrans with (orZero (confidence (relationship b)));
      [apply orZero_number|done|done].
Qed.

Lemma arraySort_notBelow (l : list NormalizedConnection) :
  StronglySorted notBelow (arraySort byPriorityAndConfidence l).
Proof.
  assert (H : StronglySorted (fun a b => (byPriorityAndConfidence a b <= 0)%Q)
                (arraySort byPriorityAndConfidence l)).
  { apply arraySort_sorted.
    - intros a b. rewrite !byPriorityAndConfidence_notBelow. apply notBelow_total.
    - intros a b c. rewrite !byPriorityAndConfidence_notBelow. apply notBelow_trans. }
  induction H as [|x l' Hs IH Hx]; constructor; [exact IH|].
  eapply Forall_impl; [exact Hx|]. intros y. apply byPriorityAndConfidence_notBelow.
Qed.

(** The key of the code is a function of the key of the specification. *)
Lemma dedupKey_specKey (c : NormalizedConnection) :
  dedupKey c = keyOfSpecKey (specKey (word c)).
Proof.
  unfold dedupKey, keyOfSpecKey, specKey, comparisonLang, comparisonText,
    normalizedLanguage. simpl.
  destruct (startsWith (toLowerCase (text (word c))) (js "*")); [reflexivity|].
  by destruct (language (word c)).
Qed.

Lemma specKey_fixed (c : NormalizedConnection) :
  specKey (word (fixed c)) = specKey (word c).
Proof.
  unfold specKey, normalizedLanguage. rewrite text_fixed.
  unfold fixed, comparisonText.
  by destruct (startsWith (toLowerCase (text (word c))) (js "*")) eqn:E.
Qed.

Lemma NoDup_map_compose {A B C : Type} (f : A -> B) (h : B -> C) (l : list A) :
  NoDup (map h (map f l)) -> NoDup (map f l).
Proof.
  induction l as [|x l IH]; simpl; intros H; [constructor|].
  apply NoDup_cons in H as [H1 H2]. apply NoDup_cons. split; [|auto].
  intros Hin. apply H1, list_elem_of_In, in_map. by apply list_elem_of_In.
Qed.

Lemma mergeConnections_keys (connections : list NormalizedConnection) (sw : Word) :
  NoDup (map (fun c => specKey (word c)) (mergeConnections connections sw)).
Proof.
  unfold mergeConnections. apply (NoDup_map_compose _ keyOfSpecKey).
  rewrite map_map.
  rewrite (map_ext _ dedupKey (fun c => eq_sym (dedupKey_specKey c))).
  rewrite (arraySort_perm byPriorityAndConfidence). apply deduplicate_keys.
Qed.

(** The computed result of the entry point. *)
Lemma find_computed (answers : Answers) (queryWord queryLanguage : option jsstring)
  (bypassCache : bool) (data : EtymologyData) :
  findEtymologicalConnections answers queryWord queryLanguage bypassCache
  = Returned data ->
  bypassCache = true \/ cached answers = None ->
  exists candidates,
    collectConnections answers (sourceWord data)
      (text (sourceWord data)) (language (sourceWord data))
    = Returned candidates
    /\ connections data
       = map publish (mergeConnections candidates (sourceWord data))
    /\ text (sourceWord data) = trim (orStr queryWord []).
Proof.
  unfold findEtymologicalConnections. intros H Hc.
  destruct (negb (truthyStr (trim (orStr queryWord [])))); [discriminate|].
  assert (E : (if bypassCache then None else cached answers) = None).
  { destruct Hc as [->| ->]; [reflexivity|by destruct bypassCache]. }
  rewrite E in H. cbv zeta in H.
  match type of H with
  | match ?x with _ => _ end = _ =>
    destruct x as [candidates|e] eqn:Ecoll; [|discriminate]
  end.
  injection H as <-. exists candidates. cbn [sourceWord connections].
  by split.
Qed.

(** What the loops of the entry point collect. *)
Lemma forEach_In {A B : Type} (body : A -> completion (list B)) (l : list A) :
  forall (result : list B) (y : B),
  forEach body l = Returned result -> In y result ->
  exists x ys, In x l /\ body x = Returned ys /\ In y ys.
Proof.
  induction l as [|x l IH]; intros result y H Hy; simpl in H.
  - injection H as <-. destruct Hy.
  - destruct (body x) as [ys|e] eqn:Ex; [|discriminate].
    destruct (forEach body l) as [zs|e] eqn:El; [|discriminate].
    injection H as <-. apply in_app_or in Hy as [Hy|Hy].
    + exists x, ys. split; [by left|done].
    + destruct (IH zs y eq_refl Hy) as (x' & ys' & H1 & H2 & H3).
      exists x', ys'. split; [by right|done].
Qed.

Lemma forEach_returns {A B : Type} (body : A -> completion (list B)) (l : list A) :
  (forall x, In x l -> exists ys, body x = Returned ys) ->
  exists result, forEach body l = Returned result.
Proof.
  induction l as [|x l IH]; intros H; simpl; [by eexists|].
  destruct (H x) as [ys ->]; [by left|].
  destruct IH as [zs ->]; [intros x' Hx'; apply H; by right|]. by eexists.
Qed.

Lemma forEach_throws {A B : Type} (body : A -> completion (list B)) (l : list A)
  (x : A) (e : thrown) :
  In x l -> body x = Threw e ->
  exists e', forEach body l = Threw e'.
Proof.
  induction l as [|z l IH]; intros Hin Hx; [destruct Hin|]. simpl.
  destruct Hin as [->|Hin].
  - rewrite Hx. by eexists.
  - destruct (body z) as [ys|e0]; [|by eexists].
    destruct (IH Hin Hx) as [e' ->]. by eexists.
Qed.

End MergeFacts.

(** ** The claims about the merge engine *)

Module MergeTheorems.
Import JS EtymologyService MergeSpec JSFacts DedupFacts MergeFacts Examples.

Lemma publish_In (l : list NormalizedConnection) (c : Out.Connection) :
  In c (map publish l) ->
  exists nc, In nc l /\ Out.word c = word nc
             /\ Out.confidence c = confidence (relationship nc).
Proof.
  intros H. apply in_map_iff in H as (nc & <- & H). by exists nc.
Qed.

(** C1. No connection of a computed result is the query word: its text
    differs from the query word's text under case-insensitive comparison, and
    so its (lowercased text, lowercased language) pair differs from the query
    word's. *)
Theorem no_self_loops (answers : Answers)
  (queryWord queryLanguage : option jsstring) (bypassCache : bool)
  (data : EtymologyData) :
  findEtymologicalConnections answers queryWord queryLanguage bypassCache
  = Returned data ->
  bypassCache = true \/ cached answers = None ->
  forall c, In c (connections data) ->
    toLowerCase (text (Out.word c)) <> toLowerCase (text (sourceWord data))
    /\ (toLowerCase (text (Out.word c)), toLowerCase (language (Out.word c)))
       <> (toLowerCase (text (sourceWord data)),
           toLowerCase (language (sourceWord data)))
    /\ toLowerCase (text (Out.word c)) <> toLowerCase (trim (orStr queryWord [])).
Proof.
  intros Hfind Hcache c Hc.
  destruct (find_computed _ _ _ _ _ Hfind Hcache)
    as (candidates & _ & Hconn & Htext).
  rewrite Hconn in Hc. apply publish_In in Hc as (nc & Hnc & Hw & _).
  apply mergeConnections_from in Hnc as (c0 & _ & Hne & _ & ->).
  rewrite Hw, text_fixed. rewrite <- Htext.
  split; [exact Hne|]. split; [|exact Hne].
  intros Heq. by injection Heq.
Qed.

Lemma no_self_loops_witness :
  exists data,
    findEtymologicalConnections waterAnswers (Some (js " Water ")) None false
    = Returned data
    /\ (false = true \/ cached waterAnswers = None)
    /\ forall c, In c (connections data) ->
         toLowerCase (text (Out.word c)) <> toLowerCase (text (sourceWord data))
         /\ (toLowerCase (text (Out.word c)), toLowerCase (language (Out.word c)))
            <> (toLowerCase (text (sourceWord data)),
                toLowerCase (language (sourceWord data)))
         /\ toLowerCase (text (Out.word c))
            <> toLowerCase (trim (orStr (Some (js " Water ")) [])).
Proof.
  eexists. split; [vm_compute; reflexivity|]. split; [by right|].
  apply (no_self_loops waterAnswers (Some (js " Water ")) None false);
    [vm_compute; reflexivity|by right].
Defined.

(** C2. No two connections of a computed result share the deduplication key
    (lowercased word text, normalized language). *)
Theorem dedup_invariant (answers : Answers)
  (queryWord queryLanguage : option jsstring) (bypassCache : bool)
  (data : EtymologyData) :
  findEtymologicalConnections answers queryWord queryLanguage bypassCache
  = Returned data ->
  bypassCache = true \/ cached answers = None ->
  NoDup (map (fun c => specKey (Out.word c)) (connections data)).
Proof.
  intros Hfind Hcache.
  destruct (find_computed _ _ _ _ _ Hfind Hcache) as (candidates & _ & -> & _).
  rewrite map_map. simpl. apply mergeConnections_keys.
Qed.

Lemma dedup_invariant_witness :
  exists data,
    findEtymologicalConnections waterAnswers (Some (js " Water ")) None false
    = Returned data
    /\ (false = true \/ cached waterAnswers = None)
    /\ NoDup (map (fun c => specKey (Out.word c)) (connections data)).
Proof.
  eexists. split; [vm_compute; reflexivity|]. split; [by right|].
  apply (dedup_invariant waterAnswers (Some (js " Water ")) None false);
    [vm_compute; reflexivity|by right].
Defined.








End MergeTheorems.

Module ConfidenceTheorems.
Import JS EtymologyService MergeSpec JSFacts DedupFacts MergeFacts Examples.

(** The confidence of a candidate, source by source. *)
Lemma normalizeConnection_confidence (sw : Word) (raw : option Raw.Connection)
  (nc : NormalizedConnection) :
  normalizeConnection sw raw = Returned (Some nc) ->
  confidence (relationship nc) = default (Num 0.5) (rawConfidence raw)
  /\ source (relationship nc) = None.
Proof.
  unfold normalizeConnection, rawConfidence.
  destruct raw as [raw|]; [|discriminate].
  destruct (Raw.word raw) as [rawWord|]; [|discriminate].
  destruct (negb (truthyStr (trim (default [] (Raw.text rawWord)))));
    [discriminate|].
  destruct (targetLanguage sw (Raw.language rawWord)); [|discriminate].
  intros H. by injection H as <-.
Qed.

Lemma boost_bound (confidence : number) (q : Q) :
  boost confidence = Num q -> (q <= 0.95)%Q \/ (q == 0)%Q.
Proof.
  unfold boost. destruct confidence as [c| | |]; simpl; try discriminate.
  - destruct (negb (Qeqb c 0)) eqn:E; simpl; intros H; injection H as <-.
    + left. apply Q.le_min_r.
    + right. by apply negb_false_iff, Qeq_bool_iff in E.
  - intros H. injection H as <-. left. lra.
Qed.

Lemma boost_NaN (confidence : number) : boost confidence = NaN -> confidence = NaN.
Proof.
  unfold boost. destruct confidence as [c| | |]; simpl; try done.
  by destruct (negb (Qeqb c 0)).
Qed.

Lemma boost_finite (confidence : number) : boost confidence <> Infinity.
Proof.
  unfold boost. destruct confidence as [c| | |]; simpl; try done.
  by destruct (negb (Qeqb c 0)).
Qed.

Lemma etymonline_confidence (sw : Word) (etymonlineData : option EtymonlineData)
  (l : list NormalizedConnection) (c : NormalizedConnection) :
  etymonlineConnections sw etymonlineData = Returned l -> In c l ->
  source (relationship c) = Some (js "etymonline.com")
  /\ exists raw, In raw (default [] (etymonlineData ≫= e_connections))
       /\ confidence (relationship c)
          = boost (default (Num 0.5) (rawConfidence raw)).
Proof.
  unfold etymonlineConnections. intros Hl H.
  destruct (etymonlineData ≫= e_connections) as [raws|];
    [|injection Hl as <-; destruct H].
  destruct (forEach_In _ _ _ _ Hl H) as (raw & ys & Hraw & Hys & Hy).
  destruct (normalizeConnection sw raw) as [[nc|]|e] eqn:E;
    [|injection Hys as <-; destruct Hy|discriminate].
  injection Hys as <-. destruct Hy as [<-|[]].
  split; [reflexivity|]. exists raw. split; [exact Hraw|]. simpl.
  by destruct (normalizeConnection_confidence _ _ _ E) as [-> _].
Qed.

Lemma wiktionary_confidence (sw : Word) (wiktionaryData : option WiktionaryData)
  (l : list NormalizedConnection) (c : NormalizedConnection) :
  wiktionaryConnections sw wiktionaryData = Returned l -> In c l ->
  source (relationship c) = Some (js "wiktionary")
  /\ exists raw, In raw (default [] (wiktionaryData ≫= w_connections))
       /\ confidence (relationship c) = default (Num 0.5) (rawConfidence raw).
Proof.
  unfold wiktionaryConnections. intros Hl H.
  destruct (wiktionaryData ≫= w_connections) as [raws|];
    [|injection Hl as <-; destruct H].
  destruct (forEach_In _ _ _ _ Hl H) as (raw & ys & Hraw & Hys & Hy).
  destruct (normalizeConnection sw raw) as [[nc|]|e] eqn:E;
    [|injection Hys as <-; destruct Hy|discriminate].
  injection Hys as <-. destruct Hy as [<-|[]].
  split; [reflexivity|]. exists raw. split; [exact Hraw|]. simpl.
  by destruct (normalizeConnection_confidence _ _ _ E) as [-> _].
Qed.

Lemma dictionary_confidence (sw : Word) (dictionaryData : option DictionaryApiData)
  (c : NormalizedConnection) :
  In c (dictionaryConnections sw dictionaryData) ->
  source (relationship c) = Some (js "dictionary-api")
  /\ confidence (relationship c) = Num 0.6.
Proof.
  unfold dictionaryConnections, connectionsFromOrigin. intros H.
  destruct (dictionaryData ≫= d_origin) as [origin|]; [|destruct H].
  destruct (0 <? length (trim origin))%nat; [|destruct H].
  apply in_map_iff in H as (nc & <- & H).
  by apply in_map_iff in H as (seg & <- & _).
Qed.

Lemma cognate_confidence (cachedCognates : option (list CognateService.Cognate))
  (normalizedWord normalizedLanguage : jsstring) (c : NormalizedConnection) :
  In c (cognateConnections cachedCognates normalizedWord normalizedLanguage) ->
  source (relationship c) = None
  /\ exists q, confidence (relationship c) = Num q /\ (0.85 <= q)%Q
       /\ (cachedCognates = None -> q = 0.95%Q).
Proof.
  unfold cognateConnections, validCognates. intros H.
  apply in_map_iff in H as (cg & <- & H). apply filter_In in H as [H Hf].
  split; [reflexivity|]. exists (CognateService.confidence cg).
  split; [reflexivity|]. split.
  - destruct (Qltb (CognateService.confidence cg) 0.85) eqn:E; [discriminate|].
    by apply Qltb_ge in E.
  - intros ->. apply CognateFacts.findCognates_In in H as [H|H].
    + by apply CognateFacts.findDirectCognates_shape in H as [-> _].
    + apply CognateFacts.applySoundChangeRules_shape in H as [Hq _].
      rewrite Hq in Hf. discriminate.
Qed.

Lemma survives_floor (sw : Word) (c : NormalizedConnection) :
  survives (Some sw) c = true ->
  confidence (relationship c) <> NegInfinity
  /\ forall q, confidence (relationship c) = Num q ->
       (0.4 <= q)%Q
       /\ (startsWith (text (word c)) (js "*") = false -> (0.5 <= q)%Q).
Proof.
  unfold survives, isValidEtymologicalConnection. intros H.
  apply andb_true_iff in H as [_ H]. apply andb_true_iff in H as [_ H].
  rewrite relationship_fixed, text_fixed in H. split.
  - intros Hq. rewrite Hq in H. cbn [numberLt] in H. discriminate.
  - intros q Hq. rewrite Hq in H. cbn [numberLt] in H.
    destruct (startsWith (text (word c)) (js "*")) eqn:E.
    + destruct (Qltb q 0.4) eqn:Eq; [discriminate|].
      apply Qltb_ge in Eq. split; [exact Eq|discriminate].
    + destruct (Qltb q 0.5) eqn:Eq; [discriminate|].
      apply Qltb_ge in Eq. split; [lra|done].
Qed.

(** C5, as amended.  No clamp stands behind the confidence of a connection
    of a computed result.  It is never minus infinity, and a finite one is at
    least 0.4 (0.5 unless the text starts with an asterisk).  An etymonline
    confidence is the boosted confidence of a candidate: finite and at most
    0.95, or [NaN].  A wiktionary confidence is the one its candidate
    reported, whatever it is; a missing confidence is 0.5; a dictionary
    confidence is 0.6; a cognate confidence is at least 0.85, and 0.95 when
    the cognates were computed.  A [NaN] is one that an etymonline or
    wiktionary candidate reported, an infinite confidence one that a
    wiktionary candidate reported. *)
Theorem confidence_bounds (answers : Answers)
  (queryWord queryLanguage : option jsstring) (bypassCache : bool)
  (data : EtymologyData) :
  findEtymologicalConnections answers queryWord queryLanguage bypassCache
  = Returned data ->
  bypassCache = true \/ cached answers = None ->
  forall c, In c (connections data) ->
    Out.confidence c <> NegInfinity
    /\ (forall q, Out.confidence c = Num q ->
          (0.4 <= q)%Q
          /\ (startsWith (text (Out.word c)) (js "*") = false -> (0.5 <= q)%Q))
    /\ (Out.confidence c = NaN ->
        exists raw, In raw (normalizedCandidates answers)
                    /\ rawConfidence raw = Some NaN)
    /\ (Out.confidence c = Infinity ->
        exists raw,
          In raw (default [] (wiktionaryResult answers ≫= w_connections))
          /\ rawConfidence raw = Some Infinity)
    /\ ((Out.source c = js "etymonline.com"
         /\ (exists raw,
               In raw (default [] (etymonlineResult answers ≫= e_connections))
               /\ Out.confidence c
                  = boost (default (Num 0.5) (rawConfidence raw)))
         /\ Out.confidence c <> Infinity
         /\ forall q, Out.confidence c = Num q -> (q <= 0.95)%Q)
        \/ (Out.source c = js "wiktionary"
            /\ exists raw,
                 In raw (default [] (wiktionaryResult answers ≫= w_connections))
                 /\ Out.confidence c = default (Num 0.5) (rawConfidence raw))
        \/ (Out.source c = js "dictionary-api" /\ Out.confidence c = Num 0.6)
        \/ (Out.source c = js "unknown"
            /\ exists q, Out.confidence c = Num q /\ (0.85 <= q)%Q
                 /\ (cachedCognates answers = None -> q = 0.95%Q))).
Proof.
  intros Hfind Hcache c Hc.
  destruct (find_computed _ _ _ _ _ Hfind Hcache) as (candidates & Hcoll & Hconn & _).
  rewrite Hconn in Hc. apply in_map_iff in Hc as (nc & <- & Hnc).
  apply mergeConnections_from in Hnc as (c0 & Hc0 & _ & Hs & ->).
  unfold publish. cbn [Out.confidence Out.source Out.word].
  rewrite relationship_fixed, text_fixed.
  destruct (survives_floor _ _ Hs) as [Hneg Hfloor].
  split; [exact Hneg|]. split; [exact Hfloor|].
  unfold collectConnections in Hcoll.
  destruct (etymonlineConnections _ _) as [le|] eqn:Ee; [|discriminate].
  destruct (wiktionaryConnections _ _) as [lw|] eqn:Ew; [|discriminate].
  injection Hcoll as <-.
  apply in_app_or in Hc0 as [H|H]; [|apply in_app_or in H as [H|H];
    [|apply in_app_or in H as [H|H]]].
  - destruct (etymonline_confidence _ _ _ _ Ee H) as (Hsrc & raw & Hraw & Hq).
    split; [|split].
    + intros Hnan. exists raw. split.
      * unfold normalizedCandidates. apply in_or_app. by left.
      * rewrite Hnan in Hq. symmetry in Hq. apply boost_NaN in Hq.
        by destruct (rawConfidence raw) as [[x| | |]|].
    + intros Hinf. rewrite Hinf in Hq. symmetry in Hq.
      by apply boost_finite in Hq.
    + left. rewrite Hsrc. split; [reflexivity|]. split; [by exists raw|].
      split; [rewrite Hq; apply boost_finite|].
      intros q Hcq. rewrite Hcq in Hq. symmetry in Hq.
      destruct (boost_bound _ _ Hq) as [Hb|Hb]; [exact Hb|].
      rewrite Hb. lra.
  - destruct (wiktionary_confidence _ _ _ _ Ew H) as (Hsrc & raw & Hraw & Hq).
    split; [|split].
    + intros Hnan. exists raw. split.
      * unfold normalizedCandidates. apply in_or_app. by right.
      * rewrite Hnan in Hq. by destruct (rawConfidence raw) as [[x| | |]|].
    + intros Hinf. exists raw. split; [exact Hraw|].
      rewrite Hinf in Hq. by destruct (rawConfidence raw) as [[x| | |]|].
    + right. left. rewrite Hsrc. split; [reflexivity|]. by exists raw.
  - destruct (dictionary_confidence _ _ _ H) as [Hsrc Hq].
    split; [by rewrite Hq|]. split; [by rewrite Hq|].
    right. right. left. by rewrite Hsrc.
  - destruct (cognate_confidence _ _ _ _ H) as (Hsrc & q & Hq & Hlo & Hcomp).
    split; [by rewrite Hq|]. split; [by rewrite Hq|].
    right. right. right. rewrite Hsrc.
    split; [reflexivity|]. by exists q.
Qed.

Lemma confidence_bounds_witness :
  exists data,
    findEtymologicalConnections waterAnswers (Some (js " Water ")) None false
    = Returned data
    /\ (false = true \/ cached waterAnswers = None)
    /\ forall c, In c (connections data) ->
         Out.confidence c <> NegInfinity
         /\ (forall q, Out.confidence c = Num q ->
               (0.4 <= q)%Q
               /\ (startsWith (text (Out.word c)) (js "*") = false ->
                   (0.5 <= q)%Q))
         /\ (Out.confidence c = NaN ->
             exists raw, In raw (normalizedCandidates waterAnswers)
                         /\ rawConfidence raw = Some NaN)
         /\ (Out.confidence c = Infinity ->
             exists raw,
               In raw (default []
                         (wiktionaryResult waterAnswers ≫= w_connections))
               /\ rawConfidence raw = Some Infinity)
         /\ ((Out.source c = js "etymonline.com"
              /\ (exists raw,
                    In raw (default []
                              (etymonlineResult waterAnswers ≫= e_connections))
                    /\ Out.confidence c
                       = boost (default (Num 0.5) (rawConfidence raw)))
              /\ Out.confidence c <> Infinity
              /\ forall q, Out.confidence c = Num q -> (q <= 0.95)%Q)
             \/ (Out.source c = js "wiktionary"
                 /\ exists raw,
                      In raw (default []
                                (wiktionaryResult waterAnswers ≫= w_connections))
                      /\ Out.confidence c
                         = default (Num 0.5) (rawConfidence raw))
             \/ (Out.source c = js "dictionary-api"
                 /\ Out.confidence c = Num 0.6)
             \/ (Out.source c = js "unknown"
                 /\ exists q, Out.confidence c = Num q /\ (0.85 <= q)%Q
                      /\ (cachedCognates waterAnswers = None -> q = 0.95%Q))).
Proof.
  eexists. split; [vm_compute; reflexivity|]. split; [by right|].
  apply (confidence_bounds waterAnswers (Some (js " Water ")) None false);
    [vm_compute; reflexivity|by right].
Defined.

(** C5, the counterexample.  The wiktionary extractor reports "aqua" with a
    confidence of 1.5, and the result carries it unchanged; it reports [NaN],
    and the result carries that, sorted as the zero the comparator reads. *)
Lemma wiktionary_confidence_not_clamped :
  (exists data,
     findEtymologicalConnections overconfidentAnswers (Some (js "water")) None
       false
     = Returned data
     /\ map (fun c => (text (Out.word c), Out.source c, Out.confidence c))
            (connections data)
        = [ (js "aqua", js "wiktionary", Num 1.5);
            (js "eau", js "unknown", Num 0.95);
            (js "wasser", js "unknown", Num 0.95) ]
     /\ ~ (1.5 <= 1)%Q)
  /\ exists data,
       findEtymologicalConnections nanAnswers (Some (js "water")) None false
       = Returned data
       /\ map (fun c => (text (Out.word c), Out.source c, Out.confidence c))
              (connections data)
          = [ (js "eau", js "unknown", Num 0.95);
              (js "wasser", js "unknown", Num 0.95);
              (js "aqua", js "wiktionary", NaN) ].
Proof.
  split.
  - eexists. split; [vm_compute; reflexivity|].
    split; [vm_compute; reflexivity|]. intros H. vm_compute in H. by apply H.
  - eexists. split; [vm_compute; reflexivity|]. vm_compute. reflexivity.
Qed.

End ConfidenceTheorems.

Module ProtoTheorems.
Import JS EtymologyService MergeSpec JSFacts DedupFacts MergeFacts Examples.

Lemma startsWith_star (s : jsstring) :
  startsWith s (js "*") = true <-> exists r, s = 42 :: r.
Proof.
  change (js "*") with [42]. split.
  - destruct s as [|c r]; [discriminate|]. cbn [startsWith]. intros H.
    apply andb_true_iff in H as [H _]. apply N.eqb_eq in H. subst c.
    by exists r.
  - intros [r ->]. by destruct r.
Qed.

Lemma toLowerCase_star (s : jsstring) :
  startsWith s (js "*") = true -> startsWith (toLowerCase s) (js "*") = true.
Proof.
  intros H. apply startsWith_star in H as [r ->]. apply startsWith_star.
  by exists (toLowerCase r).
Qed.

(** A word list none of whose entries starts with an asterisk does not
    include a string that does. *)
Lemma arrayIncludes_star (l : list jsstring) (s : jsstring) :
  forallb (fun e => negb (startsWith e (js "*"))) l = true ->
  startsWith s (js "*") = true -> arrayIncludes l s = false.
Proof.
  intros Hl Hs. unfold arrayIncludes.
  destruct (existsb (strEq s) l) eqn:E; [|reflexivity].
  apply existsb_exists in E as (e & He & Heq). apply strEq_true in Heq. subst e.
  rewrite forallb_forall in Hl. specialize (Hl s He). by rewrite Hs in Hl.
Qed.

Lemma suspicious_star_l (w other : jsstring) :
  startsWith w (js "*") = true ->
  EtymonlineAPI.areSemanticallySuspicious w other = false.
Proof.
  intros H. apply toLowerCase_star in H. unfold EtymonlineAPI.areSemanticallySuspicious.
  rewrite !(arrayIncludes_star _ (toLowerCase w)) by (reflexivity || exact H).
  by rewrite H.
Qed.

Lemma suspicious_star_r (w other : jsstring) :
  startsWith w (js "*") = true ->
  EtymonlineAPI.areSemanticallySuspicious other w = false.
Proof.
  intros H. apply toLowerCase_star in H. unfold EtymonlineAPI.areSemanticallySuspicious.
  rewrite !(arrayIncludes_star _ (toLowerCase w)) by (reflexivity || exact H).
  rewrite H, !andb_false_r, orb_true_r. reflexivity.
Qed.

Lemma unrelated_star_l (w other : jsstring) :
  startsWith w (js "*") = true -> areSemanticallyUnrelated w other = false.
Proof. intros H. unfold areSemanticallyUnrelated. by rewrite H. Qed.

Lemma unrelated_star_r (w other : jsstring) :
  startsWith w (js "*") = true -> areSemanticallyUnrelated other w = false.
Proof.
  intros H. unfold areSemanticallyUnrelated. by rewrite H, orb_true_r.
Qed.

Lemma fixed_star (c : NormalizedConnection) :
  startsWith (text (word c)) (js "*") = true ->
  language (word (fixed c)) = js "ine-pro".
Proof.
  intros H. apply toLowerCase_star in H. unfold fixed, comparisonText.
  by rewrite H.
Qed.

(** A candidate with an asterisk survives unless it is the query word
    itself or its confidence is below 0.4. *)
Lemma survives_star (sourceWord : option Word) (d : NormalizedConnection) :
  startsWith (text (word d)) (js "*") = true ->
  (forall sw, sourceWord = Some sw ->
     isSelfReference sw d = false
     /\ numberLt (confidence (relationship d)) (Num 0.4) = false) ->
  survives sourceWord d = true.
Proof.
  intros Hstar H. unfold survives.
  assert (Ht : truthyStr (text (word d)) = true).
  { pose proof Hstar as Hr. apply startsWith_star in Hr as [r Hr].
    by rewrite Hr. }
  rewrite Ht. cbn [andb].
  destruct sourceWord as [sw|]; [|reflexivity].
  destruct (H sw eq_refl) as [H1 H2]. rewrite H1. cbn [negb andb].
  unfold isValidEtymologicalConnection.
  rewrite relationship_fixed, text_fixed, Hstar, H2. reflexivity.
Qed.

Lemma key_star (c d : NormalizedConnection) :
  startsWith (text (word d)) (js "*") = true ->
  truthyStr (text (word c)) = true ->
  dedupKey c = dedupKey d ->
  startsWith (comparisonText c) (js "*") = true
  /\ comparisonText c = comparisonText d.
Proof.
  intros Hd Hc Hk.
  assert (Hd' : startsWith (comparisonText d) (js "*") = true)
    by by apply toLowerCase_star.
  assert (Hc' : startsWith (comparisonText c) (js "*") = true).
  { unfold dedupKey in Hk. apply startsWith_star in Hd' as [r Hr].
    rewrite Hr in Hk. unfold comparisonText in *.
    destruct (text (word c)) as [|x t]; [discriminate|].
    simpl in Hk. injection Hk as Hx _. apply startsWith_star.
    simpl. rewrite Hx. by eexists. }
  split; [exact Hc'|].
  unfold dedupKey, comparisonLang in Hk. rewrite Hc', Hd' in Hk.
  by apply app_inv_tail in Hk.
Qed.

(** C6. A candidate whose text starts with an asterisk is rejected neither
    by [areSemanticallyUnrelated] nor by [areSemanticallySuspicious],
    whichever side of the pair it stands on.  Whatever language it was
    reported with, the merge step hands it on with the language [ine-pro]:
    unless it is the query word itself or its confidence is below 0.4, the
    result of [deduplicateConnections] holds a connection with its text (up
    to case) and the language [ine-pro], and no connection with its text in
    this result or in a computed result of the entry point has another
    language. *)
Theorem proto_exemption (w : jsstring) :
  startsWith w (js "*") = true ->
  (forall other,
     areSemanticallyUnrelated other w = false
     /\ areSemanticallyUnrelated w other = false
     /\ EtymonlineAPI.areSemanticallySuspicious w other = false
     /\ EtymonlineAPI.areSemanticallySuspicious other w = false)
  /\ (forall connections sourceWord d,
        In d connections -> text (word d) = w ->
        (forall sw, sourceWord = Some sw ->
           isSelfReference sw d = false
           /\ numberLt (confidence (relationship d)) (Num 0.4) = false) ->
        exists c, In c (deduplicateConnections connections sourceWord)
                  /\ toLowerCase (text (word c)) = toLowerCase w
                  /\ language (word c) = js "ine-pro")
  /\ (forall connections sourceWord c,
        In c (deduplicateConnections connections sourceWord) ->
        text (word c) = w -> language (word c) = js "ine-pro")
  /\ (forall answers queryWord queryLanguage bypassCache data c,
        findEtymologicalConnections answers queryWord queryLanguage bypassCache
        = Returned data ->
        bypassCache = true \/ cached answers = None ->
        In c (connections data) ->
        text (Out.word c) = w -> language (Out.word c) = js "ine-pro").
Proof.
  intros Hw. split; [|split; [|split]].
  - intros other. split; [by apply unrelated_star_r|].
    split; [by apply unrelated_star_l|].
    split; [by apply suspicious_star_l|by apply suspicious_star_r].
  - intros connections sw d Hd Ht Hok.
    assert (Hstar : startsWith (text (word d)) (js "*") = true) by by rewrite Ht.
    pose proof (survives_star sw d Hstar Hok) as Hs.
    destruct (deduplicate_covers sw connections d Hd Hs) as (c & Hc & Hk & _).
    exists c. split; [exact Hc|].
    apply deduplicate_from in Hc as (c0 & _ & Hs0 & ->).
    rewrite dedupKey_fixed in Hk.
    assert (Ht0 : truthyStr (text (word c0)) = true).
    { unfold survives in Hs0. by apply andb_true_iff in Hs0 as [Hs0 _]. }
    destruct (key_star c0 d Hstar Ht0 Hk) as [Hc0 Heq].
    rewrite text_fixed. split.
    + unfold comparisonText in Heq. by rewrite Heq, Ht.
    + unfold fixed. by rewrite Hc0.
  - intros connections sw c Hc Ht.
    apply deduplicate_from in Hc as (c0 & _ & _ & ->).
    rewrite text_fixed in Ht. apply fixed_star. by rewrite Ht.
  - intros answers qw ql bypass data c Hfind Hcache Hc Ht.
    destruct (find_computed _ _ _ _ _ Hfind Hcache) as (candidates & _ & Hconn & _).
    rewrite Hconn in Hc. apply in_map_iff in Hc as (nc & <- & Hnc).
    apply mergeConnections_from in Hnc as (c0 & _ & _ & _ & ->).
    simpl in *. rewrite text_fixed in Ht. apply fixed_star. by rewrite Ht.
Qed.

Lemma proto_exemption_witness :
  startsWith (js "*akwa") (js "*") = true
  /\ map (fun d => (text (word d), language (word d))) protoCandidates
     = [ (js "*akwa", js "la") ]
  /\ (exists c, In c (deduplicateConnections protoCandidates (Some water))
                /\ toLowerCase (text (word c)) = toLowerCase (js "*akwa")
                /\ language (word c) = js "ine-pro")
  /\ (forall other,
        areSemanticallyUnrelated other (js "*akwa") = false
        /\ areSemanticallyUnrelated (js "*akwa") other = false
        /\ EtymonlineAPI.areSemanticallySuspicious (js "*akwa") other = false
        /\ EtymonlineAPI.areSemanticallySuspicious other (js "*akwa") = false)
  /\ (forall connections sourceWord d,
        In d connections -> text (word d) = js "*akwa" ->
        (forall sw, sourceWord = Some sw ->
           isSelfReference sw d = false
           /\ numberLt (confidence (relationship d)) (Num 0.4) = false) ->
        exists c, In c (deduplicateConnections connections sourceWord)
                  /\ toLowerCase (text (word c)) = toLowerCase (js "*akwa")
                  /\ language (word c) = js "ine-pro")
  /\ (forall connections sourceWord c,
        In c (deduplicateConnections connections sourceWord) ->
        text (word c) = js "*akwa" -> language (word c) = js "ine-pro")
  /\ (forall answers queryWord queryLanguage bypassCache data c,
        findEtymologicalConnections answers queryWord queryLanguage bypassCache
        = Returned data ->
        bypassCache = true \/ cached answers = None ->
        In c (connections data) ->
        text (Out.word c) = js "*akwa" -> language (Out.word c) = js "ine-pro").
Proof.
  pose proof (proto_exemption (js "*akwa") eq_refl) as H.
  split; [reflexivity|]. split; [vm_compute; reflexivity|].
  split; [|exact H].
  destruct H as (_ & H & _).
  assert (E : exists d, nth_error protoCandidates 0 = Some d
                        /\ text (word d) = js "*akwa"
                        /\ isSelfReference water d = false
                        /\ numberLt (confidence (relationship d)) (Num 0.4)
                           = false)
    by (vm_compute; eauto 10).
  destruct E as (d & Hd & Ht & H1 & H2).
  apply (H protoCandidates (Some water) d);
    [eapply nth_error_In; exact Hd|exact Ht|].
  intros sw Hsw. injection Hsw as <-. by split.
Defined.

End ProtoTheorems.

Module CompletionTheorems.
Import JS EtymologyService MergeSpec MergeFacts Examples.









End CompletionTheorems.

Module CognateTheorems.
Import JS EtymologyService MergeSpec Examples.

(** C10. Every connection the cognate generator contributes to a computed
    result is built from a cognate of the direct concept-table lookup, which
    has confidence 0.95 and carries its semantic field and concept; and the
    filter keeps no candidate of the sound-change rules, which have
    confidence 0.75 and carry neither. *)
Theorem cognates_from_direct_lookup (normalizedWord normalizedLanguage : jsstring)
  (conn : NormalizedConnection) :
  In conn (cognateConnections None normalizedWord normalizedLanguage) ->
  (exists cognate,
     In cognate
        (CognateService.findDirectCognates (trim (toLowerCase normalizedWord))
           normalizedLanguage cognateLanguages)
     /\ conn = cognateConnection normalizedWord cognate
     /\ CognateService.confidence cognate = 0.95%Q
     /\ truthy (CognateService.semanticField cognate) = true
     /\ truthy (CognateService.concept cognate) = true)
  /\ (forall candidate,
        In candidate
           (CognateService.applySoundChangeRules
              (trim (toLowerCase normalizedWord)) normalizedLanguage
              cognateLanguages) ->
        CognateService.confidence candidate = 0.75%Q
        /\ CognateService.semanticField candidate = None
        /\ CognateService.concept candidate = None
        /\ validCognates [candidate] normalizedWord normalizedLanguage = []).
Proof.
  intros H. split.
  - unfold cognateConnections, validCognates in H.
    apply in_map_iff in H as (cg & <- & H). apply filter_In in H as [H Hf].
    exists cg. apply CognateFacts.findCognates_In in H as [H|H].
    + destruct (CognateFacts.findDirectCognates_shape _ _ _ _ H) as [Hc _].
      split; [exact H|]. split; [reflexivity|]. split; [exact Hc|].
      destruct (Qltb _ _); [discriminate|].
      destruct (truthy (CognateService.semanticField cg)); [|discriminate].
      destruct (truthy (CognateService.concept cg)); [|discriminate]. done.
    + apply CognateFacts.applySoundChangeRules_shape in H as (Hc & _ & _).
      rewrite Hc in Hf. discriminate.
  - intros cand Hcand.
    apply CognateFacts.applySoundChangeRules_shape in Hcand as (Hc & Hf & Hk).
    repeat split; try done. unfold validCognates. simpl. by rewrite Hc.
Qed.

Lemma cognates_from_direct_lookup_witness :
  exists conn,
    In conn (cognateConnections None (js "water") (js "en"))
    /\ text (word conn) = js "eau"
    /\ (exists cognate,
          In cognate
             (CognateService.findDirectCognates (trim (toLowerCase (js "water")))
                (js "en") cognateLanguages)
          /\ conn = cognateConnection (js "water") cognate
          /\ CognateService.confidence cognate = 0.95%Q
          /\ truthy (CognateService.semanticField cognate) = true
          /\ truthy (CognateService.concept cognate) = true)
    /\ (forall candidate,
          In candidate
             (CognateService.applySoundChangeRules
                (trim (toLowerCase (js "water"))) (js "en") cognateLanguages) ->
          CognateService.confidence candidate = 0.75%Q
          /\ CognateService.semanticField candidate = None
          /\ CognateService.concept candidate = None
          /\ validCognates [candidate] (js "water") (js "en") = []).
Proof.
  eexists. split; [vm_compute; left; reflexivity|].
  split; [vm_compute; reflexivity|].
  apply (cognates_from_direct_lookup (js "water") (js "en")).
  vm_compute. left. reflexivity.
Defined.

End CognateTheorems.

(** ** The cross-reference index *)

Module CrossReferenceTheorems.
Import JS EtymonlineAPI JSFacts Examples.

Lemma filter_none {A : Type} (f : A -> bool) (l : list A) :
  (forall x, In x l -> f x = false) -> List.filter f l = [].
Proof.
  induction l as [|x l IH]; intros H; [reflexivity|]. simpl.
  rewrite (H x (or_introl eq_refl)). apply IH. intros y Hy. apply H. by right.
Qed.

Lemma potentialCognates_capped (relatedWords : list WordEntry)
  (sourceWord sharedRoot : jsstring) (cognate : CrossReferenceCognate) :
  In cognate (potentialCognates relatedWords sourceWord sharedRoot) ->
  (cr_confidence cognate <= 0.75)%Q.
Proof.
  unfold potentialCognates. intros H. apply in_map_iff in H as (entry & <- & _).
  simpl. apply Q.le_min_l.
Qed.

Lemma topCognates_empty (relatedWords : list WordEntry)
  (sourceWord sharedRoot : jsstring) :
  topCognates
    (validCognates (potentialCognates relatedWords sourceWord sharedRoot)
       sourceWord) = [].
Proof.
  unfold topCognates. rewrite filter_none; [reflexivity|].
  intros cognate H. unfold validCognates in H. apply filter_In in H as [H _].
  apply potentialCognates_capped in H. unfold Qgtb. by apply Qltb_ge.
Qed.

Lemma crossReferenceOf_adds_nothing (st : Index) (sourceWord : jsstring)
  (connection : EtymologyConnection) :
  snd (crossReferenceOf st sourceWord connection) = [].
Proof.
  unfold crossReferenceOf.
  destruct (orElse _ _) as [sharedRoot|]; [|reflexivity].
  destruct (negb (truthyStr sharedRoot)); [reflexivity|].
  destruct (etymologyDatabase st !! _) as [relatedWords|]; [|reflexivity].
  destruct (1 <? length relatedWords)%nat; [|reflexivity].
  destruct (0 <? length _)%nat; [|reflexivity].
  simpl. by rewrite topCognates_empty.
Qed.

(** C9, what the code does.  [enhanceWithCrossReferences] never adds a
    cross-reference cognate: the confidence of every potential cognate is
    capped at 0.75 and only those above 0.75 are taken, so the connections of
    the enhanced data are the parsed ones and the reverse edges of the
    shortened-forms sub-index, whatever the index holds. *)
Theorem cross_references_never_synthesized (st : Index)
  (etymologyData : EtymologyData) (sourceWord : jsstring) :
  connections (enhanceWithCrossReferences st etymologyData sourceWord)
  = connections etymologyData ++ reverseConnections st sourceWord.
Proof.
  unfold enhanceWithCrossReferences. simpl. f_equal.
  replace (flat_map snd (map (crossReferenceOf st sourceWord)
                           (connections etymologyData))) with
    (@nil EtymologyConnection); [reflexivity|].
  induction (connections etymologyData) as [|c l IH]; [reflexivity|].
  simpl. by rewrite crossReferenceOf_adds_nothing.
Qed.

(** C9 at the failing input: three words are indexed under the root key
    [*wed-], each with confidence 0.95; enhancing the data of "water" finds
    the two other members (listed in [crossReferences], with the capped
    confidence 0.75) and adds no connection to either. *)
Lemma cross_reference_cluster_adds_nothing :
  map we_word (default [] (etymologyDatabase wedIndex !! js "*wed-"))
  = [js "wet"; js "otter"; js "water"]
  /\ connections (enhanceWithCrossReferences wedIndex (fromRoot 0.95) (js "water"))
     = connections (fromRoot 0.95)
  /\ option_map
       (map (fun x => map (fun c => (cr_word c, cr_confidence c)) (cognateWords x)))
       (crossReferences
          (enhanceWithCrossReferences wedIndex (fromRoot 0.95) (js "water")))
     = Some [[(js "wet", 0.75%Q); (js "otter", 0.75%Q)]].
Proof. vm_compute. repeat split; reflexivity. Qed.

End CrossReferenceTheorems.

(** ** Facts about the patterns of [normalizeEtymologyKey] *)

Module KeyFacts.
Import JS PatternSpec EtymonlineAPI RegexFacts UnitFacts.













End KeyFacts.

(** ** The claim about the root key *)

Module KeyTheorems.
Import JS PatternSpec EtymonlineAPI RegexFacts UnitFacts KeyFacts.






End KeyTheorems.

(** * Further properties of the services

    ** The derivative filters and the root helpers *)

Module DerivativeFacts.
Import JS DedupFacts.

Lemma strEq_sym (s t : jsstring) : strEq s t = strEq t s.
Proof.
  destruct (strEq s t) eqn:E.
  - apply strEq_true in E. symmetry. by apply strEq_true.
  - apply strEq_false in E. symmetry. apply strEq_false. congruence.
Qed.

Lemma strEq_refl (s : jsstring) : strEq s s = true.
Proof. by apply strEq_true. Qed.

Lemma existsb_pointwise {A : Type} (f g : A -> bool) (l : list A) :
  (forall x, f x = g x) -> existsb f l = existsb g l.
Proof. intros H. induction l as [|x l IH]; simpl; [done|]. by rewrite H, IH. Qed.

(** [existsb] over a larger table, for a test that the larger table's test
    follows from. *)
Lemma existsb_incl {A : Type} (f g : A -> bool) (l1 l2 : list A) :
  (forall x, In x l1 -> In x l2) -> (forall x, f x = true -> g x = true) ->
  existsb f l1 = true -> existsb g l2 = true.
Proof.
  intros Hl Hf H. apply existsb_exists in H as (x & Hx & Hfx).
  apply existsb_exists. exists x. auto.
Qed.

Lemma arrayIncludes_In (l : list jsstring) (x : jsstring) :
  arrayIncludes l x = true <-> In x l.
Proof.
  unfold arrayIncludes. rewrite existsb_exists. split.
  - intros (y & Hy & E). apply strEq_true in E. by subst.
  - intros H. exists x. split; [done|apply strEq_refl].
Qed.

Lemma length_dropLast (n : nat) (s : jsstring) :
  length (dropLast n s) = (length s - n)%nat.
Proof. unfold dropLast. rewrite length_take. lia. Qed.

Lemma stripFirstEnding_shape (endings : list jsstring) (word : jsstring) :
  EtymologyUtils.stripFirstEnding endings word = word
  \/ exists k : nat,
       EtymologyUtils.stripFirstEnding endings word = take k word
       /\ (3 <= k)%nat /\ (k < length word)%nat.
Proof.
  induction endings as [|ending endings IH]; simpl; [by left|].
  destruct (endsWith word ending && _) eqn:E; [|exact IH].
  apply andb_true_iff in E as [He Hl]. apply Nat.ltb_lt in Hl.
  destruct ending as [|e ending'].
  - left. unfold dropLast. simpl. rewrite Nat.sub_0_r. apply firstn_all.
  - right. exists (length word - length (e :: ending'))%nat.
    split; [reflexivity|]. simpl in *. lia.
Qed.

End DerivativeFacts.

Module DerivativeTheorems.
Import JS DedupFacts DerivativeFacts.

Lemma prefixes_sym (l : list jsstring) (a b : jsstring) :
  existsb (fun prefix => strEq b (prefix ++ a) || strEq a (prefix ++ b)) l
  = existsb (fun prefix => strEq a (prefix ++ b) || strEq b (prefix ++ a)) l.
Proof. apply existsb_pointwise. intros x. apply orb_comm. Qed.

Lemma isTrivialDerivative_sym (a b lang : jsstring) :
  EtymologyService.isTrivialDerivative a b lang lang
  = EtymologyService.isTrivialDerivative b a lang lang.
Proof.
  unfold EtymologyService.isTrivialDerivative.
  rewrite (strEq_sym (trim (toLowerCase b))), strEq_refl. cbn [negb].
  rewrite (prefixes_sym _ (trim (toLowerCase b))).
  destruct (strEq _ _); [reflexivity|].
  repeat match goal with
         | |- context [existsb ?f ?l] =>
           let b := fresh "t" in set (b := existsb f l)
         end.
  by destruct t, t0, t1, t2, t3.
Qed.

Lemma isDerivative_sym (a b lang : jsstring) :
  CognateService.isDerivative a b lang lang
  = CognateService.isDerivative b a lang lang.
Proof.
  unfold CognateService.isDerivative.
  rewrite (strEq_sym (trim (toLowerCase b))), strEq_refl. cbn [negb].
  rewrite (prefixes_sym _ (trim (toLowerCase b))).
  destruct (strEq _ _); [reflexivity|].
  repeat match goal with
         | |- context [existsb ?f ?l] =>
           let b := fresh "t" in set (b := existsb f l)
         end.
  by destruct t, t0, t1.
Qed.

(** X1. Within one language neither derivative test depends on which of the
    two words is the query word: [isTrivialDerivative] of the merge engine
    and [isDerivative] of the cognate service run their inflection,
    derivation and prefix tests in both directions. *)
Theorem derivative_tests_symmetric (a b lang : jsstring) :
  EtymologyService.isTrivialDerivative a b lang lang
  = EtymologyService.isTrivialDerivative b a lang lang
  /\ CognateService.isDerivative a b lang lang
     = CognateService.isDerivative b a lang lang.
Proof. split; [apply isTrivialDerivative_sym|apply isDerivative_sym]. Qed.

Ltac in_table := simpl; repeat first [left; reflexivity | right].

Lemma basicInflections_incl (x : jsstring) :
  In x EtymologyService.basicInflections -> In x CognateService.derivationalSuffixes.
Proof.
  unfold EtymologyService.basicInflections. simpl.
  intros H. repeat destruct H as [<-|H]; [..|done];
    unfold CognateService.derivationalSuffixes; in_table.
Qed.

Lemma clearDerivatives_incl (x : jsstring) :
  In x EtymologyService.clearDerivatives -> In x CognateService.derivationalSuffixes.
Proof.
  unfold EtymologyService.clearDerivatives. simpl.
  intros H. repeat destruct H as [<-|H]; [..|done];
    unfold CognateService.derivationalSuffixes; in_table.
Qed.

Lemma basicPrefixes_incl (x : jsstring) :
  In x EtymologyService.basicPrefixes -> In x CognateService.derivationalPrefixes.
Proof.
  unfold EtymologyService.basicPrefixes. simpl.
  intros H. repeat destruct H as [<-|H]; [..|done];
    unfold CognateService.derivationalPrefixes; in_table.
Qed.

Lemma plain_suffix_inflects (a b suffix : jsstring) :
  strEq b (a ++ suffix) = true -> CognateService.inflects a b suffix = true.
Proof. unfold CognateService.inflects. by intros ->. Qed.

(** X2. The merge engine's filter is the narrower of the two derivative
    tests: whatever [isTrivialDerivative] drops, [isDerivative] of the cognate
    service calls a derivative too (its suffix and prefix tables contain the
    merge engine's, and the cross-language test is shared). *)
Theorem trivial_derivative_is_derivative (a b sourceLang targetLang : jsstring) :
  EtymologyService.isTrivialDerivative a b sourceLang targetLang = true ->
  CognateService.isDerivative a b sourceLang targetLang = true.
Proof.
  unfold EtymologyService.isTrivialDerivative, CognateService.isDerivative.
  destruct (strEq (trim (toLowerCase a)) (trim (toLowerCase b))); [done|].
  destruct (negb (strEq sourceLang targetLang)); [done|].
  set (s := trim (toLowerCase a)). set (t := trim (toLowerCase b)).
  intros H.
  assert (Hfwd : existsb (EtymologyService.inflects s t)
                   EtymologyService.basicInflections = true
                 \/ existsb (fun suffix => strEq t (s ++ suffix))
                      EtymologyService.clearDerivatives = true ->
                 existsb (CognateService.inflects s t)
                   CognateService.derivationalSuffixes = true).
  { intros [H1|H1].
    - eapply existsb_incl; [apply basicInflections_incl| |exact H1].
      intros x Hx. exact Hx.
    - eapply existsb_incl; [apply clearDerivatives_incl| |exact H1].
      intros x. apply plain_suffix_inflects. }
  assert (Hbwd : existsb (EtymologyService.inflects t s)
                   EtymologyService.basicInflections = true
                 \/ existsb (fun suffix => strEq s (t ++ suffix))
                      EtymologyService.clearDerivatives = true ->
                 existsb (CognateService.inflects t s)
                   CognateService.derivationalSuffixes = true).
  { intros [H1|H1].
    - eapply existsb_incl; [apply basicInflections_incl| |exact H1].
      intros x Hx. exact Hx.
    - eapply existsb_incl; [apply clearDerivatives_incl| |exact H1].
      intros x. apply plain_suffix_inflects. }
  destruct (existsb (EtymologyService.inflects s t) _) eqn:E1;
    [by rewrite Hfwd; [|left]|].
  destruct (existsb (fun suffix => strEq t (s ++ suffix)) _) eqn:E2;
    [by rewrite Hfwd; [|right]|].
  destruct (existsb (CognateService.inflects s t) _); [done|].
  destruct (existsb (EtymologyService.inflects t s) _) eqn:E3;
    [by rewrite Hbwd; [|left]|].
  destruct (existsb (fun suffix => strEq s (t ++ suffix)) _) eqn:E4;
    [by rewrite Hbwd; [|right]|].
  destruct (existsb (CognateService.inflects t s) _); [done|].
  eapply existsb_incl; [apply basicPrefixes_incl| |exact H].
  intros x Hx. exact Hx.
Qed.

Lemma trivial_derivative_is_derivative_witness :
  EtymologyService.isTrivialDerivative (js "happy") (js "Happiness ")
    (js "en") (js "en") = false
  /\ EtymologyService.isTrivialDerivative (js "kind") (js "Kindness ")
       (js "en") (js "en") = true
  /\ CognateService.isDerivative (js "kind") (js "Kindness ")
       (js "en") (js "en") = true.
Proof.
  split; [vm_compute; reflexivity|]. split; [vm_compute; reflexivity|].
  apply (trivial_derivative_is_derivative (js "kind") (js "Kindness ")
           (js "en") (js "en")).
  vm_compute. reflexivity.
Defined.

(** X3. [getRomanceRoot] and [getGermanicRoot] return the word itself or a
    proper prefix of it that keeps at least three code units: an ending is
    never cut off a word of fewer than three more code units. *)
Theorem roots_keep_three_letters (word : jsstring) :
  (EtymologyUtils.getRomanceRoot word = word
   \/ exists k : nat,
        EtymologyUtils.getRomanceRoot word = take k word
        /\ (3 <= k)%nat /\ (k < length word)%nat)
  /\ (EtymologyUtils.getGermanicRoot word = word
      \/ exists k : nat,
           EtymologyUtils.getGermanicRoot word = take k word
           /\ (3 <= k)%nat /\ (k < length word)%nat).
Proof. split; apply stripFirstEnding_shape. Qed.

Lemma countDifferences_sym (maxDiff : nat) (r1 : jsstring) :
  forall differences r2,
    EtymologyUtils.countDifferences maxDiff differences r1 r2
    = EtymologyUtils.countDifferences maxDiff differences r2 r1.
Proof.
  induction r1 as [|a r1 IH]; intros differences [|b r2]; simpl; try reflexivity.
  rewrite (N.eqb_sym b a).
  destruct (negb (a =? b)); [|apply IH].
  destruct (maxDiff <? S differences)%nat; [reflexivity|apply IH].
Qed.

(** X4. [areRootsRelated] is a symmetric and reflexive relation on roots. *)
Theorem areRootsRelated_symmetric (root1 root2 : jsstring) :
  EtymologyUtils.areRootsRelated root1 root2
  = EtymologyUtils.areRootsRelated root2 root1
  /\ EtymologyUtils.areRootsRelated root1 root1 = true.
Proof.
  unfold EtymologyUtils.areRootsRelated. split; [|by rewrite strEq_refl].
  rewrite (strEq_sym root2 root1). destruct (strEq root1 root2); [reflexivity|].
  replace (Z.abs (Z.of_nat (length root2) - Z.of_nat (length root1)))
    with (Z.abs (Z.of_nat (length root1) - Z.of_nat (length root2))) by lia.
  destruct (2 <? _)%Z; [reflexivity|].
  rewrite (Nat.min_comm (length root2)). apply countDifferences_sym.
Qed.

(** X5. A connection into a language that is neither Romance nor Germanic
    (a proto-language, Latin, Greek, ...) is dropped by the merge engine's
    derivative filter only when its text is the query word's, up to case and
    surrounding white space. *)
Theorem foreign_target_trivial_only_if_same_text
  (sourceText targetText sourceLang targetLang : jsstring) :
  sourceLang <> targetLang ->
  arrayIncludes EtymologyUtils.romanceLanguages targetLang = false ->
  arrayIncludes EtymologyUtils.germanicLanguages targetLang = false ->
  EtymologyService.isTrivialDerivative sourceText targetText sourceLang targetLang
  = strEq (trim (toLowerCase sourceText)) (trim (toLowerCase targetText)).
Proof.
  intros Hne Hr Hg. unfold EtymologyService.isTrivialDerivative.
  destruct (strEq (trim _) (trim _)); [reflexivity|].
  apply strEq_false in Hne. rewrite Hne. cbn [negb].
  unfold EtymologyService.isCrossLanguageDerivative,
    EtymologyUtils.isCrossLanguageDerivative.
  rewrite Hr, Hg. by rewrite !andb_false_r.
Qed.

Lemma foreign_target_trivial_only_if_same_text_witness :
  EtymologyService.isTrivialDerivative (js "water") (js "*wed-")
    (js "en") (js "ine-pro") = false
  /\ EtymologyService.isTrivialDerivative (js "aqua") (js " Aqua")
       (js "en") (js "la") = true.
Proof.
  split.
  - rewrite (foreign_target_trivial_only_if_same_text (js "water") (js "*wed-")
               (js "en") (js "ine-pro"));
      [reflexivity|vm_compute; discriminate|reflexivity|reflexivity].
  - rewrite (foreign_target_trivial_only_if_same_text (js "aqua") (js " Aqua")
               (js "en") (js "la"));
      [reflexivity|vm_compute; discriminate|reflexivity|reflexivity].
Defined.

End DerivativeTheorems.

(** ** The validators of a connection *)

Module ValidatorFacts.
Import JS DedupFacts DerivativeFacts.

Lemma pairs_sym (l : list (jsstring * jsstring)) (a b : jsstring) :
  existsb (fun pair =>
    (strEq a (fst pair) && strEq b (snd pair))
    || (strEq a (snd pair) && strEq b (fst pair))) l
  = existsb (fun pair =>
    (strEq b (fst pair) && strEq a (snd pair))
    || (strEq b (snd pair) && strEq a (fst pair))) l.
Proof.
  apply existsb_pointwise. intros x.
  by destruct (strEq a (fst x)), (strEq b (snd x)), (strEq a (snd x)),
    (strEq b (fst x)).
Qed.

(** Singletons, as [[...s]] yields them for a string of BMP letters. *)
Lemma includes_unit (s : jsstring) (c : N) : includes s [c] = true <-> In c s.
Proof.
  induction s as [|d s IH]; simpl; [split; [discriminate|done]|].
  rewrite orb_true_iff, IH, andb_true_iff. split.
  - intros [[E _]|H]; [left; symmetry; by apply N.eqb_eq|by right].
  - intros [->|H]; [left; split; [apply N.eqb_refl|by destruct s]|by right].
Qed.

Lemma spread_letters (s : jsstring) :
  Forall (fun c => isLower c = true) s -> spread s = map (fun c => [c]) s.
Proof.
  induction 1 as [|c s Hc Hs IH]; [reflexivity|].
  cbn [spread map]. destruct s as [|d s']; [reflexivity|].
  replace (between 55296 56319 c) with false; [cbn [andb]; by rewrite IH|].
  unfold isLower, between in *. apply andb_true_iff in Hc as [_ H].
  apply N.leb_le in H. symmetry. apply andb_false_iff. left.
  apply N.leb_gt. lia.
Qed.

Lemma distinct_In (l : list jsstring) (x : jsstring) :
  In x (distinct l) <-> In x l.
Proof.
  induction l as [|y l IH]; simpl; [done|].
  destruct (arrayIncludes l y) eqn:E.
  - rewrite IH. split; [by right|]. intros [<-|H]; [|done].
    by apply arrayIncludes_In.
  - simpl. by rewrite IH.
Qed.

Lemma distinct_NoDup (l : list jsstring) : List.NoDup (distinct l).
Proof.
  induction l as [|y l IH]; simpl; [constructor|].
  destruct (arrayIncludes l y) eqn:E; [done|].
  constructor; [|done]. rewrite distinct_In. intros H.
  apply arrayIncludes_In in H. congruence.
Qed.

Lemma clean_letters (w : jsstring) :
  Forall (fun c => isLower c = true) (EtymologyService.clean w).
Proof.
  unfold EtymologyService.clean. apply List.Forall_forall. intros c H.
  by apply filter_In in H as [_ H].
Qed.

(** The code points two cleaned words share, counted from either side. *)
Lemma common_letters_sym (a b : jsstring) :
  Forall (fun c => isLower c = true) a -> Forall (fun c => isLower c = true) b ->
  length (distinct (List.filter (fun char => includes b char) (spread a)))
  = length (distinct (List.filter (fun char => includes a char) (spread b))).
Proof.
  intros Ha Hb. apply Permutation_length. apply NoDup_Permutation.
  - apply distinct_NoDup.
  - apply distinct_NoDup.
  - intros x. rewrite !distinct_In, !filter_In, (spread_letters a Ha),
      (spread_letters b Hb), !in_map_iff. split.
    + intros [(c & <- & Hc) H]. apply includes_unit in H. split.
      * by exists c.
      * by apply includes_unit.
    + intros [(c & <- & Hc) H]. apply includes_unit in H. split.
      * by exists c.
      * by apply includes_unit.
Qed.

Lemma similarity_sym (a b : jsstring) :
  Forall (fun c => isLower c = true) a -> Forall (fun c => isLower c = true) b ->
  EtymologyService.similarity a b = EtymologyService.similarity b a.
Proof.
  intros Ha Hb. unfold EtymologyService.similarity.
  by rewrite (common_letters_sym a b Ha Hb), (Nat.max_comm (length a)).
Qed.

Lemma lengthGap_sym (a b : jsstring) :
  EtymologyService.lengthGap a b = EtymologyService.lengthGap b a.
Proof. unfold EtymologyService.lengthGap. lia. Qed.

End ValidatorFacts.

Module ValidatorTheorems.
Import JS DedupFacts DerivativeFacts ValidatorFacts.

Lemma areSemanticallyUnrelated_sym (word1 word2 : jsstring) :
  EtymologyService.areSemanticallyUnrelated word1 word2
  = EtymologyService.areSemanticallyUnrelated word2 word1.
Proof.
  unfold EtymologyService.areSemanticallyUnrelated.
  rewrite (pairs_sym _ (toLowerCase word2)).
  repeat match goal with
         | |- context [arrayIncludes ?l ?x] =>
           let b := fresh "t" in set (b := arrayIncludes l x)
         end.
  set (p := existsb _ _).
  destruct (startsWith word1 _), (startsWith word2 _); try reflexivity.
  destruct (includes (toLowerCase word1) _), (includes (toLowerCase word2) _);
    try reflexivity.
  cbn [orb]. by destruct t, t0, t1, t2, t3, t4.
Qed.

Lemma areSemanticallySuspicious_sym (word sourceWord : jsstring) :
  EtymonlineAPI.areSemanticallySuspicious word sourceWord
  = EtymonlineAPI.areSemanticallySuspicious sourceWord word.
Proof.
  unfold EtymonlineAPI.areSemanticallySuspicious.
  rewrite (pairs_sym _ (toLowerCase sourceWord)).
  repeat match goal with
         | |- context [arrayIncludes ?l ?x] =>
           let b := fresh "t" in set (b := arrayIncludes l x)
         end.
  set (p := existsb _ _).
  destruct (startsWith (toLowerCase word) _),
    (startsWith (toLowerCase sourceWord) _);
    by destruct t, t0, t1, t2, t3, t4.
Qed.

(** X6. The two semantic filters are symmetric: whether two words belong to
    conflicting basic categories does not depend on which one is the query
    word, for [areSemanticallyUnrelated] of the merge engine and for
    [areSemanticallySuspicious] of the etymonline extractor. *)
Theorem semantic_filters_symmetric (word1 word2 : jsstring) :
  EtymologyService.areSemanticallyUnrelated word1 word2
  = EtymologyService.areSemanticallyUnrelated word2 word1
  /\ EtymonlineAPI.areSemanticallySuspicious word1 word2
     = EtymonlineAPI.areSemanticallySuspicious word2 word1.
Proof.
  split; [apply areSemanticallyUnrelated_sym|apply areSemanticallySuspicious_sym].
Qed.

(** X7. [areLanguageCompatible] is symmetric in the two languages. *)
Theorem areLanguageCompatible_symmetric (lang1 lang2 connectionType : jsstring) :
  EtymologyService.areLanguageCompatible lang1 lang2 connectionType
  = EtymologyService.areLanguageCompatible lang2 lang1 connectionType.
Proof.
  unfold EtymologyService.areLanguageCompatible.
  repeat match goal with
         | |- context [arrayIncludes ?l ?x] =>
           let b := fresh "t" in set (b := arrayIncludes l x)
         end.
  destruct (includes lang1 _), (includes lang2 _), (strEq lang1 _),
    (strEq lang2 _); try reflexivity.
  cbn [orb]. destruct (_ || _); [reflexivity|].
  by destruct t, t0, t1, t2, t3, t4.
Qed.

(** X8. [isSuspiciousCognate] is symmetric: the share of common letters and
    the length gap of the two cleaned words are the same from either side. *)
Theorem isSuspiciousCognate_symmetric (word1 word2 lang1 lang2 : jsstring) :
  EtymologyService.isSuspiciousCognate word1 word2 lang1 lang2
  = EtymologyService.isSuspiciousCognate word2 word1 lang2 lang1.
Proof.
  unfold EtymologyService.isSuspiciousCognate.
  rewrite (strEq_sym lang2 lang1), (lengthGap_sym (EtymologyService.clean word2)).
  by rewrite (similarity_sym _ _ (clean_letters word1) (clean_letters word2)).
Qed.

End ValidatorTheorems.

(** ** The deduplication loop and the order of the result, continued *)

Module DedupMoreFacts.
Import JS EtymologyService MergeSpec ResultSpec JSFacts DedupFacts MergeFacts.

Lemma fixed_idem (c : NormalizedConnection) : fixed (fixed c) = fixed c.
Proof.
  unfold fixed at 1. rewrite comparisonText_fixed.
  unfold fixed. by destruct (startsWith (comparisonText c) (js "*")).
Qed.

Lemma comparisonLang_fixed (c : NormalizedConnection) :
  comparisonLang (fixed c) = comparisonLang c.
Proof.
  unfold comparisonLang. rewrite comparisonText_fixed.
  unfold fixed. by destruct (startsWith (comparisonText c) (js "*")) eqn:E.
Qed.

Lemma survives_fixed (sw : option Word) (c : NormalizedConnection) :
  survives sw (fixed c) = survives sw c.
Proof.
  unfold survives, isSelfReference.
  by rewrite text_fixed, comparisonText_fixed, comparisonLang_fixed, fixed_idem.
Qed.

Lemma imap_pair_snd {A : Type} (l : list A) : forall k,
  map snd (imap (fun i x => ((k + i)%nat, x)) l) = l.
Proof.
  induction l as [|x l IH]; intros k; [reflexivity|].
  simpl. f_equal. rewrite <- (IH (S k)) at 2. f_equal.
  apply imap_ext. intros i y _. simpl. f_equal. lia.
Qed.

Lemma map_snd_imap_pair {A : Type} (l : list A) : map snd (imap pair l) = l.
Proof. exact (imap_pair_snd l 0). Qed.

(** The loop on candidates that all survive, are fixed already and have keys
    of their own: every one is pushed. *)
Lemma fold_distinct (sw : option Word) (items : list (nat * NormalizedConnection)) :
  forall seen result,
    (forall item, In item items ->
       survives sw (snd item) = true /\ fixed (snd item) = snd item
       /\ seen !! dedupKey (snd item) = None) ->
    List.NoDup (map (fun item => dedupKey (snd item)) items) ->
    snd (fold_left (dedupStep sw) items (seen, result)) = result ++ items.
Proof.
  induction items as [|item items IH]; intros seen result Hall Hnd.
  - simpl. by rewrite app_nil_r.
  - simpl in Hnd. apply List.NoDup_cons_iff in Hnd as [Hk Hnd].
    destruct (Hall item (or_introl eq_refl)) as (Hs & Hf & Hl).
    cbn [fold_left]. rewrite dedupStep_eq, Hs, Hl, Hf.
    rewrite IH.
    + destruct item. simpl. by rewrite <- app_assoc.
    + intros it Hit. destruct (Hall it (or_intror Hit)) as (Hs' & Hf' & Hl').
      split; [done|]. split; [done|].
      rewrite lookup_insert_ne; [done|].
      intros E. apply Hk. rewrite E.
      by apply (in_map (fun item => dedupKey (snd item))).
    + exact Hnd.
Qed.

Lemma NoDup_map_In_inj {A B : Type} (f : A -> B) (l : list A) (x y : A) :
  NoDup (map f l) -> In x l -> In y l -> f x = f y -> x = y.
Proof.
  induction l as [|z l IH]; [done|]. simpl. intros Hnd Hx Hy E.
  apply NoDup_cons in Hnd as [Hz Hnd].
  destruct Hx as [->|Hx], Hy as [->|Hy]; [done| | |by apply IH].
  - exfalso. apply Hz. rewrite E. by apply list_elem_of_In, in_map.
  - exfalso. apply Hz. rewrite <- E. by apply list_elem_of_In, in_map.
Qed.

(** The priority and the source tag of the collected connections. *)
Lemma setProvenance_provenance (p s : jsstring) (q : number)
  (c : NormalizedConnection) :
  provenance (setProvenance p s q c) = (Some p, Some s).
Proof. reflexivity. Qed.

Lemma collect_provenance (answers : Answers) (sw : Word) (w l : jsstring)
  (candidates : list NormalizedConnection) (c : NormalizedConnection) :
  collectConnections answers sw w l = Returned candidates ->
  In c candidates -> In (provenance c) provenances.
Proof.
  unfold collectConnections.
  destruct (etymonlineConnections sw (etymonlineResult answers))
    as [fromEtymonline|e] eqn:Ee; [|discriminate].
  destruct (wiktionaryConnections sw (wiktionaryResult answers))
    as [fromWiktionary|e] eqn:Ew; [|discriminate].
  intros H. injection H as <-. rewrite !in_app_iff.
  intros [H|[H|[H|H]]].
  - unfold etymonlineConnections in Ee.
    destruct (etymonlineResult answers ≫= e_connections) as [cs|].
    + destruct (forEach_In _ _ _ _ Ee H) as (raw & ys & _ & Hb & Hy).
      destruct (normalizeConnection sw raw) as [[n|]|]; [| |discriminate];
        injection Hb as <-; [|destruct Hy].
      destruct Hy as [<-|[]]. by left.
    + injection Ee as <-. destruct H.
  - unfold wiktionaryConnections in Ew.
    destruct (wiktionaryResult answers ≫= w_connections) as [cs|].
    + destruct (forEach_In _ _ _ _ Ew H) as (raw & ys & _ & Hb & Hy).
      destruct (normalizeConnection sw raw) as [[n|]|]; [| |discriminate];
        injection Hb as <-; [|destruct Hy].
      destruct Hy as [<-|[]]. right. by left.
    + injection Ew as <-. destruct H.
  - unfold dictionaryConnections in H.
    destruct (dictionaryResult answers ≫= d_origin) as [o|]; [|done].
    destruct (0 <? length (trim o))%nat; [|done].
    apply in_map_iff in H as (c0 & <- & _). right. right. by left.
  - unfold cognateConnections in H.
    apply in_map_iff in H as (c0 & <- & _). right. right. right. by left.
Qed.

Lemma provenance_fixed (c : NormalizedConnection) :
  provenance (fixed c) = provenance c.
Proof. unfold provenance. by rewrite relationship_fixed. Qed.

Lemma provenance_tier (c : NormalizedConnection) :
  In (provenance c) provenances ->
  sourceTier (Out.source (publish c)) = tier c.
Proof.
  unfold provenance, provenances, tier, publish. simpl.
  intros [H|[H|[H|[H|[]]]]]; injection H as <- <-; reflexivity.
Qed.

Lemma StronglySorted_map_In {A B : Type} (R : A -> A -> Prop) (R' : B -> B -> Prop)
  (f : A -> B) (l : list A) :
  (forall a b, In a l -> In b l -> R a b -> R' (f a) (f b)) ->
  StronglySorted R l -> StronglySorted R' (map f l).
Proof.
  intros H Hs. induction Hs as [|x l Hs IH Hx]; simpl; constructor.
  - apply IH. intros a b Ha Hb. apply H; by right.
  - apply List.Forall_forall. intros y Hy.
    apply in_map_iff in Hy as (b & <- & Hb).
    apply H; [by left|by right|].
    by apply (proj1 (List.Forall_forall _ _) Hx).
Qed.

End DedupMoreFacts.

Module DedupTheorems.
Import JS EtymologyService MergeSpec ResultSpec JSFacts DedupFacts MergeFacts.
Import DedupMoreFacts Examples.

(** X9. [deduplicateConnections] is idempotent: what it returns has passed
    the validity test, carries its repaired language and has a key of its
    own, so a second run (for the same query word) keeps every connection,
    in the same order. *)
Theorem deduplicateConnections_idempotent
  (connections : list NormalizedConnection) (sourceWord : option Word) :
  deduplicateConnections (deduplicateConnections connections sourceWord) sourceWord
  = deduplicateConnections connections sourceWord.
Proof.
  set (out := deduplicateConnections connections sourceWord).
  unfold deduplicateConnections at 1.
  rewrite fold_distinct.
  - apply map_snd_imap_pair.
  - intros [r c] Hin. apply imap_pair_In in Hin. simpl.
    apply deduplicate_from in Hin as (c0 & _ & Hs & ->).
    by rewrite survives_fixed, fixed_idem, lookup_empty.
  - rewrite <- (map_map snd dedupKey), map_snd_imap_pair.
    apply NoDup_ListNoDup, deduplicate_keys.
Qed.

(** X10. Nothing is lost but by a collision: every candidate that passes the
    loop's tests has exactly one representative in the result, the connection
    kept under its deduplication key. *)
Theorem survivor_represented_once (connections : list NormalizedConnection)
  (sourceWord : option Word) (d : NormalizedConnection) :
  In d connections -> survives sourceWord d = true ->
  exists c, In c (deduplicateConnections connections sourceWord)
    /\ dedupKey c = dedupKey d
    /\ forall c', In c' (deduplicateConnections connections sourceWord) ->
                  dedupKey c' = dedupKey d -> c' = c.
Proof.
  intros Hd Hs.
  destruct (deduplicate_covers sourceWord connections d Hd Hs) as (c & Hc & Hk & _).
  exists c. split; [exact Hc|]. split; [exact Hk|].
  intros c' Hc' Hk'.
  apply (NoDup_map_In_inj dedupKey _ c' c (deduplicate_keys sourceWord connections));
    [done|done|congruence].
Qed.

Lemma survivor_represented_once_witness :
  exists d, In d aquaCandidates /\ survives (Some water) d = true
    /\ exists c, In c (deduplicateConnections aquaCandidates (Some water))
         /\ dedupKey c = dedupKey d
         /\ forall c', In c' (deduplicateConnections aquaCandidates (Some water)) ->
                       dedupKey c' = dedupKey d -> c' = c.
Proof.
  assert (E : exists d, nth_error aquaCandidates 0 = Some d)
    by (vm_compute; eauto).
  destruct E as [d Hd]. exists d.
  assert (Hin : In d aquaCandidates) by (eapply nth_error_In; exact Hd).
  assert (Hs : survives (Some water) d = true).
  { vm_compute in Hd. injection Hd as <-. vm_compute. reflexivity. }
  split; [exact Hin|]. split; [exact Hs|].
  exact (survivor_represented_once aquaCandidates (Some water) d Hin Hs).
Defined.

(** X11. The result is grouped by source: the connections of etymonline come
    first, those of wiktionary and of the cognate generator (published as
    [unknown]) next, those read from the dictionary's origin sentence last. *)
Theorem result_grouped_by_source (answers : Answers)
  (queryWord queryLanguage : option jsstring) (bypassCache : bool)
  (data : EtymologyData) :
  findEtymologicalConnections answers queryWord queryLanguage bypassCache
  = Returned data ->
  bypassCache = true \/ cached answers = None ->
  StronglySorted
    (fun a b => (sourceTier (Out.source b) <= sourceTier (Out.source a))%Z)
    (connections data)
  /\ forall c, In c (connections data) ->
       In (Out.source c)
          [js "etymonline.com"; js "wiktionary"; js "dictionary-api"; js "unknown"].
Proof.
  intros Hfind Hcache.
  destruct (find_computed _ _ _ _ _ Hfind Hcache) as (candidates & Hcoll & -> & _).
  set (sw := sourceWord data) in *.
  assert (Hprov : forall c, In c (mergeConnections candidates sw) ->
                            In (provenance c) provenances).
  { intros c Hc. apply mergeConnections_from in Hc as (c0 & H0 & _ & _ & ->).
    rewrite provenance_fixed. by apply (collect_provenance _ _ _ _ _ _ Hcoll). }
  split.
  - apply (StronglySorted_map_In notBelow); [|apply arraySort_notBelow].
    intros a b Ha Hb Hab.
    rewrite (provenance_tier a (Hprov a Ha)), (provenance_tier b (Hprov b Hb)).
    unfold notBelow in Hab. lia.
  - intros c Hc. apply in_map_iff in Hc as (c0 & <- & Hc0).
    specialize (Hprov c0 Hc0). unfold provenance, provenances, publish in *.
    simpl in *.
    destruct Hprov as [H|[H|[H|[H|[]]]]]; injection H as _ <-; simpl; tauto.
Qed.

Lemma result_grouped_by_source_witness :
  exists data,
    findEtymologicalConnections waterAnswers (Some (js "water")) None false
    = Returned data
    /\ StronglySorted
         (fun a b => (sourceTier (Out.source b) <= sourceTier (Out.source a))%Z)
         (connections data)
    /\ forall c, In c (connections data) ->
         In (Out.source c)
            [js "etymonline.com"; js "wiktionary"; js "dictionary-api";
             js "unknown"].
Proof.
  eexists. split; [reflexivity|].
  apply (result_grouped_by_source waterAnswers (Some (js "water")) None false).
  - reflexivity.
  - right. reflexivity.
Defined.

End DedupTheorems.

(** ** Normalizing a candidate *)

Module StringFacts.
Import JS TextSpec.

Lemma trimStart_headOk (s : jsstring) : headOk (trimStart s).
Proof.
  induction s as [|c s IH]; simpl; [done|].
  destruct (isWhiteSpace c) eqn:E; [exact IH|exact E].
Qed.

Lemma trimStart_fix (s : jsstring) : headOk s -> trimStart s = s.
Proof. destruct s as [|c s]; simpl; [done|]. by intros ->. Qed.

Lemma trimStart_snoc (l : jsstring) (c : N) :
  isWhiteSpace c = false -> exists l', trimStart (l ++ [c]) = l' ++ [c].
Proof.
  intros Hc. induction l as [|d l IH]; simpl.
  - rewrite Hc. by exists [].
  - destruct (isWhiteSpace d); [exact IH|]. by exists (d :: l).
Qed.

Lemma trimEnd_headOk (s : jsstring) : headOk s -> headOk (trimEnd s).
Proof.
  destruct s as [|c s]; [done|]. simpl. intros Hc. unfold trimEnd. simpl.
  destruct (trimStart_snoc (rev s) c Hc) as [l' ->].
  by rewrite rev_app_distr.
Qed.

Lemma trimEnd_idem (s : jsstring) : trimEnd (trimEnd s) = trimEnd s.
Proof.
  unfold trimEnd. rewrite rev_involutive.
  by rewrite (trimStart_fix _ (trimStart_headOk _)).
Qed.

Lemma trim_idem (s : jsstring) : trim (trim s) = trim s.
Proof.
  unfold trim.
  rewrite (trimStart_fix (trimEnd (trimStart s))).
  - apply trimEnd_idem.
  - apply trimEnd_headOk, trimStart_headOk.
Qed.

Lemma trimStart_nil (s : jsstring) : s = [] -> trimStart s = [].
Proof. by intros ->. Qed.

Lemma trim_nonempty (s : jsstring) : trim s <> [] -> s <> [].
Proof. intros H ->. by apply H. Qed.

Lemma startsWith_app (p s : jsstring) : startsWith (p ++ s) p = true.
Proof.
  induction p as [|a p IH]; simpl; [by destruct s|].
  by rewrite N.eqb_refl.
Qed.

Lemma includes_here (s p : jsstring) : startsWith s p = true -> includes s p = true.
Proof. intros H. destruct s; simpl in *; by rewrite H. Qed.

Lemma includes_app_r (a s p : jsstring) :
  includes s p = true -> includes (a ++ s) p = true.
Proof.
  intros H. induction a as [|c a IH]; [exact H|].
  simpl. rewrite IH. apply orb_true_r.
Qed.

Lemma includes_infix (a p b : jsstring) : includes (a ++ p ++ b) p = true.
Proof. apply includes_app_r, includes_here, startsWith_app. Qed.

Lemma includes_suffix (a p : jsstring) : includes (a ++ p) p = true.
Proof.
  apply includes_app_r, includes_here.
  rewrite <- (app_nil_r p) at 1. apply startsWith_app.
Qed.

Lemma toLowerCase_app (a b : jsstring) :
  toLowerCase (a ++ b) = toLowerCase a ++ toLowerCase b.
Proof. apply map_app. Qed.

Lemma toLowerCase_nonempty (s : jsstring) : s <> [] -> toLowerCase s <> [].
Proof. by destruct s. Qed.

Lemma orStr_nonempty (a : option jsstring) (b : jsstring) :
  b <> [] -> orStr a b <> [].
Proof. intros Hb. unfold orStr. destruct a as [[|c s]|]; simpl; done. Qed.

Lemma truthyStr_nonempty (s : jsstring) : truthyStr s = true <-> s <> [].
Proof. by destruct s. Qed.

End StringFacts.

Module NormalizeTheorems.
Import JS EtymologyService MergeSpec JSFacts DedupFacts UnitFacts StringFacts Examples.

Lemma ensureRootInNotes_includes (notes : option jsstring)
  (sharedRoot : jsstring) :
  trim sharedRoot <> [] ->
  exists n, ensureRootInNotes notes sharedRoot = Some n
    /\ includes (toLowerCase n) (toLowerCase (trim sharedRoot)) = true.
Proof.
  intros Hr. unfold ensureRootInNotes.
  destruct sharedRoot as [|c r]; [done|]. cbn [truthyStr negb].
  destruct (trim (c :: r)) as [|d t] eqn:E; [done|]. cbn [length Nat.eqb].
  destruct notes as [n|].
  - destruct (includes (toLowerCase n) (toLowerCase (d :: t))) eqn:Hi.
    + by exists n.
    + destruct (negb (truthyStr n)).
      * eexists. split; [reflexivity|].
        rewrite toLowerCase_app. apply includes_suffix.
      * eexists. split; [reflexivity|].
        rewrite !toLowerCase_app.
        apply includes_app_r. apply includes_infix.
  - eexists. split; [reflexivity|].
    rewrite toLowerCase_app. apply includes_suffix.
Qed.

(** X12. [ensureRootInNotes] does what its name says: for a root that is not
    blank, the notes it returns exist and mention the trimmed root, up to
    case. *)
Theorem ensureRootInNotes_mentions_root (notes : option jsstring)
  (sharedRoot : jsstring) :
  trim sharedRoot <> [] ->
  exists n, ensureRootInNotes notes sharedRoot = Some n
    /\ includes (toLowerCase n) (toLowerCase (trim sharedRoot)) = true.
Proof. apply ensureRootInNotes_includes. Qed.

Lemma ensureRootInNotes_mentions_root_witness :
  exists n,
    ensureRootInNotes (Some (js "From the Latin")) (js " Latin AQUA ") = Some n
    /\ includes (toLowerCase n) (toLowerCase (trim (js " Latin AQUA "))) = true.
Proof.
  apply (ensureRootInNotes_mentions_root (Some (js "From the Latin"))
           (js " Latin AQUA ")).
  vm_compute. discriminate.
Defined.

(** X13. [normalizeConnection] returns [null] exactly for a candidate without
    a word or whose text is missing, empty or blank.  For a candidate with a
    text whose language is truthy and no string it throws a [TypeError].
    Otherwise it hands on the trimmed text, a language code that is
    lower-case and not empty, the inferred root as [sharedRoot], an [origin],
    and notes that mention the root whenever the root is not blank. *)
Theorem normalizeConnection_result (sourceWord : Word)
  (connection : option Raw.Connection) :
  match normalizeConnection sourceWord connection with
  | Returned None =>
    trim (default [] ((connection ≫= Raw.word) ≫= Raw.text)) = []
  | Threw e =>
    e = TypeError
    /\ trim (default [] ((connection ≫= Raw.word) ≫= Raw.text)) <> []
    /\ Raw.language <$> (connection ≫= Raw.word) = Some Raw.NotAString
  | Returned (Some c) =>
    Raw.language <$> (connection ≫= Raw.word) <> Some Raw.NotAString
    /\ text (word c) <> []
    /\ text (word c) = trim (default [] ((connection ≫= Raw.word) ≫= Raw.text))
    /\ language (word c) <> []
    /\ toLowerCase (language (word c)) = language (word c)
    /\ exists root,
         sharedRoot (relationship c) = Some root
         /\ (exists o, origin (relationship c) = Some o)
         /\ (trim root <> [] ->
             exists n, notes (relationship c) = Some n
               /\ includes (toLowerCase n) (toLowerCase (trim root)) = true)
  end.
Proof.
  unfold normalizeConnection.
  destruct connection as [raw|]; [|done]. cbn [mbind option_bind].
  destruct (Raw.word raw) as [rawWord|]; [|done]. cbn [mbind option_bind].
  destruct (negb (truthyStr (trim (default [] (Raw.text rawWord))))) eqn:E.
  { apply negb_true_iff in E.
    by destruct (trim (default [] (Raw.text rawWord))). }
  apply negb_false_iff, truthyStr_nonempty in E.
  cbn [fmap option_fmap option_map].
  destruct (Raw.language rawWord) as [|code|] eqn:El; cbn [targetLanguage].
  - cbn [word text language relationship sharedRoot origin notes].
    split; [discriminate|]. split; [exact E|]. split; [reflexivity|].
    split; [by apply toLowerCase_nonempty, orStr_nonempty|].
    split; [apply toLowerCase_idem|].
    eexists. split; [reflexivity|]. split; [by eexists|].
    apply ensureRootInNotes_includes.
  - cbn [word text language relationship sharedRoot origin notes].
    split; [discriminate|]. split; [exact E|]. split; [reflexivity|].
    split; [by apply toLowerCase_nonempty, orStr_nonempty|].
    split; [apply toLowerCase_idem|].
    eexists. split; [reflexivity|]. split; [by eexists|].
    apply ensureRootInNotes_includes.
  - by split.
Qed.

End NormalizeTheorems.

(** ** The cognate service *)

Module CognateLoopFacts.
Import JS CognateService CognateSpec JSFacts DedupFacts CognateFacts.

Lemma cognateInv_init : Inv [] (∅, []).
Proof. split; simpl; try constructor; done. Qed.

Lemma existsb_ref (e : nat * Cognate) (unique : list (nat * Cognate)) :
  In e unique -> existsb (fun u => (fst u =? fst e)%nat) unique = true.
Proof.
  intros H. apply existsb_exists. exists e. split; [done|apply Nat.eqb_refl].
Qed.

Lemma cognateInv_step done st item :
  Inv done st -> ~ In (fst item) (map fst done) ->
  Inv (done ++ [item]) (deduplicateStep st item).
Proof.
  destruct st as [seen unique].
  intros [Hk Hr Hs Hu Hfrom Hbest] Hfresh.
  unfold deduplicateStep. cbn [fst snd] in *.
  assert (Hnew : ~ In (fst item) (map fst unique)).
  { intros Hin. apply in_map_iff in Hin as (v & Hv & Hin).
    apply Hfresh. rewrite <- Hv. apply in_map. by apply Hfrom. }
  destruct (seen !! dedupKey (snd item)) as [existing|] eqn:Hlook.
  - destruct (Hs _ _ Hlook) as [Hex Hexk].
    rewrite (existsb_ref existing unique Hex), andb_true_r.
    destruct (Qgtb (confidence (snd item)) (confidence (snd existing))) eqn:Hb.
    + destruct (replaceRef_split (fst existing) item existing unique
                  Hex eq_refl Hr) as (a1 & a2 & Hsplit & ->).
      subst unique.
      rewrite map_app in Hk, Hr, Hnew. simpl in Hk, Hr, Hnew.
      split; cbn [fst snd].
      * rewrite map_app. simpl. by rewrite <- Hexk.
      * rewrite map_app. simpl.
        apply NoDup_app in Hr as (H1 & H2 & H3).
        apply NoDup_cons in H3 as [H3 H4].
        apply NoDup_app. split; [exact H1|]. split.
        -- intros x Hx Hx'. apply elem_of_cons in Hx' as [->|Hx'].
           ++ apply Hnew. apply in_or_app. left. by apply list_elem_of_In.
           ++ apply (H2 x Hx). by right.
        -- apply NoDup_cons. split; [|exact H4].
           intros Hx. apply Hnew. apply in_or_app. right. right.
           by apply list_elem_of_In.
      * intros k v Hv.
        destruct (decide (dedupKey (snd item) = k)) as [<-|Hne].
        -- rewrite lookup_insert_eq in Hv. injection Hv as <-.
           split; [|done]. apply in_or_app. right. by left.
        -- rewrite lookup_insert_ne in Hv by done.
           destruct (Hs _ _ Hv) as [Hin Hkv]. split; [|exact Hkv].
           apply in_app_or in Hin as [Hin|[Hin|Hin]].
           ++ apply in_or_app. by left.
           ++ subst v. congruence.
           ++ apply in_or_app. right. by right.
      * intros v Hv.
        assert (Hcases : v = item
                         \/ (In v (a1 ++ existing :: a2) /\ v <> existing)).
        { apply in_app_or in Hv as [Hv|[Hv|Hv]].
          - right. split; [apply in_or_app; by left|]. intros ->.
            apply NoDup_app in Hr as (_ & H2 & _).
            apply (H2 (fst existing)); [by apply list_elem_of_In, in_map|by left].
          - by left.
          - right. split; [apply in_or_app; right; by right|]. intros ->.
            apply NoDup_app in Hr as (_ & _ & H3).
            apply NoDup_cons in H3 as [H3 _]. apply H3.
            by apply list_elem_of_In, in_map. }
        destruct Hcases as [->|[Hin Hne]].
        -- apply lookup_insert_eq.
        -- rewrite lookup_insert_ne; [by apply Hu|].
           intros Heq. apply Hne.
           specialize (Hu v Hin). rewrite <- Heq in Hu. congruence.
      * intros v Hv. apply in_app_or in Hv as [Hv|[<-|Hv]].
        -- apply in_or_app. left. apply Hfrom. apply in_or_app. by left.
        -- apply in_or_app. right. by left.
        -- apply in_or_app. left. apply Hfrom. apply in_or_app. right. by right.
      * intros v Hin. apply in_app_or in Hin as [Hin|[<-|[]]].
        -- destruct (Hbest v Hin) as (u & Hu' & Hle).
           destruct (decide (dedupKey (snd item) = dedupKey (snd v))) as [Heq|Hne].
           ++ exists item. rewrite <- Heq, lookup_insert_eq. split; [done|].
              rewrite <- Heq, Hlook in Hu'. injection Hu' as <-.
              apply Qle_trans with (confidence (snd existing)); [done|].
              apply Qlt_le_weak. by apply Qltb_lt.
           ++ exists u. by rewrite lookup_insert_ne.
        -- exists item. rewrite lookup_insert_eq. split; [done|apply Qle_refl].
    + split; cbn [fst snd]; try done.
      * intros v Hv. apply in_or_app. left. by apply Hfrom.
      * intros v Hin. apply in_app_or in Hin as [Hin|[<-|[]]].
        -- by apply Hbest.
        -- exists existing. split; [done|]. by apply Qltb_ge.
  - assert (Hfreshkey : ~ In (dedupKey (snd item))
                          (map (fun v => dedupKey (snd v)) unique)).
    { intros Hin. apply in_map_iff in Hin as (v & Hv & Hin).
      specialize (Hu v Hin). rewrite Hv in Hu. congruence. }
    split; cbn [fst snd].
    * rewrite map_app. simpl. apply NoDup_app. split; [exact Hk|]. split.
      -- intros x Hx Hx'. apply list_elem_of_singleton in Hx'. subst x.
         by apply Hfreshkey, list_elem_of_In.
      -- apply NoDup_singleton.
    * rewrite map_app. simpl. apply NoDup_app. split; [exact Hr|]. split.
      -- intros x Hx Hx'. apply list_elem_of_singleton in Hx'. subst x.
         by apply Hnew, list_elem_of_In.
      -- apply NoDup_singleton.
    * intros k v Hv.
      destruct (decide (dedupKey (snd item) = k)) as [<-|Hne].
      -- rewrite lookup_insert_eq in Hv. injection Hv as <-.
         split; [|done]. apply in_or_app. right. by left.
      -- rewrite lookup_insert_ne in Hv by done.
         destruct (Hs _ _ Hv) as [Hin Hkv]. split; [|exact Hkv].
         apply in_or_app. by left.
    * intros v Hv. apply in_app_or in Hv as [Hv|[<-|[]]].
      -- rewrite lookup_insert_ne; [by apply Hu|].
         intros Heq. apply Hfreshkey. rewrite Heq.
         by apply (in_map (fun v => dedupKey (snd v))).
      -- apply lookup_insert_eq.
    * intros v Hv. apply in_app_or in Hv as [Hv|[<-|[]]].
      -- apply in_or_app. left. by apply Hfrom.
      -- apply in_or_app. right. by left.
    * intros v Hin. apply in_app_or in Hin as [Hin|[<-|[]]].
      -- destruct (Hbest v Hin) as (u & Hu' & Hle).
         exists u. split; [|done]. rewrite lookup_insert_ne; [done|].
         intros Heq. rewrite Heq in Hlook. congruence.
      -- exists item. rewrite lookup_insert_eq. split; [done|apply Qle_refl].
Qed.

Lemma cognateInv_fold items : forall done st,
  Inv done st -> NoDup (map fst (done ++ items)) ->
  Inv (done ++ items) (fold_left deduplicateStep items st).
Proof.
  induction items as [|item items IH]; intros done st HI Hnd; simpl.
  - by rewrite app_nil_r.
  - replace (done ++ item :: items) with ((done ++ [item]) ++ items)
      by (by rewrite <- app_assoc).
    apply IH.
    + apply cognateInv_step; [done|].
      rewrite map_app in Hnd. apply NoDup_app in Hnd as (_ & H & _).
      intros Hin. apply (H (fst item)); [by apply list_elem_of_In|]. by left.
    + by rewrite <- app_assoc.
Qed.

Lemma deduplicateCognates_Inv (cognates : list Cognate) :
  Inv (imap pair cognates) (fold_left deduplicateStep (imap pair cognates) (∅, [])).
Proof.
  apply (cognateInv_fold (imap pair cognates) [] (∅, []) cognateInv_init).
  apply imap_pair_NoDup.
Qed.

Lemma deduplicateCognates_keys (cognates : list Cognate) :
  NoDup (map dedupKey (deduplicateCognates cognates)).
Proof.
  unfold deduplicateCognates. rewrite map_map.
  apply (inv_keys _ _ (deduplicateCognates_Inv cognates)).
Qed.

Lemma deduplicateCognates_best (cognates : list Cognate) (c : Cognate) :
  In c cognates ->
  exists u, In u (deduplicateCognates cognates)
    /\ dedupKey u = dedupKey c /\ (confidence c <= confidence u)%Q.
Proof.
  intros Hc. pose proof (deduplicateCognates_Inv cognates) as HI.
  destruct (In_imap_pair _ _ Hc) as [r Hr].
  destruct (inv_best _ _ HI (r, c) Hr) as (u & Hu & Hle).
  destruct (inv_seen _ _ HI _ _ Hu) as [Hin Hk].
  exists (snd u). split; [|done].
  unfold deduplicateCognates. by apply in_map.
Qed.

(** The comparator of the sort in [findCognates]. *)
Lemma byConfidence_total (a b : Cognate) :
  (confidence b - confidence a <= 0)%Q \/ (confidence a - confidence b <= 0)%Q.
Proof. destruct (Qlt_le_dec (confidence a) (confidence b)); [right|left]; lra. Qed.

Lemma byConfidence_trans (a b c : Cognate) :
  (confidence b - confidence a <= 0)%Q -> (confidence c - confidence b <= 0)%Q ->
  (confidence c - confidence a <= 0)%Q.
Proof. lra. Qed.

Lemma applyRules_word (rules : list SoundChangeRule) (word targetLang : jsstring)
  (c : Cognate) :
  In c (applyRules rules word targetLang) ->
  CognateService.word c <> word /\ language c = targetLang.
Proof.
  unfold applyRules. intros H. apply in_flat_map in H as (rule & _ & H).
  destruct (truthy (lang rule) && _); [destruct H|].
  destruct (exec (from rule) word); [|destruct H].
  destruct (negb (strEq _ _) && _) eqn:E; [|destruct H].
  destruct H as [<-|[]]. simpl. split; [|done].
  apply andb_true_iff in E as [E _]. apply negb_true_iff in E.
  by apply strEq_false in E.
Qed.

Lemma applySoundChangeRules_word (word sourceLanguage : jsstring)
  (targetLanguages : list jsstring) (c : Cognate) :
  In c (applySoundChangeRules word sourceLanguage targetLanguages) ->
  CognateService.word c <> word /\ language c <> sourceLanguage
  /\ In (language c) targetLanguages.
Proof.
  unfold applySoundChangeRules. intros H.
  apply in_flat_map in H as (targetLang & Ht & H).
  destruct (strEq targetLang sourceLanguage) eqn:E; [destruct H|].
  apply strEq_false in E.
  apply in_flat_map in H as (family & _ & H).
  apply in_flat_map in H as (targetFamily & _ & H).
  apply applyRules_word in H as [H1 ->]. done.
Qed.

Lemma isDerivative_same (w : jsstring) (sl tl : jsstring) :
  isDerivative w w sl tl = true.
Proof.
  unfold isDerivative.
  by rewrite (proj2 (strEq_true (trim (toLowerCase w)) _) eq_refl).
Qed.

Lemma findDirectCognates_word (word sourceLanguage : jsstring)
  (targetLanguages : list jsstring) (c : Cognate) :
  In c (findDirectCognates word sourceLanguage targetLanguages) ->
  CognateService.word c <> word /\ language c <> sourceLanguage
  /\ In (language c) targetLanguages.
Proof.
  unfold findDirectCognates. intros H.
  apply in_flat_map in H as ([fieldName concepts] & _ & H).
  apply in_flat_map in H as ([conceptName languageMap] & _ & H).
  destruct (existsb _ _); [|destruct H].
  apply in_flat_map in H as (targetLang & Ht & H).
  destruct (prop targetLang languageMap) as [cognateWords|]; [|destruct H].
  destruct (negb (strEq targetLang sourceLanguage)) eqn:E; [|destruct H].
  apply negb_true_iff, strEq_false in E.
  apply in_flat_map in H as (cognateWord & _ & H).
  destruct (negb (isDerivative _ _ _ _)) eqn:Ed; [|destruct H].
  destruct H as [<-|[]]. simpl. split; [|done].
  intros ->. by rewrite isDerivative_same in Ed.
Qed.

End CognateLoopFacts.

Module CognateServiceTheorems.
Import JS CognateService CognateSpec JSFacts DedupFacts CognateFacts.
Import CognateLoopFacts MoreExamples.

(** X14. A computed answer of [findCognates] holds no two cognates with the
    same key (lower-cased word and language), and is ordered by confidence,
    highest first: the cognates of the concept table (0.95) stand in front of
    those of the sound-change rules (0.75). *)
Theorem findCognates_distinct_and_sorted (word sourceLanguage : jsstring)
  (targetLanguages : list jsstring) :
  NoDup (map dedupKey (findCognates None word sourceLanguage targetLanguages))
  /\ StronglySorted (fun a b => (confidence b <= confidence a)%Q)
       (findCognates None word sourceLanguage targetLanguages).
Proof.
  unfold findCognates. split.
  - rewrite (arraySort_perm (fun a b => confidence b - confidence a)%Q).
    apply deduplicateCognates_keys.
  - assert (H : StronglySorted
                  (fun a b => (confidence b - confidence a <= 0)%Q)
                  (arraySort (fun a b => confidence b - confidence a)%Q
                     (deduplicateCognates
                        (findDirectCognates (trim (toLowerCase word))
                           sourceLanguage targetLanguages
                         ++ applySoundChangeRules (trim (toLowerCase word))
                              sourceLanguage targetLanguages)))).
    { apply arraySort_sorted.
      - intros a b. apply byConfidence_total.
      - intros a b c. apply byConfidence_trans. }
    induction H as [|x l Hs IH Hx]; constructor; [exact IH|].
    eapply Forall_impl; [exact Hx|]. intros y Hy. simpl in Hy. lra.
Qed.

(** X15. Every cognate of a computed answer is in one of the requested
    languages and not in the language of the query, and its word is not the
    query word as the service normalizes it. *)
Theorem findCognates_foreign (word sourceLanguage : jsstring)
  (targetLanguages : list jsstring) (c : Cognate) :
  In c (findCognates None word sourceLanguage targetLanguages) ->
  In (language c) targetLanguages
  /\ language c <> sourceLanguage
  /\ CognateService.word c <> trim (toLowerCase word).
Proof.
  intros H. apply findCognates_In in H as [H|H].
  - apply findDirectCognates_word in H. tauto.
  - apply applySoundChangeRules_word in H. tauto.
Qed.

Lemma findCognates_foreign_witness :
  exists c,
    In c (findCognates None (js "Water") (js "en") [js "en"; js "es"; js "de"])
    /\ In (language c) [js "en"; js "es"; js "de"]
    /\ language c <> js "en"
    /\ CognateService.word c <> trim (toLowerCase (js "Water")).
Proof.
  assert (E : exists c, nth_error (findCognates None (js "Water") (js "en")
                                     [js "en"; js "es"; js "de"]) 0 = Some c)
    by (vm_compute; eauto).
  destruct E as [c Hc]. exists c.
  assert (Hin : In c (findCognates None (js "Water") (js "en")
                        [js "en"; js "es"; js "de"]))
    by (eapply nth_error_In; exact Hc).
  split; [exact Hin|].
  exact (findCognates_foreign (js "Water") (js "en") [js "en"; js "es"; js "de"]
           c Hin).
Defined.

(** X16. [deduplicateCognates] loses no key and keeps the best: every cognate
    it is given is represented in the result by a cognate of the same key
    whose confidence is at least as high, the keys of the result are pairwise
    distinct, and the result holds nothing that was not given. *)
Theorem deduplicateCognates_keeps_best (cognates : list Cognate) (c : Cognate) :
  In c cognates ->
  (exists u, In u (deduplicateCognates cognates)
     /\ dedupKey u = dedupKey c /\ (confidence c <= confidence u)%Q)
  /\ NoDup (map dedupKey (deduplicateCognates cognates))
  /\ forall u, In u (deduplicateCognates cognates) -> In u cognates.
Proof.
  intros Hc. split; [by apply deduplicateCognates_best|].
  split; [apply deduplicateCognates_keys|].
  intros u. apply deduplicateCognates_In.
Qed.

Lemma deduplicateCognates_keeps_best_witness :
  In (cognate "Vater" "de" 0.75)
     [cognate "vater" "de" 0.95; cognate "Vater" "de" 0.75; cognate "pater" "la" 0.95]
  /\ (exists u,
        In u (deduplicateCognates
                [cognate "vater" "de" 0.95; cognate "Vater" "de" 0.75;
                 cognate "pater" "la" 0.95])
        /\ dedupKey u = dedupKey (cognate "Vater" "de" 0.75)
        /\ (confidence (cognate "Vater" "de" 0.75) <= confidence u)%Q)
  /\ NoDup (map dedupKey
              (deduplicateCognates
                 [cognate "vater" "de" 0.95; cognate "Vater" "de" 0.75;
                  cognate "pater" "la" 0.95]))
  /\ forall u,
       In u (deduplicateCognates
               [cognate "vater" "de" 0.95; cognate "Vater" "de" 0.75;
                cognate "pater" "la" 0.95]) ->
       In u [cognate "vater" "de" 0.95; cognate "Vater" "de" 0.75;
             cognate "pater" "la" 0.95].
Proof.
  assert (H : In (cognate "Vater" "de" 0.75)
                 [cognate "vater" "de" 0.95; cognate "Vater" "de" 0.75;
                  cognate "pater" "la" 0.95]) by (simpl; tauto).
  split; [exact H|].
  exact (deduplicateCognates_keeps_best _ _ H).
Defined.

End CognateServiceTheorems.

(** ** The cross-reference index of the etymonline service *)

Module IndexFacts.
Import JS EtymonlineAPI IndexSpec JSFacts DedupFacts StringFacts.

(** [map.get(key).push(x)] unless an element passes [present], the list
    having been created when the key was new. *)
Lemma file_lookup {A : Type} (present : A -> bool) (key : jsstring) (x : A)
  (m : gmap jsstring (list A)) (k : jsstring) :
  pushUnless present key x (ensureKey key m) !! k
  = if decide (k = key)
    then Some (if existsb present (default [] (m !! key))
               then default [] (m !! key)
               else default [] (m !! key) ++ [x])
    else m !! k.
Proof.
  unfold pushUnless, ensureKey.
  destruct (m !! key) as [l|] eqn:E.
  - rewrite E. cbn [default from_option id].
    destruct (existsb present l) eqn:Ep; destruct (decide (k = key)) as [->|Hne];
      try done.
    + apply lookup_insert_eq.
    + by apply lookup_insert_ne.
  - rewrite lookup_insert_eq. cbn [default from_option id existsb app].
    destruct (decide (k = key)) as [->|Hne].
    + apply lookup_insert_eq.
    + rewrite !lookup_insert_ne by done. done.
Qed.

Lemma file_listed {A : Type} (present : A -> bool) (key : jsstring) (x : A)
  (m : gmap jsstring (list A)) :
  present x = true -> listed (pushUnless present key x (ensureKey key m)) key present.
Proof.
  intros Hx. unfold listed. rewrite file_lookup.
  destruct (decide (key = key)); [|done].
  eexists. split; [reflexivity|].
  destruct (existsb present (default [] (m !! key))) eqn:E; [exact E|].
  rewrite existsb_app. simpl. rewrite Hx. by rewrite orb_true_r.
Qed.

Lemma file_keeps {A : Type} (present P : A -> bool) (key : jsstring) (x : A)
  (m : gmap jsstring (list A)) (k : jsstring) :
  listed m k P -> listed (pushUnless present key x (ensureKey key m)) k P.
Proof.
  intros (l & Hl & HP). unfold listed. rewrite file_lookup.
  destruct (decide (k = key)) as [->|Hne]; [|by exists l].
  rewrite Hl. cbn [default from_option id].
  eexists. split; [reflexivity|].
  destruct (existsb present l); [exact HP|].
  rewrite existsb_app, HP. reflexivity.
Qed.

Lemma file_id {A : Type} (present : A -> bool) (key : jsstring) (x : A)
  (m : gmap jsstring (list A)) :
  listed m key present -> pushUnless present key x (ensureKey key m) = m.
Proof.
  intros (l & Hl & HP). unfold pushUnless, ensureKey.
  rewrite Hl. rewrite Hl. cbn [default from_option id]. by rewrite HP.
Qed.

Lemma file_extends {A : Type} (present : A -> bool) (key : jsstring) (x : A)
  (m : gmap jsstring (list A)) (k : jsstring) (l : list A) :
  m !! k = Some l ->
  exists l', pushUnless present key x (ensureKey key m) !! k = Some (l ++ l').
Proof.
  intros Hl. rewrite file_lookup.
  destruct (decide (k = key)) as [->|Hne]; [|exists []; by rewrite app_nil_r].
  rewrite Hl. cbn [default from_option id].
  destruct (existsb present l); [exists []; by rewrite app_nil_r|by exists [x]].
Qed.

Lemma rootOf_nonempty (c : EtymologyConnection) :
  text (word c) <> [] -> rootOf c <> [].
Proof.
  intros H. unfold rootOf, orStr.
  destruct (orElse _ _) as [[|ch s]|]; simpl; done.
Qed.

(** One round of the loop, on the three fields of the index. *)
Lemma record_db (w : jsstring) (st : Index) (c : EtymologyConnection) :
  etymologyDatabase (recordConnection w st c)
  = if negb (truthyStr (text (word c))) then etymologyDatabase st
    else pushUnless (fun entry => strEq (we_word entry) w)
           (normalizeEtymologyKey (rootOf c))
           {| we_word := w;
              we_language := js "en";
              etymologicalForm := text (word c);
              etymologicalLanguage := language (word c);
              relationshipType := type (relationship c);
              we_confidence := confidence (relationship c);
              we_notes := notes (relationship c);
              we_sharedRoot := rootOf c |}
           (ensureKey (normalizeEtymologyKey (rootOf c)) (etymologyDatabase st)).
Proof.
  unfold recordConnection. fold (rootOf c).
  destruct (truthyStr (text (word c))) eqn:E; cbn [negb orb]; [|reflexivity].
  apply truthyStr_nonempty, rootOf_nonempty, truthyStr_nonempty in E.
  by rewrite E.
Qed.

Lemma record_processed (w : jsstring) (st : Index) (c : EtymologyConnection) :
  processedWords (recordConnection w st c) = processedWords st.
Proof. unfold recordConnection. by destruct (_ || _). Qed.

Lemma record_shortened (w : jsstring) (st : Index) (c : EtymologyConnection) :
  shortenedFormsDatabase (recordConnection w st c)
  = Some (if strEq (type (relationship c)) (js "shortened_from")
          then pushUnless (fun form => strEq (sf_word form) w)
                 (toLowerCase (text (word c)))
                 {| sf_word := w;
                    sf_confidence := confidence (relationship c);
                    sf_notes := notes (relationship c) |}
                 (ensureKey (toLowerCase (text (word c)))
                    (default ∅ (shortenedFormsDatabase st)))
          else default ∅ (shortenedFormsDatabase st)).
Proof. unfold recordConnection. by destruct (_ || _). Qed.

Lemma Index_eq (a b : Index) :
  etymologyDatabase a = etymologyDatabase b ->
  processedWords a = processedWords b ->
  shortenedFormsDatabase a = shortenedFormsDatabase b -> a = b.
Proof. destruct a, b. simpl. by intros -> -> ->. Qed.

Lemma record_makes_indexed (w : jsstring) (st : Index) (c : EtymologyConnection) :
  indexed w (recordConnection w st c) c.
Proof.
  split.
  - intros Ht. rewrite record_shortened, Ht.
    rewrite (proj2 (strEq_true _ _) eq_refl). cbn [default from_option id].
    apply file_listed. simpl. by apply strEq_true.
  - intros Ht. rewrite record_db.
    rewrite (proj2 (truthyStr_nonempty _) Ht). cbn [negb].
    apply file_listed. simpl. by apply strEq_true.
Qed.

Lemma record_keeps_listed_db (w : jsstring) (st : Index) (c : EtymologyConnection)
  (k : jsstring) (P : WordEntry -> bool) :
  listed (etymologyDatabase st) k P ->
  listed (etymologyDatabase (recordConnection w st c)) k P.
Proof.
  intros H. rewrite record_db. destruct (negb _); [exact H|].
  by apply file_keeps.
Qed.

Lemma record_keeps_listed_short (w : jsstring) (st : Index)
  (c : EtymologyConnection) (k : jsstring) (P : ShortenedForm -> bool) :
  listed (default ∅ (shortenedFormsDatabase st)) k P ->
  listed (default ∅ (shortenedFormsDatabase (recordConnection w st c))) k P.
Proof.
  intros H. rewrite record_shortened. cbn [default from_option id].
  destruct (strEq _ _); [|exact H]. by apply file_keeps.
Qed.

Lemma record_keeps_indexed (w : jsstring) (st : Index)
  (c c' : EtymologyConnection) :
  indexed w st c' -> indexed w (recordConnection w st c) c'.
Proof.
  intros [H1 H2]. split.
  - intros Ht. by apply record_keeps_listed_short, H1.
  - intros Ht. by apply record_keeps_listed_db, H2.
Qed.

Lemma record_indexed_id (w : jsstring) (st : Index) (c : EtymologyConnection) :
  is_Some (shortenedFormsDatabase st) -> indexed w st c ->
  recordConnection w st c = st.
Proof.
  intros [s Hs] [H1 H2]. apply Index_eq.
  - rewrite record_db. destruct (truthyStr (text (word c))) eqn:E; [|reflexivity].
    cbn [negb]. apply file_id, H2. by apply truthyStr_nonempty.
  - apply record_processed.
  - rewrite record_shortened, Hs. cbn [default from_option id]. f_equal.
    destruct (strEq _ _) eqn:E; [|reflexivity].
    apply strEq_true in E. specialize (H1 E). rewrite Hs in H1.
    by apply file_id.
Qed.

Lemma fold_indexed (w : jsstring) (cs : list EtymologyConnection) :
  forall st c, In c cs \/ indexed w st c ->
               indexed w (fold_left (recordConnection w) cs st) c.
Proof.
  induction cs as [|x cs IH]; intros st c H; simpl.
  - by destruct H.
  - apply IH. destruct H as [[->|H]|H].
    + right. apply record_makes_indexed.
    + by left.
    + right. by apply record_keeps_indexed.
Qed.

Lemma fold_id (w : jsstring) (cs : list EtymologyConnection) (st : Index) :
  is_Some (shortenedFormsDatabase st) ->
  (forall c, In c cs -> indexed w st c) ->
  fold_left (recordConnection w) cs st = st.
Proof.
  intros Hs. induction cs as [|x cs IH]; intros H; simpl; [reflexivity|].
  rewrite (record_indexed_id w st x Hs); [|apply H; by left].
  apply IH. intros c Hc. apply H. by right.
Qed.

Lemma fold_processed (w : jsstring) (cs : list EtymologyConnection) :
  forall st, processedWords (fold_left (recordConnection w) cs st)
             = processedWords st.
Proof.
  induction cs as [|x cs IH]; intros st; simpl; [reflexivity|].
  by rewrite IH, record_processed.
Qed.

Lemma fold_shortened (w : jsstring) (cs : list EtymologyConnection) :
  forall st, is_Some (shortenedFormsDatabase st) ->
             is_Some (shortenedFormsDatabase (fold_left (recordConnection w) cs st)).
Proof.
  induction cs as [|x cs IH]; intros st Hs; simpl; [exact Hs|].
  apply IH. rewrite record_shortened. by eexists.
Qed.

Lemma fold_extends (w : jsstring) (cs : list EtymologyConnection) :
  forall st k l, etymologyDatabase st !! k = Some l ->
    exists l', etymologyDatabase (fold_left (recordConnection w) cs st) !! k
               = Some (l ++ l').
Proof.
  induction cs as [|x cs IH]; intros st k l Hl; simpl.
  - exists []. by rewrite app_nil_r.
  - assert (H : exists l1, etymologyDatabase (recordConnection w st x) !! k
                           = Some (l ++ l1)).
    { rewrite record_db. destruct (negb _).
      - exists []. by rewrite app_nil_r.
      - by apply file_extends. }
    destruct H as [l1 H1]. destruct (IH _ _ _ H1) as [l2 H2].
    exists (l1 ++ l2). by rewrite app_assoc.
Qed.

Lemma record_distinct (w : jsstring) (st : Index) (c : EtymologyConnection) :
  distinctWords st -> distinctWords (recordConnection w st c).
Proof.
  intros H k l. rewrite record_db. destruct (negb _); [apply H|].
  rewrite file_lookup. destruct (decide (k = _)) as [->|Hne]; [|apply H].
  intros Hl. injection Hl as <-.
  assert (Hnd : NoDup (map we_word
                         (default [] (etymologyDatabase st
                                        !! normalizeEtymologyKey (rootOf c))))).
  { destruct (etymologyDatabase st !! _) as [l0|] eqn:E; [by apply (H _ _ E)|].
    constructor. }
  destruct (existsb _ _) eqn:E; [exact Hnd|].
  rewrite map_app. simpl. apply NoDup_app. split; [exact Hnd|]. split.
  - intros x Hx Hx'. apply list_elem_of_singleton in Hx'. subst x.
    apply list_elem_of_In, in_map_iff in Hx as (e & He & Hin).
    assert (Ht : existsb (fun entry => strEq (we_word entry) w)
                   (default [] (etymologyDatabase st
                                  !! normalizeEtymologyKey (rootOf c))) = true).
    { apply existsb_exists. exists e. split; [done|]. by apply strEq_true. }
    congruence.
  - apply NoDup_singleton.
Qed.

Lemma fold_distinct_words (w : jsstring) (cs : list EtymologyConnection) :
  forall st, distinctWords st ->
             distinctWords (fold_left (recordConnection w) cs st).
Proof.
  induction cs as [|x cs IH]; intros st H; simpl; [exact H|].
  by apply IH, record_distinct.
Qed.

End IndexFacts.

Module IndexTheorems.
Import JS EtymonlineAPI EtymonlineIndex IndexSpec JSFacts DedupFacts StringFacts.
Import IndexFacts Examples.

(** X17. Insert, then look up.  After [updateEtymologyDatabase] for a word,
    the word counts as processed, and the index holds what each connection of
    its page was to leave: an entry for the word under the normalized key of
    the connection's root, and, for a [shortened_from] connection, a form for
    the word under the lower-cased full form. *)
Theorem update_then_lookup (st : Index) (sourceWord : jsstring)
  (etymologyData : EtymologyData) (connection : EtymologyConnection) :
  In connection (connections etymologyData) ->
  sourceWord ∈ processedWords
                 (updateEtymologyDatabase st sourceWord etymologyData)
  /\ indexed sourceWord (updateEtymologyDatabase st sourceWord etymologyData)
       connection.
Proof.
  intros Hc. unfold updateEtymologyDatabase. split.
  - rewrite fold_processed. simpl. set_solver.
  - apply fold_indexed. by left.
Qed.

Lemma update_then_lookup_witness :
  exists connection,
    In connection (connections (fromRoot 0.95))
    /\ js "water" ∈ processedWords wedIndex
    /\ indexed (js "water") wedIndex connection.
Proof.
  assert (E : exists c, nth_error (connections (fromRoot 0.95)) 0 = Some c)
    by (simpl; eauto).
  destruct E as [c Hc]. exists c.
  assert (Hin : In c (connections (fromRoot 0.95)))
    by (eapply nth_error_In; exact Hc).
  split; [exact Hin|]. unfold wedIndex.
  exact (update_then_lookup _ (js "water") (fromRoot 0.95) c Hin).
Defined.

(** X18. [updateEtymologyDatabase] is idempotent: ingesting the same page for
    the same word a second time leaves the index as it is. *)
Theorem updateEtymologyDatabase_idempotent (st : Index) (sourceWord : jsstring)
  (etymologyData : EtymologyData) :
  updateEtymologyDatabase
    (updateEtymologyDatabase st sourceWord etymologyData)
    sourceWord etymologyData
  = updateEtymologyDatabase st sourceWord etymologyData.
Proof.
  set (st1 := updateEtymologyDatabase st sourceWord etymologyData).
  assert (Hs : is_Some (shortenedFormsDatabase st1)).
  { unfold st1, updateEtymologyDatabase. apply fold_shortened. by eexists. }
  assert (Hp : processedWords st1 = {[ sourceWord ]} ∪ processedWords st).
  { unfold st1, updateEtymologyDatabase. by rewrite fold_processed. }
  unfold updateEtymologyDatabase at 1.
  replace {| etymologyDatabase := etymologyDatabase st1;
             processedWords := {[ sourceWord ]} ∪ processedWords st1;
             shortenedFormsDatabase :=
               Some (default ∅ (shortenedFormsDatabase st1)) |} with st1.
  - apply fold_id; [exact Hs|].
    intros c Hc. unfold st1, updateEtymologyDatabase. apply fold_indexed.
    by left.
  - apply Index_eq; simpl.
    + reflexivity.
    + rewrite Hp. apply set_eq. intros x. rewrite !elem_of_union. tauto.
    + destruct Hs as [s ->]. reflexivity.
Qed.

(** X19. The index only grows, and never lists a word twice under a key:
    [updateEtymologyDatabase] extends the list of a key at its end, and keeps
    the words of each list pairwise distinct if they were. *)
Theorem update_extends_distinct (st : Index) (sourceWord : jsstring)
  (etymologyData : EtymologyData) :
  distinctWords st ->
  distinctWords (updateEtymologyDatabase st sourceWord etymologyData)
  /\ forall key entries, etymologyDatabase st !! key = Some entries ->
       exists more,
         etymologyDatabase (updateEtymologyDatabase st sourceWord etymologyData)
           !! key = Some (entries ++ more).
Proof.
  intros H. unfold updateEtymologyDatabase. split.
  - by apply fold_distinct_words.
  - intros key entries Hk. by apply fold_extends.
Qed.

Lemma update_extends_distinct_witness :
  distinctWords emptyIndex
  /\ distinctWords wedIndex
  /\ forall key entries,
       etymologyDatabase
         (updateEtymologyDatabase
            (updateEtymologyDatabase emptyIndex (js "wet") (fromRoot 0.95))
            (js "otter") (fromRoot 0.95)) !! key = Some entries ->
       exists more, etymologyDatabase wedIndex !! key = Some (entries ++ more).
Proof.
  assert (H0 : distinctWords emptyIndex).
  { intros key entries H. simpl in H. by rewrite lookup_empty in H. }
  split; [exact H0|].
  unfold wedIndex.
  apply (update_extends_distinct _ (js "water") (fromRoot 0.95)).
  apply (update_extends_distinct _ (js "otter") (fromRoot 0.95)).
  apply (update_extends_distinct _ (js "wet") (fromRoot 0.95)).
  exact H0.
Defined.

End IndexTheorems.

Module IndexQueryFacts.
Import JS EtymonlineAPI EtymonlineIndex IndexSpec JSFacts DedupFacts.
Import CrossReferenceTheorems.

Lemma cross_references_empty (st : Index) (w : jsstring)
  (l : list EtymologyConnection) :
  flat_map snd (map (crossReferenceOf st w) l) = [].
Proof.
  induction l as [|c l IH]; [reflexivity|].
  simpl. by rewrite crossReferenceOf_adds_nothing.
Qed.

Lemma byEntryConfidence_sorted (l : list WordEntry) :
  StronglySorted (fun a b => (we_confidence b <= we_confidence a)%Q)
    (arraySort (fun a b => we_confidence b - we_confidence a)%Q l).
Proof.
  assert (H : StronglySorted
                (fun a b => (we_confidence b - we_confidence a <= 0)%Q)
                (arraySort (fun a b => we_confidence b - we_confidence a)%Q l)).
  { apply arraySort_sorted.
    - intros a b.
      destruct (Qlt_le_dec (we_confidence a) (we_confidence b)); [right|left]; lra.
    - intros a b c. lra. }
  induction H as [|x l' Hs IH Hx]; constructor; [exact IH|].
  eapply Forall_impl; [exact Hx|]. intros y Hy. simpl in Hy. lra.
Qed.

Lemma filter_length_le {A : Type} (f : A -> bool) (l : list A) :
  (length (List.filter f l) <= length l)%nat.
Proof.
  induction l as [|x l IH]; simpl; [lia|]. destruct (f x); simpl; lia.
Qed.

End IndexQueryFacts.

Module IndexQueryTheorems.
Import JS EtymonlineAPI EtymonlineIndex IndexSpec JSFacts DedupFacts.
Import IndexFacts IndexQueryFacts Examples.

(** X20. What [enhanceWithCrossReferences] adds to the parsed connections are
    reverse edges of the shortened-forms sub-index only: English
    [shortened_to] connections, flagged as such, with a confidence above 0.8
    and at most 0.9, to words that are not semantically suspicious for the
    query word. *)
Theorem enhance_adds_reverse_edges_only (st : Index)
  (etymologyData : EtymologyData) (sourceWord : jsstring)
  (c : EtymologyConnection) :
  In c (connections (enhanceWithCrossReferences st etymologyData sourceWord)) ->
  In c (connections etymologyData)
  \/ (type (relationship c) = js "shortened_to"
      /\ language (word c) = js "en"
      /\ isFromShortenedDatabase (relationship c) = true
      /\ (0.8 < confidence (relationship c))%Q
      /\ (confidence (relationship c) <= 0.9)%Q
      /\ areSemanticallySuspicious (text (word c)) sourceWord = false).
Proof.
  unfold enhanceWithCrossReferences. simpl.
  rewrite cross_references_empty. simpl.
  intros H. apply in_app_or in H as [H|H]; [by left|]. right.
  unfold reverseConnections in H.
  destruct (shortenedFormsDatabase st) as [db|]; [|done].
  destruct (db !! toLowerCase sourceWord) as [forms|]; [|done].
  apply in_map_iff in H as (form & <- & Hf). simpl.
  apply filter_In in Hf as [_ Hf]. apply andb_true_iff in Hf as [H1 H2].
  apply Qltb_lt in H1. apply negb_true_iff in H2.
  repeat split; try done.
  - by apply Q.min_glb_lt.
  - apply Q.le_min_r.
Qed.

Lemma enhance_adds_reverse_edges_only_witness :
  exists c,
    In c (connections (enhanceWithCrossReferences adIndex emptyPage
                         (js "advertisement")))
    /\ text (word c) = js "ad"
    /\ ~ In c (connections emptyPage)
    /\ (In c (connections emptyPage)
        \/ (type (relationship c) = js "shortened_to"
            /\ language (word c) = js "en"
            /\ isFromShortenedDatabase (relationship c) = true
            /\ (0.8 < confidence (relationship c))%Q
            /\ (confidence (relationship c) <= 0.9)%Q
            /\ areSemanticallySuspicious (text (word c)) (js "advertisement")
               = false)).
Proof.
  assert (E : exists c,
             nth_error (connections (enhanceWithCrossReferences adIndex
                                       emptyPage (js "advertisement"))) 0
             = Some c
             /\ text (word c) = js "ad")
    by (vm_compute; eauto).
  destruct E as (c & Hc & Ht). exists c.
  assert (Hin : In c (connections (enhanceWithCrossReferences adIndex
                                     emptyPage (js "advertisement"))))
    by (eapply nth_error_In; exact Hc).
  split; [exact Hin|]. split; [exact Ht|]. split; [intros []|].
  exact (enhance_adds_reverse_edges_only adIndex emptyPage
           (js "advertisement") c Hin).
Defined.

(** X21. Every group [findEtymologicalCognates] returns is filed under the
    normalized key of its root and is not empty; its cognates are entries of
    the index under that key, none of them is for the query word, each has at
    least the minimum confidence (0.7 by default), and they are ordered by
    confidence, highest first. *)
Theorem findEtymologicalCognates_groups (st : Index)
  (wordData : option EtymologyData) (queryWord : jsstring)
  (minConfidence : option Q) (g : CognateGroup) :
  In g (findEtymologicalCognates st wordData queryWord minConfidence) ->
  cognates g <> []
  /\ etymologyKey g = normalizeEtymologyKey (cg_sharedRoot g)
  /\ StronglySorted (fun a b => (we_confidence b <= we_confidence a)%Q)
       (cognates g)
  /\ forall e, In e (cognates g) ->
       we_word e <> queryWord
       /\ (default 0.7 minConfidence <= we_confidence e)%Q
       /\ exists entries,
            etymologyDatabase st !! etymologyKey g = Some entries
            /\ In e entries.
Proof.
  unfold findEtymologicalCognates. destruct wordData as [wordData|]; [|done].
  intros H. apply in_flat_map in H as (connection & _ & H).
  destruct (_ || _); [done|].
  destruct (etymologyDatabase st !! _) as [relatedWords|] eqn:E; [|done].
  destruct (1 <? length relatedWords)%nat; [|done].
  destruct (0 <? length _)%nat eqn:El; [|done].
  destruct H as [<-|[]]. simpl.
  split. { apply Nat.ltb_lt in El. intros Hnil. rewrite Hnil in El. simpl in El. lia. }
  split; [reflexivity|]. split; [apply byEntryConfidence_sorted|].
  intros e He. apply arraySort_In, filter_In in He as [He Hf].
  apply andb_true_iff in Hf as [H1 H2].
  apply negb_true_iff, strEq_false in H1. apply Qle_bool_iff in H2.
  split; [exact H1|]. split; [exact H2|]. by exists relatedWords.
Qed.

Lemma findEtymologicalCognates_groups_witness :
  exists g,
    In g (findEtymologicalCognates wedIndex (Some (fromRoot 0.95))
            (js "water") None)
    /\ cognates g <> []
    /\ etymologyKey g = normalizeEtymologyKey (cg_sharedRoot g)
    /\ StronglySorted (fun a b => (we_confidence b <= we_confidence a)%Q)
         (cognates g)
    /\ forall e, In e (cognates g) ->
         we_word e <> js "water"
         /\ (default 0.7 None <= we_confidence e)%Q
         /\ exists entries,
              etymologyDatabase wedIndex !! etymologyKey g = Some entries
              /\ In e entries.
Proof.
  assert (E : exists g,
             nth_error (findEtymologicalCognates wedIndex (Some (fromRoot 0.95))
                          (js "water") None) 0 = Some g)
    by (vm_compute; eauto).
  destruct E as [g Hg]. exists g.
  assert (Hin : In g (findEtymologicalCognates wedIndex (Some (fromRoot 0.95))
                        (js "water") None))
    by (eapply nth_error_In; exact Hg).
  split; [exact Hin|].
  exact (findEtymologicalCognates_groups wedIndex (Some (fromRoot 0.95))
           (js "water") None g Hin).
Defined.

(** X22. [clearAllCaches] forgets the index: afterwards
    [enhanceWithCrossReferences] returns the parsed connections as they are,
    [findEtymologicalCognates] finds no group, and the statistics count
    nothing, whatever had been ingested. *)
Theorem clearAllCaches_forgets (st : Index) (etymologyData : EtymologyData)
  (wordData : option EtymologyData) (sourceWord : jsstring)
  (minConfidence : option Q) :
  connections (enhanceWithCrossReferences (clearAllCaches st) etymologyData
                 sourceWord)
  = connections etymologyData
  /\ findEtymologicalCognates (clearAllCaches st) wordData sourceWord
       minConfidence = []
  /\ totalEtymologicalOrigins (getEtymologyDatabaseStats (clearAllCaches st)) = 0%nat
  /\ totalProcessedWords (getEtymologyDatabaseStats (clearAllCaches st)) = 0%nat
  /\ cognateGroups (getEtymologyDatabaseStats (clearAllCaches st)) = 0%nat.
Proof.
  split; [|split].
  - unfold enhanceWithCrossReferences. simpl. rewrite cross_references_empty.
    simpl. unfold reverseConnections, clearAllCaches. simpl.
    destruct (shortenedFormsDatabase st); [|by rewrite app_nil_r].
    rewrite lookup_empty. by rewrite app_nil_r.
  - unfold findEtymologicalCognates. destruct wordData as [wordData|]; [|done].
    induction (connections wordData) as [|c l IH]; [reflexivity|].
    cbn [flat_map]. rewrite IH, app_nil_r.
    destruct (_ || _); [reflexivity|].
    unfold clearAllCaches. cbn [etymologyDatabase]. by rewrite lookup_empty.
  - unfold getEtymologyDatabaseStats, clearAllCaches.
    cbn [totalEtymologicalOrigins totalProcessedWords cognateGroups
         etymologyDatabase processedWords].
    split; [apply map_size_empty|]. split; [apply size_empty|].
    by rewrite map_to_list_empty.
Qed.

(** X23. The statistics are consistent: no more cognate groups than origins
    are counted, and the average number of words per origin is defined for an
    empty index too (the divisor is at least one), lying between zero and the
    number of processed words. *)
Theorem stats_consistent (st : Index) :
  (cognateGroups (getEtymologyDatabaseStats st)
   <= totalEtymologicalOrigins (getEtymologyDatabaseStats st))%nat
  /\ (0 <= averageWordsPerOrigin (getEtymologyDatabaseStats st))%Q
  /\ (averageWordsPerOrigin (getEtymologyDatabaseStats st)
      <= inject_Z (Z.of_nat (totalProcessedWords (getEtymologyDatabaseStats st))))%Q.
Proof.
  unfold getEtymologyDatabaseStats. simpl. split; [|split].
  - etransitivity; [apply filter_length_le|].
    by rewrite length_map_to_list.
  - set (n := size (processedWords st)).
    set (d := Nat.max 1 (size (etymologyDatabase st))).
    assert (Hd : (0 < inject_Z (Z.of_nat d))%Q).
    { change 0%Q with (inject_Z 0). rewrite <- Zlt_Qlt. lia. }
    assert (Hn : (0 <= inject_Z (Z.of_nat n))%Q).
    { change 0%Q with (inject_Z 0). rewrite <- Zle_Qle. lia. }
    apply Qle_shift_div_l; [exact Hd|]. lra.
  - set (n := size (processedWords st)).
    set (d := Nat.max 1 (size (etymologyDatabase st))).
    assert (Hd : (1 <= inject_Z (Z.of_nat d))%Q).
    { change 1%Q with (inject_Z 1). rewrite <- Zle_Qle. lia. }
    assert (Hn : (0 <= inject_Z (Z.of_nat n))%Q).
    { change 0%Q with (inject_Z 0). rewrite <- Zle_Qle. lia. }
    apply Qle_shift_div_r; [lra|]. nra.
Qed.

End IndexQueryTheorems.

(** ** The selection of the connections to show *)

Module SelectionFacts.
Import JS EtymologyService Server.

Lemma insert_swap_perm {A : Type} (t : list A) : forall (j : nat) (h y : A),
  t !! j = Some y -> y :: <[j := h]> t ≡ₚ h :: t.
Proof.
  induction t as [|z t IH]; intros [|j] h y H; simpl in *; try done.
  - injection H as ->. apply perm_swap.
  - rewrite (perm_swap z y). rewrite (IH j h y H). apply perm_swap.
Qed.

Lemma swap_perm {A : Type} (a : list A) : forall i j, swap a i j ≡ₚ a.
Proof.
  unfold swap. induction a as [|h t IH]; intros i j; [by destruct i|].
  destruct i as [|i], j as [|j]; simpl.
  - reflexivity.
  - destruct (t !! j) as [y|] eqn:E; [|reflexivity]. simpl.
    by apply insert_swap_perm.
  - destruct (t !! i) as [x|] eqn:E; [|reflexivity]. simpl.
    by apply insert_swap_perm.
  - specialize (IH i j).
    destruct (t !! i) as [x|]; [|reflexivity].
    destruct (t !! j) as [y|]; [|reflexivity].
    simpl. by rewrite IH.
Qed.

Section Random.
Variable random : nat -> Q.

Lemma shuffleFrom_perm {A : Type} (i : nat) : forall k (a : list A),
  snd (shuffleFrom random i k a) ≡ₚ a.
Proof.
  induction i as [|i IH]; intros k a; simpl; [reflexivity|].
  rewrite IH. apply swap_perm.
Qed.

Lemma shuffle_perm {A : Type} (k : nat) (a : list A) :
  snd (shuffle random k a) ≡ₚ a.
Proof. apply shuffleFrom_perm. Qed.

End Random.

Lemma slice0_sublist {A : Type} (e : Z) (a : list A) : slice0 e a `sublist_of` a.
Proof. unfold slice0. destruct (e <? 0)%Z; apply sublist_take. Qed.

Lemma slice0_length {A : Type} (e : Z) (a : list A) :
  (0 <= e)%Z -> length (slice0 e a) = Nat.min (Z.to_nat e) (length a).
Proof.
  intros He. unfold slice0.
  destruct (e <? 0)%Z eqn:E; [apply Z.ltb_lt in E; lia|].
  apply length_take.
Qed.

Lemma isNotPieRoot_spec (c : Out.Connection) :
  isNotPieRoot c = negb (isPieRoot c).
Proof.
  unfold isNotPieRoot, isPieRoot.
  by destruct (startsWith _ _), (strEq _ _), (includes _ _).
Qed.

Lemma filter_split (l : list Out.Connection) :
  List.filter isPieRoot l ++ List.filter isNotPieRoot l ≡ₚ l.
Proof.
  induction l as [|c l IH]; [reflexivity|].
  simpl. rewrite isNotPieRoot_spec. destruct (isPieRoot c); simpl.
  - by rewrite IH.
  - rewrite <- Permutation_middle. by rewrite IH.
Qed.




End SelectionFacts.

Module SelectionTheorems.
Import JS EtymologyService Server SelectionFacts ServerExamples.

(** X24. [selectConnectionsWithRandomization] never returns more than
    [maxCount] connections (for a count that is not negative), whatever
    [Math.random] draws; a list that fits is returned as it is. *)
Theorem selection_bounded (random : nat -> Q)
  (connections : list Out.Connection) (maxCount : Z)
  (prioritizePieRoots : bool) (k : nat) :
  (forall n, (0 <= random n)%Q /\ (random n < 1)%Q) ->
  (0 <= maxCount)%Z ->
  (Z.of_nat (length (selectConnectionsWithRandomization random connections
                       maxCount prioritizePieRoots k)) <= maxCount)%Z
  /\ ((Z.of_nat (length connections) <= maxCount)%Z ->
      selectConnectionsWithRandomization random connections maxCount
        prioritizePieRoots k = connections).
Proof.
  intros _ Hm. unfold selectConnectionsWithRandomization.
  destruct (Z.of_nat (length connections) <=? maxCount)%Z eqn:Efit.
  { apply Z.leb_le in Efit. by split. }
  apply Z.leb_gt in Efit. split; [|lia].
  set (pieRoots := if prioritizePieRoots then List.filter isPieRoot connections
                   else []).
  set (nonPie := if prioritizePieRoots
                 then List.filter isNotPieRoot connections else connections).
  set (pie := if prioritizePieRoots && (0 <? length pieRoots)%nat then _ else _).
  assert (Hsel : (Z.of_nat (length (snd pie)) <= maxCount)%Z).
  { unfold pie. destruct (prioritizePieRoots && _); [|simpl; lia].
    destruct (Z.of_nat (length pieRoots) <=? _)%Z eqn:E; simpl.
    - apply Z.leb_le in E. lia.
    - rewrite slice0_length by lia. lia. }
  destruct ((0 <? maxCount - Z.of_nat (length (snd pie)))%Z && _) eqn:E;
    [|exact Hsel].
  apply andb_true_iff in E as [E _]. apply Z.ltb_lt in E.
  rewrite length_app, slice0_length by lia. lia.
Qed.

Lemma selection_bounded_witness :
  (Z.of_nat (length (selectConnectionsWithRandomization halves waterConnections
                       3 true 0)) <= 3)%Z
  /\ ((Z.of_nat (length waterConnections) <= 3)%Z ->
      selectConnectionsWithRandomization halves waterConnections 3 true 0
      = waterConnections).
Proof.
  apply (selection_bounded halves waterConnections 3 true 0).
  - intros n. unfold halves. destruct (Nat.even n); split; lra.
  - lia.
Defined.

(** X25. The selection is drawn from the list it is given: it holds no
    connection that the list does not hold, and none more often than the
    list does. *)
Theorem selection_from_input (random : nat -> Q)
  (connections : list Out.Connection) (maxCount : Z)
  (prioritizePieRoots : bool) (k : nat) :
  (forall n, (0 <= random n)%Q /\ (random n < 1)%Q) ->
  selectConnectionsWithRandomization random connections maxCount
    prioritizePieRoots k ⊆+ connections.
Proof.
  intros _. unfold selectConnectionsWithRandomization.
  destruct (Z.of_nat (length connections) <=? maxCount)%Z; [reflexivity|].
  set (pieRoots := if prioritizePieRoots then List.filter isPieRoot connections
                   else []).
  set (nonPie := if prioritizePieRoots
                 then List.filter isNotPieRoot connections else connections).
  set (pie := if prioritizePieRoots && (0 <? length pieRoots)%nat then _ else _).
  assert (Hsel : snd pie ⊆+ pieRoots).
  { unfold pie. destruct (prioritizePieRoots && _); [|apply submseteq_nil_l].
    destruct (Z.of_nat (length pieRoots) <=? _)%Z; simpl; [reflexivity|].
    etransitivity; [apply sublist_submseteq, slice0_sublist|].
    apply Permutation_submseteq, shuffle_perm. }
  assert (Hrest : forall e, slice0 e (snd (shuffle random (fst pie) nonPie))
                            ⊆+ nonPie).
  { intros e. etransitivity; [apply sublist_submseteq, slice0_sublist|].
    apply Permutation_submseteq, shuffle_perm. }
  assert (Hall : pieRoots ++ nonPie ⊆+ connections).
  { unfold pieRoots, nonPie. destruct prioritizePieRoots; [|reflexivity].
    by rewrite filter_split. }
  destruct ((0 <? maxCount - Z.of_nat (length (snd pie)))%Z && _).
  - etransitivity; [|exact Hall]. by apply submseteq_app.
  - etransitivity; [|exact Hall]. etransitivity; [exact Hsel|].
    apply submseteq_inserts_r. reflexivity.
Qed.

Lemma selection_from_input_witness :
  selectConnectionsWithRandomization halves waterConnections 3 true 0
  ⊆+ waterConnections.
Proof.
  apply (selection_from_input halves waterConnections 3 true 0).
  intros n. unfold halves. destruct (Nat.even n); split; lra.
Defined.





End SelectionTheorems.

(** ** The Wiktionary parser *)

Module WiktionaryFacts.
Import JS WiktionaryAPI WiktionarySpec DedupFacts StringFacts.

Lemma fold_left_inv {A B : Type} (P : A -> Prop) (f : A -> B -> A)
  (l : list B) (a : A) :
  (forall acc x, P acc -> P (f acc x)) -> P a -> P (fold_left f l a).
Proof.
  intros Hstep. revert a. induction l as [|x l IH]; intros a Ha; [exact Ha|].
  simpl. apply IH, Hstep, Ha.
Qed.

(** What [parseLanguageReferences] lets through. *)
Lemma parseLanguageReferences_word (t : jsstring) (r : LanguageReference) :
  In r (parseLanguageReferences t) ->
  (1 < length (lr_word r))%nat /\ trim (lr_word r) = lr_word r.
Proof.
  unfold parseLanguageReferences. intros H.
  apply in_app_or in H as [H|H].
  - apply in_flat_map in H as (pattern & _ & H).
    apply in_flat_map in H as (m & _ & H).
    destruct (_ && _) eqn:E; [|done]. destruct H as [<-|[]].
    cbn [lr_word].
    apply andb_true_iff in E as [E _]. apply andb_true_iff in E as [E _].
    apply andb_true_iff in E as [_ E]. apply Nat.ltb_lt in E.
    split; [exact E|apply trim_idem].
  - apply in_flat_map in H as (m & _ & H).
    destruct (_ && _) eqn:E; [|done]. destruct H as [<-|[]].
    cbn [lr_word].
    apply andb_true_iff in E as [_ E]. apply Nat.ltb_lt in E.
    split; [exact E|apply trim_idem].
Qed.

Lemma addExtraCognate_shape (sourceLanguage : jsstring) (currentMatch : rmatch)
  (connections : list Connection) (cognate : LanguageReference) :
  (1 < length (lr_word cognate))%nat /\ trim (lr_word cognate) = lr_word cognate ->
  Forall (cognateShape sourceLanguage) connections ->
  Forall (cognateShape sourceLanguage)
    (addExtraCognate sourceLanguage currentMatch connections cognate).
Proof.
  intros [Hl Ht] H. unfold addExtraCognate.
  destruct (negb (strEq _ _)) eqn:E; [|exact H].
  destruct (negb (existsb _ _)); [|exact H].
  apply Forall_app. split; [exact H|]. constructor; [|constructor].
  apply negb_true_iff, strEq_false in E.
  unfold cognateShape. cbn [word relationship partOfSpeech type confidence
                            language text].
  repeat split; try done. by right.
Qed.

Lemma fold_addExtraCognate_shape (sourceLanguage : jsstring)
  (currentMatch : rmatch) (refs : list LanguageReference) :
  forall connections,
  (forall r, In r refs ->
     (1 < length (lr_word r))%nat /\ trim (lr_word r) = lr_word r) ->
  Forall (cognateShape sourceLanguage) connections ->
  Forall (cognateShape sourceLanguage)
    (fold_left (addExtraCognate sourceLanguage currentMatch) refs connections).
Proof.
  induction refs as [|r refs IH]; intros connections Hr H; [exact H|].
  simpl. apply IH.
  - intros r' Hr'. apply Hr. by right.
  - apply addExtraCognate_shape; [|exact H]. apply Hr. by left.
Qed.

Lemma extractCognates_shape (etymologyText sourceLanguage : jsstring) :
  Forall (cognateShape sourceLanguage)
    (extractCognates etymologyText sourceLanguage).
Proof.
  unfold extractCognates.
  apply fold_left_inv.
  - intros acc pattern Hacc. apply fold_left_inv; [|exact Hacc].
    intros acc' currentMatch Hacc'.
    apply fold_addExtraCognate_shape; [|exact Hacc'].
    intros r. apply parseLanguageReferences_word.
  - apply List.Forall_forall. intros c Hc.
    apply in_flat_map in Hc as (ref & Href & Hc).
    destruct (_ && _) eqn:E; [|done]. destruct Hc as [<-|[]].
    apply andb_true_iff in E as [E1 E2].
    apply negb_true_iff, strEq_false in E1.
    unfold cognateShape. cbn [word relationship partOfSpeech type confidence
                              language text].
    repeat split; try done.
    + by left.
    + by apply Nat.ltb_lt.
    + by apply (parseLanguageReferences_word etymologyText).
Qed.

Lemma snoc_split {A : Type} (l pre post : list A) (c c' : A) :
  l ++ [c] = pre ++ c' :: post ->
  (post = [] /\ pre = l /\ c' = c)
  \/ exists post', post = post' ++ [c] /\ l = pre ++ c' :: post'.
Proof.
  intros H. destruct post as [|x post' _] using rev_ind.
  - left. apply app_inj_tail in H as [-> ->]. done.
  - right. exists post'.
    change (pre ++ c' :: post' ++ [x]) with (pre ++ (c' :: post') ++ [x]) in H.
    rewrite app_assoc in H. apply app_inj_tail in H as [-> ->]. done.
Qed.

Lemma addExtraCognate_fresh (sourceLanguage : jsstring) (currentMatch : rmatch)
  (connections : list Connection) (cognate : LanguageReference) :
  fresh connections ->
  fresh (addExtraCognate sourceLanguage currentMatch connections cognate).
Proof.
  intros H. unfold addExtraCognate.
  destruct (negb (strEq _ _)); [|exact H].
  destruct (negb (existsb _ _)) eqn:E; [|exact H].
  apply negb_true_iff in E.
  intros pre c post Heq Hc d Hd.
  apply snoc_split in Heq as [(-> & -> & ->)|(post' & -> & ->)].
  - cbn [word text language]. intros [H1 H2].
    assert (Hex : existsb (fun conn =>
                     strEq (text (word conn)) (lr_word cognate)
                     && strEq (language (word conn)) (lr_language cognate))
                    connections = true).
    { apply existsb_exists. exists d. split; [exact Hd|].
      apply andb_true_iff. split; by apply strEq_true. }
    congruence.
  - by apply (H pre c post').
Qed.

Lemma extractCognates_fresh (etymologyText sourceLanguage : jsstring) :
  fresh (extractCognates etymologyText sourceLanguage).
Proof.
  unfold extractCognates.
  apply fold_left_inv.
  - intros acc pattern Hacc. apply fold_left_inv; [|exact Hacc].
    intros acc' currentMatch Hacc'. apply fold_left_inv; [|exact Hacc'].
    intros acc'' cognate. apply addExtraCognate_fresh.
  - intros pre c post Heq Hc.
    assert (Hin : In c (pre ++ c :: post)) by (apply in_elt).
    rewrite <- Heq in Hin.
    apply in_flat_map in Hin as (ref & _ & Hin).
    destruct (_ && _); [|done]. destruct Hin as [<-|[]].
    cbn [relationship confidence] in Hc. discriminate.
Qed.

Lemma extractDerivatives_In (wikitext sourceWord language_ : jsstring)
  (c : Connection) :
  In c (extractDerivatives wikitext sourceWord language_) <->
  exists cleanTerm,
    In cleanTerm (derivedTerms wikitext)
    /\ (includes cleanTerm (toLowerCase sourceWord)
        || includes (toLowerCase sourceWord) cleanTerm) = true
    /\ c = {| word :=
                {| text := cleanTerm;
                   language := language_;
                   partOfSpeech := js "unknown";
                   definition :=
                     getLanguageName language_ ++ js " word derived from "
                     ++ quoted sourceWord |};
              relationship :=
                {| type := js "derivative";
                   confidence := 0.90;
                   notes := js "Derivative of " ++ sourceWord |} |}.
Proof.
  unfold extractDerivatives. rewrite in_flat_map. split.
  - intros (t & Ht & H). exists t. destruct (_ || _); [|done].
    destruct H as [<-|[]]. done.
  - intros (t & Ht & E & ->). exists t. rewrite E. split; [exact Ht|by left].
Qed.

Lemma extractCompounds_In (wikitext sourceWord language_ : jsstring)
  (c : Connection) :
  In c (extractCompounds wikitext sourceWord language_) <->
  exists cleanTerm,
    In cleanTerm (derivedTerms wikitext)
    /\ (includes cleanTerm (toLowerCase sourceWord)
        && (length sourceWord + 2 <? length cleanTerm)%nat) = true
    /\ c = {| word :=
                {| text := cleanTerm;
                   language := language_;
                   partOfSpeech := js "unknown";
                   definition :=
                     getLanguageName language_
                     ++ js " compound word containing " ++ quoted sourceWord |};
              relationship :=
                {| type := js "compound";
                   confidence := 0.85;
                   notes := js "Compound word: " ++ cleanTerm |} |}.
Proof.
  unfold extractCompounds. rewrite in_flat_map. split.
  - intros (t & Ht & H). exists t. destruct (_ && _); [|done].
    destruct H as [<-|[]]. done.
  - intros (t & Ht & E & ->). exists t. rewrite E. split; [exact Ht|by left].
Qed.

(** The three parts of the connections of a page that is long enough. *)
Lemma parseEtymology_In (wikitext sourceWord language_ : jsstring)
  (c : Connection) :
  In c (connections (parseEtymology wikitext sourceWord language_)) ->
  (10 <= length wikitext)%nat
  /\ ((exists etymologyText, In c (extractCognates etymologyText language_))
      \/ In c (extractDerivatives wikitext sourceWord language_)
      \/ In c (extractCompounds wikitext sourceWord language_)).
Proof.
  unfold parseEtymology.
  destruct (negb (truthyStr wikitext) || (length wikitext <? 10)%nat) eqn:E;
    [done|].
  apply orb_false_iff in E as [_ E]. apply Nat.ltb_ge in E.
  cbn [connections]. intros H. split; [exact E|].
  apply in_app_or in H as [H|H]; [left; by eexists|].
  apply in_app_or in H as [H|H]; [right; by left|right; by right].
Qed.

End WiktionaryFacts.

Module WiktionaryTheorems.
Import JS WiktionaryAPI WiktionarySpec DedupFacts StringFacts WiktionaryFacts.
Import WiktionaryExamples.

(** X28. What [parseEtymology] reports are connections of three kinds only,
    on a page of at least ten code units: cognates at 0.80 or 0.85 in a
    language other than the page's, with a trimmed text of more than one code
    unit; derivatives at 0.90 in the page's language, whose text contains the
    lower-cased word or is contained in it; compounds at 0.85 in the page's
    language, whose text contains the lower-cased word and is more than two
    code units longer than the word.  The part of speech is always
    [unknown]. *)
Theorem parseEtymology_connections (wikitext sourceWord language_ : jsstring)
  (c : Connection) :
  In c (connections (parseEtymology wikitext sourceWord language_)) ->
  (10 <= length wikitext)%nat
  /\ partOfSpeech (word c) = js "unknown"
  /\ ((type (relationship c) = js "cognate"
       /\ (confidence (relationship c) = 0.80%Q
           \/ confidence (relationship c) = 0.85%Q)
       /\ language (word c) <> language_
       /\ (1 < length (text (word c)))%nat
       /\ trim (text (word c)) = text (word c))
      \/ (type (relationship c) = js "derivative"
          /\ confidence (relationship c) = 0.90%Q
          /\ language (word c) = language_
          /\ (includes (text (word c)) (toLowerCase sourceWord) = true
              \/ includes (toLowerCase sourceWord) (text (word c)) = true))
      \/ (type (relationship c) = js "compound"
          /\ confidence (relationship c) = 0.85%Q
          /\ language (word c) = language_
          /\ includes (text (word c)) (toLowerCase sourceWord) = true
          /\ (length sourceWord + 2 < length (text (word c)))%nat)).
Proof.
  intros H. apply parseEtymology_In in H as [Hlen H]. split; [exact Hlen|].
  destruct H as [(etymologyText & H)|[H|H]].
  - pose proof (extractCognates_shape etymologyText language_) as Hs.
    apply (proj1 (List.Forall_forall _ _) Hs) in H.
    destruct H as (H1 & H2 & H3 & H4 & H5 & H6).
    split; [exact H1|]. left. done.
  - apply extractDerivatives_In in H as (t & _ & E & ->).
    split; [reflexivity|]. right. left.
    cbn [word relationship type confidence language text].
    repeat split. by apply orb_true_iff in E.
  - apply extractCompounds_In in H as (t & _ & E & ->).
    split; [reflexivity|]. right. right.
    cbn [word relationship type confidence language text].
    apply andb_true_iff in E as [E1 E2]. apply Nat.ltb_lt in E2.
    repeat split; done.
Qed.

Lemma parseEtymology_connections_witness :
  exists c,
    In c (connections (parseEtymology waterPage (js "Water") (js "en")))
    /\ (10 <= length waterPage)%nat
    /\ partOfSpeech (word c) = js "unknown"
    /\ ((type (relationship c) = js "cognate"
         /\ (confidence (relationship c) = 0.80%Q
             \/ confidence (relationship c) = 0.85%Q)
         /\ language (word c) <> js "en"
         /\ (1 < length (text (word c)))%nat
         /\ trim (text (word c)) = text (word c))
        \/ (type (relationship c) = js "derivative"
            /\ confidence (relationship c) = 0.90%Q
            /\ language (word c) = js "en"
            /\ (includes (text (word c)) (toLowerCase (js "Water")) = true
                \/ includes (toLowerCase (js "Water")) (text (word c)) = true))
        \/ (type (relationship c) = js "compound"
            /\ confidence (relationship c) = 0.85%Q
            /\ language (word c) = js "en"
            /\ includes (text (word c)) (toLowerCase (js "Water")) = true
            /\ (length (js "Water") + 2 < length (text (word c)))%nat)).
Proof.
  assert (E : exists c,
             nth_error (connections (parseEtymology waterPage (js "Water")
                                       (js "en"))) 0 = Some c)
    by (vm_compute; eauto).
  destruct E as [c Hc]. exists c.
  assert (Hin : In c (connections (parseEtymology waterPage (js "Water")
                                     (js "en"))))
    by (eapply nth_error_In; exact Hc).
  split; [exact Hin|].
  exact (parseEtymology_connections waterPage (js "Water") (js "en") c Hin).
Defined.

(** X29. Every compound [parseEtymology] reports is reported as a derivative
    too: the test of [extractCompounds] is narrower than the one of
    [extractDerivatives] on the same list of derived terms, so the word is in
    the result twice, once at 0.90 and once at 0.85. *)
Theorem compound_is_reported_as_derivative
  (wikitext sourceWord language_ : jsstring) (c : Connection) :
  In c (connections (parseEtymology wikitext sourceWord language_)) ->
  type (relationship c) = js "compound" ->
  exists d,
    In d (connections (parseEtymology wikitext sourceWord language_))
    /\ type (relationship d) = js "derivative"
    /\ confidence (relationship d) = 0.90%Q
    /\ text (word d) = text (word c)
    /\ language (word d) = language (word c).
Proof.
  intros H Ht.
  assert (Hc : In c (extractCompounds wikitext sourceWord language_)).
  { apply parseEtymology_In in H as [_ [(etymologyText & H)|[H|H]]].
    - pose proof (extractCognates_shape etymologyText language_) as Hs.
      apply (proj1 (List.Forall_forall _ _) Hs) in H.
      destruct H as (_ & H2 & _). rewrite H2 in Ht. vm_compute in Ht.
      discriminate.
    - apply extractDerivatives_In in H as (t & _ & _ & ->).
      vm_compute in Ht. discriminate.
    - exact H. }
  assert (Hlen : (10 <= length wikitext)%nat).
  { by apply parseEtymology_In in H as [Hlen _]. }
  apply extractCompounds_In in Hc as (t & Hin & E & ->).
  apply andb_true_iff in E as [E _].
  exists {| word :=
              {| text := t;
                 language := language_;
                 partOfSpeech := js "unknown";
                 definition :=
                   getLanguageName language_ ++ js " word derived from "
                   ++ quoted sourceWord |};
            relationship :=
              {| type := js "derivative";
                 confidence := 0.90;
                 notes := js "Derivative of " ++ sourceWord |} |}.
  split; [|done].
  unfold parseEtymology.
  replace (negb (truthyStr wikitext) || (length wikitext <? 10)%nat)
    with false.
  2:{ symmetry. apply orb_false_iff. split.
      - destruct wikitext; [simpl in Hlen; lia|done].
      - by apply Nat.ltb_ge. }
  cbn [connections]. apply in_or_app. right. apply in_or_app. left.
  apply extractDerivatives_In. exists t. rewrite E. done.
Qed.

Lemma compound_is_reported_as_derivative_witness :
  exists c,
    In c (connections (parseEtymology waterPage (js "Water") (js "en")))
    /\ type (relationship c) = js "compound"
    /\ exists d,
         In d (connections (parseEtymology waterPage (js "Water") (js "en")))
         /\ type (relationship d) = js "derivative"
         /\ confidence (relationship d) = 0.90%Q
         /\ text (word d) = text (word c)
         /\ language (word d) = language (word c).
Proof.
  assert (E : exists c,
             nth_error (connections (parseEtymology waterPage (js "Water")
                                       (js "en"))) 6 = Some c
             /\ type (relationship c) = js "compound")
    by (vm_compute; eauto).
  destruct E as (c & Hc & Ht). exists c.
  assert (Hin : In c (connections (parseEtymology waterPage (js "Water")
                                     (js "en"))))
    by (eapply nth_error_In; exact Hc).
  split; [exact Hin|]. split; [exact Ht|].
  exact (compound_is_reported_as_derivative waterPage (js "Water") (js "en")
           c Hin Ht).
Defined.

(** X30. A cognate that the phrase patterns of [extractCognates] add (the
    ones at 0.85) never repeats an earlier connection: no connection in front
    of it has its text and its language. *)
Theorem extractCognates_adds_no_repeat (etymologyText sourceLanguage : jsstring)
  (pre post : list Connection) (c d : Connection) :
  extractCognates etymologyText sourceLanguage = pre ++ c :: post ->
  confidence (relationship c) = 0.85%Q ->
  In d pre ->
  ~ (text (word d) = text (word c) /\ language (word d) = language (word c)).
Proof.
  intros Heq Hc Hd.
  exact (extractCognates_fresh etymologyText sourceLanguage pre c post Heq Hc
           d Hd).
Qed.

Lemma extractCognates_adds_no_repeat_witness :
  exists c d,
    extractCognates nestedEtymology (js "en") = [d] ++ c :: []
    /\ confidence (relationship c) = 0.85%Q
    /\ In d [d]
    /\ ~ (text (word d) = text (word c) /\ language (word d) = language (word c)).
Proof.
  assert (E : exists c d,
             extractCognates nestedEtymology (js "en") = [d] ++ c :: []
             /\ confidence (relationship c) = 0.85%Q)
    by (vm_compute; eauto).
  destruct E as (c & d & Heq & Hc). exists c, d.
  split; [exact Heq|]. split; [exact Hc|].
  split; [by left|].
  exact (extractCognates_adds_no_repeat nestedEtymology (js "en") [d] [] c d
           Heq Hc (or_introl eq_refl)).
Defined.

End WiktionaryTheorems.
